(** * A sandboxed file browser: listing, upload placement and archive export

    Shallow embedding of the three route handlers of the file browser
    (directory listing, multi-file upload, zip export) together with the
    parts of the JavaScript runtime they rely on: strings as sequences of
    UTF-16 code units, the POSIX flavour of Node's [path] module, and a
    tree-shaped file system.

    Layout: part I holds the model (one module per source unit), part II
    the lemmas about the model, part III the properties of the handlers. *)

From Stdlib Require Import ZArith Ascii String.
From stdpp Require Import base numbers option list strings pretty gmap fin_maps sorting.

Open Scope Z_scope.

(* ===================================================================== *)
(** * Part I: the model                                                   *)
(* ===================================================================== *)

(** ** JavaScript strings and numbers *)

Module JS.

(** A JavaScript string is a sequence of UTF-16 code units. *)
Abbreviation jsstring := (list N).

(** ASCII literal as a JavaScript string. *)
Fixpoint js (s : string) : jsstring :=
  match s with
  | EmptyString => []
  | String a s' => N_of_ascii a :: js s'
  end.

Arguments js : simpl never.

Definition SLASH : N := 47.
Definition BACKSLASH : N := 92.
Definition DOT : N := 46.
Definition UNDERSCORE : N := 95.

(** [s.startsWith(p)] *)
Fixpoint startsWith (s p : jsstring) : bool :=
  match p, s with
  | [], _ => true
  | _ :: _, [] => false
  | b :: p', a :: s' => (a =? b)%N && startsWith s' p'
  end.

(** [s.includes(p)] *)
Fixpoint includes (s p : jsstring) : bool :=
  startsWith s p ||
  match s with
  | [] => false
  | _ :: s' => includes s' p
  end.

(** [s.split(sep)] for a one-unit separator: never empty. *)
Fixpoint split (sep : N) (s : jsstring) : list jsstring :=
  match s with
  | [] => [[]]
  | c :: s' =>
      if (c =? sep)%N then [] :: split sep s'
      else match split sep s' with
           | seg :: rest => (c :: seg) :: rest
           | [] => [[c]]
           end
  end.

(** [segs.join(sep)] *)
Fixpoint join (sep : jsstring) (segs : list jsstring) : jsstring :=
  match segs with
  | [] => []
  | [seg] => seg
  | seg :: rest => seg ++ sep ++ join sep rest
  end.

(** [a || d] for a string that may be missing. *)
Definition orDefault (o : option jsstring) (d : jsstring) : jsstring :=
  match o with
  | Some (c :: s) => c :: s
  | _ => d
  end.

(** [s.slice(1)] *)
Definition slice1 (s : jsstring) : jsstring := tail s.

Definition isDigit (c : N) : bool := (48 <=? c)%N && (c <=? 57)%N.

(** Template rendering of a positive counter, [`${n}`]. *)
Definition numberToString (n : nat) : jsstring := js (pretty n).

(** Numbers: [None] stands for [NaN]; the handlers only ever compute
    with integers, which are kept exact.  The runtime holds a number
    as a double, which is the integer itself up to [maxExact] in
    absolute value and the nearest double beyond; what depends on the
    very value of a number read from text is stated up to that
    bound. *)
Definition number := option Z.

Definition maxExact : Z := 2 ^ 53.

(** White space and line terminators skipped by [parseInt]. *)
Definition isWhite (c : N) : bool :=
  ((c =? 32) || (9 <=? c) && (c <=? 13) || (c =? 160) || (c =? 5760)
   || (8192 <=? c) && (c <=? 8202) || (c =? 8232) || (c =? 8233)
   || (c =? 8239) || (c =? 8287) || (c =? 12288) || (c =? 65279))%N.

Definition digitValue (radix : Z) (c : N) : option Z :=
  let v :=
    if (48 <=? c)%N && (c <=? 57)%N then Z.of_N c - 48
    else if (97 <=? c)%N && (c <=? 122)%N then Z.of_N c - 87
    else if (65 <=? c)%N && (c <=? 90)%N then Z.of_N c - 55
    else 36 in
  if v <? radix then Some v else None.

Fixpoint skipWhite (s : jsstring) : jsstring :=
  match s with
  | c :: s' => if isWhite c then skipWhite s' else s
  | [] => []
  end.

(** Longest prefix of digits, most significant first. *)
Fixpoint digits (radix : Z) (acc : option Z) (s : jsstring) : option Z :=
  match s with
  | c :: s' =>
      match digitValue radix c with
      | Some v => digits radix (Some (default 0 acc * radix + v)) s'
      | None => acc
      end
  | [] => acc
  end.

(** [Number.parseInt(s)] with the radix left out.  The result is the
    integer written; the runtime returns the double nearest to it,
    which is the same number up to [maxExact]. *)
Definition parseInt (s : jsstring) : number :=
  let s1 := skipWhite s in
  let '(sign, s2) :=
    match s1 with
    | c :: r => if (c =? 45)%N then (-1, r)
                else if (c =? 43)%N then (1, r) else (1, s1)
    | [] => (1, s1)
    end in
  let '(radix, s3) :=
    match s2 with
    | z :: x :: r =>
        if (z =? 48)%N && ((x =? 120)%N || (x =? 88)%N) then (16, r) else (10, s2)
    | _ => (10, s2)
    end in
  match digits radix None s3 with
  | Some v => Some (sign * v)
  | None => None
  end.

(** [xs.slice(start, end)] on arrays, with JavaScript's treatment of
    negative and out-of-range indices. *)
Definition relIndex (len k : Z) : Z :=
  if k <? 0 then Z.max (len + k) 0 else Z.min k len.

Definition slice {A} (xs : list A) (start stop : Z) : list A :=
  let len := Z.of_nat (length xs) in
  let a := relIndex len start in
  let b := relIndex len stop in
  take (Z.to_nat (b - a)) (drop (Z.to_nat a) xs).

(** The locale-dependent string operations of the runtime. *)
Class Locale := {
  toLowerCase : jsstring → jsstring;
  localeCompare : jsstring → jsstring → Z
}.

(** What the sort needs from [localeCompare]: a total preorder. *)
Class LocaleOrder (L : Locale) : Prop := {
  localeCompare_total a b : localeCompare a b <= 0 ∨ localeCompare b a <= 0;
  localeCompare_trans a b c :
    localeCompare a b <= 0 → localeCompare b c <= 0 → localeCompare a c <= 0
}.

Definition COMMA : N := 44.

(** [s.trim()]: white space and line terminators removed at both ends. *)
Definition trim (s : jsstring) : jsstring :=
  reverse (skipWhite (reverse (skipWhite s))).

(** [parseInt(s, 10)]: the radix is given, so no [0x] prefix is
    recognised.  As for [parseInt], the result is the integer written,
    which is what the runtime returns up to [maxExact]. *)
Definition parseInt10 (s : jsstring) : number :=
  let s1 := skipWhite s in
  let '(sign, s2) :=
    match s1 with
    | c :: r => if (c =? 45)%N then (-1, r)
                else if (c =? 43)%N then (1, r) else (1, s1)
    | [] => (1, s1)
    end in
  match digits 10 None s2 with
  | Some v => Some (sign * v)
  | None => None
  end.

(** [x || d] for a string [x]: the empty string is falsy. *)
Definition orElse (x d : jsstring) : jsstring :=
  match x with [] => d | _ => x end.

(** A [Set] of strings, in insertion order. *)
Definition setAdd (x : jsstring) (s : list jsstring) : list jsstring :=
  if bool_decide (x ∈ s) then s else s ++ [x].

Definition setDelete (x : jsstring) (s : list jsstring) : list jsstring :=
  filter (λ y, y ≠ x) s.

(** [new Set(xs)] *)
Definition setOf (xs : list jsstring) : list jsstring :=
  foldl (λ s x, setAdd x s) [] xs.

End JS.

(** ** Node's [path] module, POSIX flavour *)

Module Path.
Import JS.

Definition isDot (seg : jsstring) : bool := bool_decide (seg = [DOT]).
Definition isDotDot (seg : jsstring) : bool := bool_decide (seg = [DOT; DOT]).

(** One segment of [normalizeString]; [res] is the stack of segments
    kept so far, innermost first. *)
Definition normStep (allowAboveRoot : bool) (res : list jsstring) (seg : jsstring)
  : list jsstring :=
  if bool_decide (seg = []) || isDot seg then res
  else if isDotDot seg then
    match res with
    | top :: rest =>
        if isDotDot top then (if allowAboveRoot then seg :: res else res)
        else rest
    | [] => if allowAboveRoot then [seg] else []
    end
  else seg :: res.

Definition normSegs (allowAboveRoot : bool) (segs : list jsstring) : list jsstring :=
  reverse (foldl (normStep allowAboveRoot) [] segs).

Definition normalizeString (p : jsstring) (allowAboveRoot : bool) : jsstring :=
  join [SLASH] (normSegs allowAboveRoot (split SLASH p)).

Definition isAbsolute (p : jsstring) : bool :=
  match p with c :: _ => (c =? SLASH)%N | [] => false end.

Definition endsWithSlash (p : jsstring) : bool :=
  match last p with Some c => (c =? SLASH)%N | None => false end.

(** [path.normalize(p)] *)
Definition normalize (p : jsstring) : jsstring :=
  match p with
  | [] => [DOT]
  | _ =>
      let abs := isAbsolute p in
      let trailing := endsWithSlash p in
      let q := normalizeString p (negb abs) in
      match q with
      | [] => if abs then [SLASH] else if trailing then [DOT; SLASH] else [DOT]
      | _ =>
          let q' := if trailing then q ++ [SLASH] else q in
          if abs then SLASH :: q' else q'
      end
  end.

(** [path.join(a, b)] *)
Definition join2 (a b : jsstring) : jsstring :=
  match a, b with
  | [], [] => [DOT]
  | [], _ => normalize b
  | _, [] => normalize a
  | _, _ => normalize (a ++ [SLASH] ++ b)
  end.

(** The string [path.resolve(p)] normalizes: [p] itself when absolute,
    the working directory [cwd] of the process in front of it
    otherwise. *)
Definition resolveInput (cwd p : jsstring) : jsstring :=
  if isAbsolute p then p ++ [SLASH]
  else match p with
       | [] => cwd ++ [SLASH]
       | _ => cwd ++ [SLASH] ++ p ++ [SLASH]
       end.

(** The segments of the resolved path, outermost first. *)
Definition key (cwd p : jsstring) : list jsstring :=
  normSegs false (split SLASH (resolveInput cwd p)).

(** The same segments, innermost first. *)
Definition stack (cwd p : jsstring) : list jsstring :=
  foldl (normStep false) [] (split SLASH (resolveInput cwd p)).

(** A segment that names something: not empty, not [.], not [..]. *)
Definition regular (seg : jsstring) : Prop :=
  seg ≠ [] ∧ seg ≠ [DOT] ∧ seg ≠ [DOT; DOT].

(** With climbing above the start allowed, a stack holds regular
    segments above a run of [..]. *)
Definition climbing (res : list jsstring) : Prop :=
  ∃ regs k, res = regs ++ replicate k [DOT; DOT] ∧ Forall regular regs.

(** Segments in which [..] occurs only as a leading run. *)
Definition climbsFirst (segs : list jsstring) : Prop :=
  ∃ k rest, segs = replicate k [DOT; DOT] ++ rest ∧ [DOT; DOT] ∉ rest.

(** What [readdir] can return: a regular segment without separator. *)
Definition validName (n : jsstring) : Prop := regular n ∧ SLASH ∉ n.

(** [path.resolve(p)] *)
Definition resolve (cwd p : jsstring) : jsstring :=
  SLASH :: join [SLASH] (key cwd p).

(** The last component of [p], trailing separators ignored. *)
Definition lastComponent (p : jsstring) : jsstring :=
  default [] (head (filter (λ seg, seg ≠ []) (reverse (split SLASH p)))).

(** Position of the last dot of a component, if any. *)
Fixpoint lastDot (s : jsstring) : option nat :=
  match s with
  | [] => None
  | c :: s' =>
      match lastDot s' with
      | Some i => Some (S i)
      | None => if (c =? DOT)%N then Some 0%nat else None
      end
  end.

(** [path.extname(p)] *)
Definition extname (p : jsstring) : jsstring :=
  let b := lastComponent p in
  match lastDot b with
  | None => []
  | Some i =>
      if bool_decide (i = 0%nat) || isDotDot b then [] else drop i b
  end.

(** [s.endsWith(x)] *)
Definition endsWith (s x : jsstring) : bool := startsWith (reverse s) (reverse x).

(** [path.basename(p, ext)] *)
Definition basename (p ext : jsstring) : jsstring :=
  let b := lastComponent p in
  match ext with
  | [] => b
  | _ =>
      if bool_decide (ext = p) then []
      else if (length ext <=? length p)%nat && endsWith b ext
              && negb (bool_decide (b = ext))
           then take (length b - length ext) b
           else b
  end.

(** [path.basename(p)] *)
Definition basename1 (p : jsstring) : jsstring := lastComponent p.

End Path.

(** ** The directory listing route *)

Module Listing.
Import JS Path.

(** What the handler observes of the file system: a snapshot, queried
    through [fs.access], [fs.stat] and [fs.readdir].  [None] is a
    rejected promise.  (When the root is literally [./public] the
    handler first creates its demo files below it; the snapshot is the
    file system after that step.) *)
Record Stats := { isDirectory : bool; st_size : Z; mtime : jsstring }.

Inductive DirentKind := KFile | KDirectory | KOther.

Record Dirent := { d_name : jsstring; d_kind : DirentKind }.

Record ReadFS := {
  access : jsstring → bool;
  stat : jsstring → option Stats;
  readdir : jsstring → option (list Dirent)
}.

Inductive FileType := file | directory.

Record FileItem := {
  name : jsstring;
  type : FileType;
  size : Z;
  lastModified : jsstring;
  path : jsstring;
  extension : option jsstring
}.

Record Body := {
  files : list FileItem;
  total : Z;
  page : Z;
  hasMore : bool;
  error : option jsstring
}.

Record Response := { status : Z; body : Body }.

(** File-system calls and console output, in program order. *)
Inductive Event :=
| EvAccess (p : jsstring)
| EvStat (p : jsstring)
| EvReaddir (p : jsstring)
| EvError (msg : jsstring)
| EvWarn (msg : jsstring).

Record Query := {
  q_path : option jsstring;
  q_page : option jsstring;
  q_limit : option jsstring;
  q_search : option jsstring
}.

(** The sandbox root: the environment variable when set and not empty,
    the container path otherwise. *)
Definition getStaticFilesRoot (envRoot : option jsstring) : jsstring :=
  orDefault envRoot (js "/app/public/files").

Definition safePage (page : number) : Z :=
  match page with
  | None => 1
  | Some p => if p <? 1 then 1 else p
  end.

Definition safeLimit (limit : number) : Z :=
  match limit with
  | None => 20
  | Some l => if l <? 1 then 20 else Z.min l 100
  end.

(** The regular-expression scrub of the listing route: every leading
    repetition of two dots followed by a slash or a backslash is
    removed. *)
Fixpoint stripDotDots (s : jsstring) : jsstring :=
  match s with
  | a :: b :: c :: rest =>
      if (a =? DOT)%N && (b =? DOT)%N && ((c =? SLASH)%N || (c =? BACKSLASH)%N)
      then stripDotDots rest else s
  | _ => s
  end.

(** Every backslash replaced by a slash. *)
Definition backslashesToSlashes (s : jsstring) : jsstring :=
  map (λ c, if (c =? BACKSLASH)%N then SLASH else c) s.

Definition errorBody (p : Z) (msg : jsstring) : Body :=
  {| files := []; total := 0; page := p; hasMore := false; error := Some msg |}.

Section Handler.
Context {L : Locale}.
Variable STATIC_FILES_ROOT : jsstring.
Variable cwd : jsstring.
Variable fs : ReadFS.

(** The comparator handed to [files.sort]. *)
Definition compareItems (a b : FileItem) : Z :=
  match type a, type b with
  | directory, file => -1
  | file, directory => 1
  | _, _ => localeCompare (name a) (name b)
  end.

Fixpoint insertSorted (x : FileItem) (l : list FileItem) : list FileItem :=
  match l with
  | [] => [x]
  | y :: l' => if compareItems x y <=? 0 then x :: l else y :: insertSorted x l'
  end.

(** [files.sort(cmp)]: a stable sort.  For a comparator that is a total
    preorder every stable sort returns this list. *)
Definition sort (l : list FileItem) : list FileItem :=
  foldr insertSorted [] l.

Definition matchesSearch (search nm : jsstring) : bool :=
  match search with
  | [] => true
  | _ => includes (toLowerCase nm) (toLowerCase search)
  end.

(** One round of the loop over the directory entries. *)
Definition visitEntry (fullPath safePath search : jsstring) (entry : Dirent)
  : list FileItem * list Event :=
  let entryPath := join2 fullPath (d_name entry) in
  let relativePath := backslashesToSlashes (join2 safePath (d_name entry)) in
  match stat fs entryPath with
  | Some stats =>
      if negb (matchesSearch search (d_name entry)) then ([], [EvStat entryPath])
      else if startsWith (d_name entry) [DOT] then ([], [EvStat entryPath])
      else
        ([ {| name := d_name entry;
              type := match d_kind entry with KDirectory => directory | _ => file end;
              size := st_size stats;
              lastModified := mtime stats;
              path := if startsWith relativePath [SLASH] then relativePath
                      else SLASH :: relativePath;
              extension := match d_kind entry with
                           | KFile => Some (slice1 (extname (d_name entry)))
                           | _ => None
                           end |} ],
         [EvStat entryPath])
  | None =>
      ([], [EvStat entryPath; EvWarn (js "Failed to stat " ++ entryPath ++ js ":")])
  end.

Definition visitEntries (fullPath safePath search : jsstring) (entries : list Dirent)
  : list FileItem * list Event :=
  foldl (λ acc entry,
           let r := visitEntry fullPath safePath search entry in
           (acc.1 ++ r.1, acc.2 ++ r.2))
        ([], []) entries.

Definition paginate (all : list FileItem) (pg lim : Z) : Body :=
  let total := Z.of_nat (length all) in
  let startIndex := (pg - 1) * lim in
  let endIndex := startIndex + lim in
  {| files := slice all startIndex endIndex;
     total := total;
     page := pg;
     hasMore := endIndex <? total;
     error := None |}.

(** The handler once the query parameters are read: [pg] and [lim]
    are [safePage] and [safeLimit]. *)
Definition handle (requestedPath : jsstring) (pg lim : Z) (search : jsstring)
  : Response * list Event :=
  let safePath := stripDotDots (normalize requestedPath) in
  let fullPath := join2 STATIC_FILES_ROOT safePath in
  if negb (access fs STATIC_FILES_ROOT) then
    ({| status := 404;
        body := errorBody pg (js "Root directory not found: " ++ STATIC_FILES_ROOT) |},
     [EvAccess STATIC_FILES_ROOT;
      EvError (js "Root directory does not exist: " ++ STATIC_FILES_ROOT)])
  else
    let resolvedPath := resolve cwd fullPath in
    let resolvedRoot := resolve cwd STATIC_FILES_ROOT in
    if negb (startsWith resolvedPath resolvedRoot) then
      ({| status := 400; body := errorBody pg (js "Invalid path") |},
       [EvAccess STATIC_FILES_ROOT])
    else
      let notAccessible evs :=
        ({| status := 404;
            body := errorBody pg (js "Directory not accessible: " ++ fullPath) |},
         [EvAccess STATIC_FILES_ROOT] ++ evs ++
         [EvError (js "Failed to read directory " ++ fullPath ++ js ":")]) in
      match stat fs fullPath with
      | None => notAccessible [EvStat fullPath]
      | Some dirStats =>
          if negb (isDirectory dirStats) then
            ({| status := 400; body := errorBody pg (js "Path is not a directory") |},
             [EvAccess STATIC_FILES_ROOT; EvStat fullPath])
          else
            match readdir fs fullPath with
            | None => notAccessible [EvStat fullPath; EvReaddir fullPath]
            | Some entries =>
                let r := visitEntries fullPath safePath search entries in
                ({| status := 200; body := paginate (sort r.1) pg lim |},
                 [EvAccess STATIC_FILES_ROOT; EvStat fullPath; EvReaddir fullPath]
                   ++ r.2)
            end
      end.

Definition GET (q : Query) : Response * list Event :=
  handle (orDefault (q_path q) [SLASH])
         (safePage (parseInt (orDefault (q_page q) (js "1"))))
         (safeLimit (parseInt (orDefault (q_limit q) (js "20"))))
         (orDefault (q_search q) []).

(** The reply of the outermost [catch]. *)
Definition internalError : Response :=
  {| status := 500; body := errorBody 1 (js "Internal server error") |}.

End Handler.

End Listing.

(** ** A tree-shaped file system for the routes that write *)

Module FS.
Import JS Path.

(** Regular files and directories, addressed by the segments of their
    absolute path; the root directory [[]] always exists. *)
Inductive node := Dir | File (content : list N).

Abbreviation tree := (gmap (list jsstring) node).

Definition lookupNode (t : tree) (k : list jsstring) : option node :=
  match k with
  | [] => Some Dir
  | _ => t !! k
  end.

Definition isDir (o : option node) : bool :=
  match o with Some Dir => true | _ => false end.

(** Every proper ancestor of [k] is a directory. *)
Definition reachable (t : tree) (k : list jsstring) : bool :=
  forallb (λ i, isDir (lookupNode t (take i k))) (seq 0 (length k)).

(** [fs.stat]: the node at [k], when the walk down to it succeeds. *)
Definition statNode (t : tree) (k : list jsstring) : option node :=
  if reachable t k then lookupNode t k else None.

(** [fs.access]: does the promise resolve? *)
Definition accessNode (t : tree) (k : list jsstring) : bool :=
  bool_decide (is_Some (statNode t k)).

(** [fs.stat(p)] for a path as the program writes it: the walk is that
    of the resolved path, and a separator at the end of [p] asks for a
    directory, so that a regular file is not found under it. *)
Definition statPath (cwd : jsstring) (t : tree) (p : jsstring) : option node :=
  match statNode t (key cwd p) with
  | Some (File data) => if endsWithSlash p then None else Some (File data)
  | o => o
  end.

(** [fs.mkdir(p, {recursive: true})]: create what is missing on the
    way down; a regular file in the way makes it throw. *)
Fixpoint mkdirFrom (t : tree) (above todo : list jsstring) : option tree :=
  match todo with
  | [] => Some t
  | seg :: todo' =>
      let k := above ++ [seg] in
      match lookupNode t k with
      | None => mkdirFrom (<[k := Dir]> t) k todo'
      | Some Dir => mkdirFrom t k todo'
      | Some (File _) => None
      end
  end.

Definition mkdirRecursive (t : tree) (k : list jsstring) : option tree :=
  mkdirFrom t [] k.

(** [fs.writeFile(p, data)]: the parent must be a directory that can be
    walked to, and [p] itself must not be a directory. *)
Definition writeFile (t : tree) (k : list jsstring) (data : list N) : option tree :=
  match k with
  | [] => None
  | _ =>
      if reachable t k && isDir (lookupNode t (removelast k))
         && negb (isDir (lookupNode t k))
      then Some (<[k := File data]> t)
      else None
  end.

(** Trees that only grew: every node of the first is in the second. *)
Definition extends (t t' : tree) : Prop := ∀ k n, t !! k = Some n → t' !! k = Some n.

(** The regular files below directory [k], with their path relative to
    [k] and their content. *)
Definition filesBelow (t : tree) (k : list jsstring)
  : list (list jsstring * list N) :=
  omap (λ '(k', _),
          if bool_decide (k `prefix_of` k') then
            match statNode t k' with
            | Some (File data) => Some (drop (length k) k', data)
            | _ => None
            end
          else None)
       (map_to_list t).

End FS.

(** ** The upload route *)

Module Upload.
Import JS Path FS.

Record UploadFile := { f_name : jsstring; f_content : list N }.

(** [file.size] *)
Definition f_size (f : UploadFile) : Z := Z.of_nat (length (f_content f)).

(** The three ways a file of the batch ends up with [success: false]:
    the size message, the extension message, and the message of an
    exception caught around the write. *)
Inductive UploadError := FileTooLarge | DisallowedType | IOFailure.

Record Result := {
  r_name : jsstring;
  savedAs : option jsstring;
  success : bool;
  r_error : option UploadError;
  r_size : option Z
}.

Record Summary := {
  results : list Result;
  successCount : Z;
  failCount : Z
}.

Inductive Response :=
| Ok200 (s : Summary)
| NoFiles400.

Definition rejected (f : UploadFile) (e : UploadError) : Result :=
  {| r_name := f_name f; savedAs := None; success := false;
     r_error := Some e; r_size := None |}.

Definition stored (f : UploadFile) (finalName : jsstring) : Result :=
  {| r_name := f_name f; savedAs := Some finalName; success := true;
     r_error := None; r_size := Some (f_size f) |}.

(** The character class of the scrub: ASCII letters and digits, the
    Hangul syllables U+AC00..U+D7A3, dot, dash, underscore. *)
Definition isSafeChar (c : N) : bool :=
  ((97 <=? c) && (c <=? 122) || (65 <=? c) && (c <=? 90)
   || (48 <=? c) && (c <=? 57) || (44032 <=? c) && (c <=? 55203)
   || (c =? DOT) || (c =? 45) || (c =? UNDERSCORE))%N.

Definition safeName (nm : jsstring) : jsstring :=
  map (λ c, if isSafeChar c then c else UNDERSCORE) nm.

(** The name tried at round [counter] of the collision loop. *)
Definition numbered (safeFileName : jsstring) (counter : nat) : jsstring :=
  let ext := extname safeFileName in
  let nameWithoutExt := basename safeFileName ext in
  nameWithoutExt ++ js "_(" ++ numberToString counter ++ js ")" ++ ext.

Definition getStaticFilesRoot (envRoot : option jsstring) : jsstring :=
  orDefault envRoot (js "./public/files").

(** The allow-list and the size limit used when the environment sets
    none. *)
Definition defaultAllowedExtensions : list jsstring :=
  map js ["txt"; "md"; "json"; "pdf"; "jpg"; "jpeg"; "png"; "gif"; "webp";
          "doc"; "docx"; "xls"; "xlsx"; "ppt"; "pptx"; "zip"; "csv"]%string.

Definition defaultMaxFileSize : Z := 10 * 1024 * 1024.

Section Handler.
Context {L : Locale}.
Variable STATIC_FILES_ROOT : jsstring.
Variable ALLOWED_EXTENSIONS : list jsstring.
Variable MAX_FILE_SIZE : Z.
Variable cwd : jsstring.

(** The [while (true)] loop looking for a free name; [fuel] bounds the
    number of rounds. *)
Fixpoint findFree (fuel : nat) (t : tree) (targetDir safeFileName finalPath : jsstring)
    (counter : nat) : option jsstring :=
  match fuel with
  | O => None
  | S fuel' =>
      if accessNode t (key cwd finalPath) then
        findFree fuel' t targetDir safeFileName
                 (join2 targetDir (numbered safeFileName counter)) (S counter)
      else Some finalPath
  end.

(** The body of the loop over the files of the batch. *)
Definition uploadOne (fuel : nat) (targetPath : jsstring) (t : tree) (f : UploadFile)
  : option (Result * tree) :=
  if MAX_FILE_SIZE <? f_size f then Some (rejected f FileTooLarge, t)
  else
    let fileExtension := toLowerCase (slice1 (extname (f_name f))) in
    if negb (bool_decide (fileExtension ∈ ALLOWED_EXTENSIONS))
    then Some (rejected f DisallowedType, t)
    else
      let safeFileName := safeName (f_name f) in
      let targetDir := join2 STATIC_FILES_ROOT targetPath in
      let filePath := join2 targetDir safeFileName in
      match mkdirRecursive t (key cwd targetDir) with
      | None => Some (rejected f IOFailure, t)
      | Some t1 =>
          match findFree fuel t1 targetDir safeFileName filePath 1 with
          | None => None
          | Some finalPath =>
              match writeFile t1 (key cwd finalPath) (f_content f) with
              | None => Some (rejected f IOFailure, t1)
              | Some t2 => Some (stored f (basename1 finalPath), t2)
              end
          end
      end.

Fixpoint uploadAll (fuel : nat) (targetPath : jsstring) (t : tree)
    (fs : list UploadFile) : option (list Result * tree) :=
  match fs with
  | [] => Some ([], t)
  | f :: fs' =>
      match uploadOne fuel targetPath t f with
      | None => None
      | Some (r, t1) =>
          match uploadAll fuel targetPath t1 fs' with
          | None => None
          | Some (rs, t2) => Some (r :: rs, t2)
          end
      end
  end.

Definition summarize (rs : list Result) : Summary :=
  let ok := Z.of_nat (length (filter (λ r, success r = true) rs)) in
  {| results := rs; successCount := ok;
     failCount := Z.of_nat (length rs) - ok |}.

Definition POST (fuel : nat) (t : tree) (files : list UploadFile)
    (pathField : option jsstring) : option (Response * tree) :=
  let targetPath := orDefault pathField [SLASH] in
  match files with
  | [] => Some (NoFiles400, t)
  | _ =>
      match uploadAll fuel targetPath t files with
      | None => None
      | Some (rs, t') => Some (Ok200 (summarize rs), t')
      end
  end.

End Handler.

End Upload.

(** ** The archive route *)

Module Archive.
Import JS Path FS.

(** What the route asks of the archiver, one call for every listed
    path that could be stat-ed: [archive.file(fullPath, { name })] or
    [archive.directory(fullPath, destpath)]. *)
Inductive Call :=
| AddFile (fullPath name : jsstring)
| AddDirectory (fullPath destpath : jsstring).

(** A file entry of the archive: the name it is added under (as the
    route hands it over, before the archiver tidies entry names), the
    file it is read from and its bytes. *)
Record Entry := {
  e_name : jsstring;
  e_source : list jsstring;
  e_data : list N
}.

Inductive Response :=
| Zip (entries : list Entry) (warnings : list jsstring)
| NoPaths400.

Definition getStaticFilesRoot (envRoot : option jsstring) : jsstring :=
  orDefault envRoot (js "./public/files").

Section Handler.
Variable STATIC_FILES_ROOT : jsstring.
Variable cwd : jsstring.
Variable t : tree.

(** One round of the loop of [addFilesToArchive]: the call made for a
    listed path, or the path named in the warning when [fs.stat]
    throws. *)
Definition visitPath (filePath : jsstring) : Call + jsstring :=
  let fullPath := join2 STATIC_FILES_ROOT filePath in
  let relativePath := if startsWith filePath [SLASH] then slice1 filePath else filePath in
  match statPath cwd t fullPath with
  | Some Dir => inl (AddDirectory fullPath relativePath)
  | Some (File _) => inl (AddFile fullPath relativePath)
  | None => inr fullPath
  end.

(** Modelled from the spec: the [archiver] package, whose [directory]
    is called here, is not under src/.  Following the spec, a directory
    contributes every descendant file, at any depth, the relative
    directory structure being kept below the name handed over.  Only
    the entries that carry a file are modelled: whatever else the
    package records (such as an entry without content for a
    sub-directory) is left out. *)
Definition directoryEntries (dir : list jsstring) (pfx : jsstring) : list Entry :=
  map (λ '(rel, data),
         {| e_name := match pfx with
                      | [] => join [SLASH] rel
                      | _ => pfx ++ [SLASH] ++ join [SLASH] rel
                      end;
            e_source := dir ++ rel;
            e_data := data |})
      (filesBelow t dir).

(** Modelled from the spec: the file entries a call to the [archiver]
    package (not under src/) leaves in the archive.  A file is added
    directly, under the name handed over; a directory as described
    above. *)
Definition fileEntries (c : Call) : list Entry :=
  match c with
  | AddFile fullPath name =>
      match statPath cwd t fullPath with
      | Some (File data) =>
          [ {| e_name := name; e_source := key cwd fullPath; e_data := data |} ]
      | _ => []
      end
  | AddDirectory fullPath destpath => directoryEntries (key cwd fullPath) destpath
  end.

(** The file entries and the warning of one round. *)
Definition addPath (filePath : jsstring) : list Entry * list jsstring :=
  match visitPath filePath with
  | inl c => (fileEntries c, [])
  | inr fullPath => ([], [fullPath])
  end.

Definition addFilesToArchive (paths : list jsstring) : list Entry * list jsstring :=
  foldl (λ acc p, let r := addPath p in (acc.1 ++ r.1, acc.2 ++ r.2)) ([], []) paths.

Definition POST (paths : list jsstring) : Response :=
  match paths with
  | [] => NoPaths400
  | _ => let r := addFilesToArchive paths in Zip r.1 r.2
  end.

End Handler.

End Archive.

(** ** The upload limits: configuration and the route that reports them *)

Module Limits.
Import JS Upload.

(** The allow-list: the comma-separated environment variable when set
    and not empty, the built-in list otherwise. *)
Definition getAllowedExtensions {L : Locale} (envExtensions : option jsstring)
  : list jsstring :=
  match envExtensions with
  | Some (c :: s) => map (λ ext, toLowerCase (trim ext)) (split COMMA (c :: s))
  | _ => defaultAllowedExtensions
  end.

(** The size limit, [NaN] when the variable does not start with a
    number. *)
Definition getMaxFileSize (envSize : option jsstring) : number :=
  match envSize with
  | Some (c :: s) => parseInt10 (c :: s)
  | _ => Some defaultMaxFileSize
  end.

(** [Math.round(n / 1024 / 1024)] for an integer [n]: both divisions
    are by powers of two and exact, and [Math.round] rounds halves
    up. *)
Definition roundMB (n : Z) : Z := (n + 524288) / 1048576.

(** The limits as they travel in JSON: a number that is [NaN] is
    written as [null], here [None]. *)
Record UploadLimits := {
  maxFileSize : option Z;
  maxFileSizeMB : option Z;
  allowedExtensions : list jsstring
}.

(** The reply of the [GET] handler of the upload route. *)
Definition GET (ALLOWED_EXTENSIONS : list jsstring) (MAX_FILE_SIZE : number)
  : UploadLimits :=
  {| maxFileSize := MAX_FILE_SIZE;
     maxFileSizeMB := roundMB <$> MAX_FILE_SIZE;
     allowedExtensions := ALLOWED_EXTENSIONS |}.

End Limits.

(** ** The upload dialog of the browser *)

Module Dialog.
Import JS Upload Limits.


End Dialog.

(** ** The file explorer of the browser *)

Module Explorer.
Import JS Listing.

Inductive ViewMode := pagination | infinite.

(** The [limit] parameter sent by [fetchFiles]: the configured page
    limit in pagination mode (always 20 in the explorer without
    settings), 10 when scrolling. *)
Definition pageSize (pageLimit : nat) (viewMode : ViewMode) : nat :=
  match viewMode with pagination => pageLimit | infinite => 10%nat end.

(** The query string built by [fetchFiles]. *)
Definition fetchParams (pageLimit : nat) (viewMode : ViewMode)
    (path : jsstring) (page : nat) (searchTerm : jsstring) : Query :=
  {| q_path := Some path;
     q_page := Some (numberToString page);
     q_limit := Some (numberToString (pageSize pageLimit viewMode));
     q_search := Some searchTerm |}.

(** [Math.ceil(total / limit)] on integers, [limit] positive. *)
Definition totalPages (total limit : Z) : Z := - ((- total) / limit).

(** The path [handleBackClick] moves to. *)
Definition parentPath (currentPath : jsstring) : jsstring :=
  orElse (join [SLASH] (slice (split SLASH currentPath) 0 (-1))) [SLASH].

(** The selection: the set of selected paths and the index clicked
    last. *)
Record Selection := {
  selectedFiles : list jsstring;
  lastSelectedIndex : option nat
}.

Record Click := { shiftKey : bool; ctrlKey : bool; metaKey : bool }.

(** The loop of a shift-click: the paths of [files[start..end]] are
    added, indices without a file skipped. *)
Definition addRange (files : list FileItem) (start stop : nat) (sel : list jsstring)
  : list jsstring :=
  foldl (λ s i, match files !! i with
                | Some f => setAdd (path f) s
                | None => s
                end)
        sel (seq start (S stop - start)).

Definition handleFileSelect (files : list FileItem) (st : Selection)
    (filePath : jsstring) (index : nat) (event : Click) : Selection :=
  let newSelected :=
    match shiftKey event, lastSelectedIndex st with
    | true, Some lastIndex =>
        addRange files (lastIndex `min` index) (lastIndex `max` index) (selectedFiles st)
    | _, _ =>
        if ctrlKey event || metaKey event then
          if bool_decide (filePath ∈ selectedFiles st)
          then setDelete filePath (selectedFiles st)
          else setAdd filePath (selectedFiles st)
        else [filePath]
    end in
  {| selectedFiles := newSelected; lastSelectedIndex := Some index |}.

Definition handleSelectAll (files : list FileItem) (st : Selection) : Selection :=
  {| selectedFiles :=
       if bool_decide (length (selectedFiles st) = length files) then []
       else setOf (map path files);
     lastSelectedIndex := lastSelectedIndex st |}.

(** What the explorer shows of a folder. *)
Record View := {
  s_files : list FileItem;
  s_currentPage : nat;
  s_totalPages : Z;
  s_hasMore : bool;
  s_error : option jsstring
}.

Section Fetching.
Context {L : Locale}.
Variables (root cwd : jsstring) (fs : ReadFS).
Variables (pageLimit : nat) (viewMode : ViewMode) (searchTerm : jsstring).

(** [fetchFiles], from the request to the state once the reply has been
    taken in.  A reply that is not OK empties the list and leaves the
    rest as it was.  (The replies of the listing route always hold a
    list of files, so the check of the reply's shape never fires.) *)
Definition fetchFiles (st : View) (dir : jsstring) (pageNo : nat) (append : bool) : View :=
  let response := (GET root cwd fs (fetchParams pageLimit viewMode dir pageNo searchTerm)).1 in
  let data := body response in
  if negb ((200 <=? status response) && (status response <=? 299)) then
    {| s_files := [];
       s_currentPage := s_currentPage st;
       s_totalPages := s_totalPages st;
       s_hasMore := s_hasMore st;
       s_error := Some (orDefault (error data)
                          (js "HTTP error! status: "
                             ++ numberToString (Z.to_nat (status response)))) |}
  else
    {| s_files := if append then s_files st ++ files data else files data;
       s_currentPage := s_currentPage st;
       s_totalPages := totalPages (total data) (Z.of_nat (pageSize pageLimit viewMode));
       s_hasMore := hasMore data;
       s_error := None |}.

(** The effect that runs when the folder, the search term or the view
    mode changes. *)
Definition openFolder (st : View) (dir : jsstring) : View :=
  fetchFiles {| s_files := []; s_currentPage := 1;
                s_totalPages := s_totalPages st; s_hasMore := s_hasMore st;
                s_error := s_error st |} dir 1 false.

(** [handleLoadMore], pressed once the previous fetch has settled. *)
Definition handleLoadMore (st : View) (dir : jsstring) : View :=
  if s_hasMore st then
    let nextPage := S (s_currentPage st) in
    fetchFiles {| s_files := s_files st; s_currentPage := nextPage;
                  s_totalPages := s_totalPages st; s_hasMore := s_hasMore st;
                  s_error := s_error st |} dir nextPage true
  else st.

End Fetching.

End Explorer.

(** ** The download route *)

Module Download.
Import JS Path Listing.

(** What the route asks of the file system, beyond [fs.access] and
    [fs.stat]: the content of a file. *)
Record FileFS := {
  base : ReadFS;
  readFile : jsstring → option (list N)
}.

Inductive Event :=
| EvAccess (p : jsstring)
| EvStat (p : jsstring)
| EvReadFile (p : jsstring).

(** A JSON error reply, or the file: its bytes, the [Content-Type], the
    name that goes (URI-encoded) into [Content-Disposition], and the
    [Content-Length]. *)
Inductive Response :=
| Json (status : Z) (error : jsstring)
| Attachment (content : list N) (contentType fileName : jsstring) (contentLength : Z).

Definition getStaticFilesRoot (envRoot : option jsstring) : jsstring :=
  orDefault envRoot (js "/app/public/files").

Definition mimeTypes : list (jsstring * jsstring) :=
  map (λ '(e, t), (js e, js t))
    [(".txt", "text/plain"); (".md", "text/markdown"); (".html", "text/html");
     (".css", "text/css"); (".js", "application/javascript");
     (".json", "application/json"); (".xml", "application/xml");
     (".pdf", "application/pdf"); (".jpg", "image/jpeg"); (".jpeg", "image/jpeg");
     (".png", "image/png"); (".gif", "image/gif"); (".svg", "image/svg+xml");
     (".mp4", "video/mp4"); (".mp3", "audio/mpeg"); (".zip", "application/zip")]%string.

Fixpoint lookupType (tbl : list (jsstring * jsstring)) (ext : jsstring)
  : option jsstring :=
  match tbl with
  | [] => None
  | (e, t) :: tbl' => if bool_decide (e = ext) then Some t else lookupType tbl' ext
  end.

Section Handler.
Context {L : Locale}.
Variable STATIC_FILES_ROOT : jsstring.
Variable cwd : jsstring.
Variable fs : FileFS.

Definition contentTypeOf (fileName : jsstring) : jsstring :=
  let ext := toLowerCase (extname fileName) in
  default (js "application/octet-stream") (lookupType mimeTypes ext).

Definition GET (pathParam : option jsstring) : Response * list Event :=
  match pathParam with
  | None | Some [] => (Json 400 (js "Path parameter is required"), [])
  | Some requestedPath =>
      let safePath := stripDotDots (normalize requestedPath) in
      let fullPath := join2 STATIC_FILES_ROOT safePath in
      if negb (access (base fs) STATIC_FILES_ROOT) then
        (Json 404 (js "Root directory not found: " ++ STATIC_FILES_ROOT),
         [EvAccess STATIC_FILES_ROOT])
      else if negb (startsWith (resolve cwd fullPath) (resolve cwd STATIC_FILES_ROOT)) then
        (Json 400 (js "Invalid path"), [EvAccess STATIC_FILES_ROOT])
      else
        match stat (base fs) fullPath with
        | None =>
            (Json 404 (js "File not found"), [EvAccess STATIC_FILES_ROOT; EvStat fullPath])
        | Some stats =>
            if isDirectory stats then
              (Json 400 (js "Cannot download directory"),
               [EvAccess STATIC_FILES_ROOT; EvStat fullPath])
            else
              match readFile fs fullPath with
              | None =>
                  (Json 404 (js "File not found"),
                   [EvAccess STATIC_FILES_ROOT; EvStat fullPath; EvReadFile fullPath])
              | Some fileBuffer =>
                  let fileName := basename1 fullPath in
                  (Attachment fileBuffer (contentTypeOf fileName) fileName (st_size stats),
                   [EvAccess STATIC_FILES_ROOT; EvStat fullPath; EvReadFile fullPath])
              end
        end
  end.

End Handler.

End Download.

(** ** The tag suggestion route *)

Module Tags.
Import JS Path Listing.

(** The outcome of the call to the language model with the prompt built
    from a file: refused with an HTTP status, or answered, with the
    text of the first candidate when there is one. *)
Inductive Answer :=
| Refused (status : Z)
| Answered (text : option jsstring).

Inductive Event :=
| EvAccess (p : jsstring)
| EvReadFile (p : jsstring)
| EvAsk (content : list N).

(** The error replies, by message: path missing (400), path refused
    (400), file not found (404), service error (the status of the
    model's reply), and the reply of the outermost [catch] (500). *)
Inductive Failure :=
| PathRequired
| InvalidPath
| NotFound
| ServiceError (status : Z)
| Internal.

Inductive Response :=
| Failed (e : Failure)
| Suggested (tags : list jsstring).

Definition statusOf (r : Response) : Z :=
  match r with
  | Failed PathRequired | Failed InvalidPath => 400
  | Failed NotFound => 404
  | Failed (ServiceError st) => st
  | Failed Internal => 500
  | Suggested _ => 200
  end.

Definition getStaticFilesRoot (envRoot : option jsstring) : jsstring :=
  orDefault envRoot (js "/app/public/files").

(** The tags read off the answer: the pieces between commas, trimmed,
    the empty ones dropped. *)
Definition parseTags (tagsText : jsstring) : list jsstring :=
  filter (λ tag, tag ≠ []) (map trim (split COMMA tagsText)).

Section Handler.
Variable STATIC_FILES_ROOT : jsstring.
Variable cwd : jsstring.
Variable access : jsstring → bool.
Variable readFile : jsstring → option (list N).
Variable ask : list N → option Answer.

(** [filePath] is the string found in the request body, if any; [ask]
    is [None] when the call to the model or the decoding of its reply
    throws. *)
Definition POST (filePath : option jsstring) : Response * list Event :=
  match filePath with
  | None | Some [] => (Failed PathRequired, [])
  | Some filePath =>
      let safePath := stripDotDots (normalize filePath) in
      let fullPath := join2 STATIC_FILES_ROOT safePath in
      if negb (startsWith (resolve cwd fullPath) (resolve cwd STATIC_FILES_ROOT)) then
        (Failed InvalidPath, [])
      else if negb (access fullPath) then (Failed NotFound, [EvAccess fullPath])
      else
        match readFile fullPath with
        | None => (Failed Internal, [EvAccess fullPath; EvReadFile fullPath])
        | Some fileContent =>
            let evs := [EvAccess fullPath; EvReadFile fullPath; EvAsk fileContent] in
            match ask fileContent with
            | None => (Failed Internal, evs)
            | Some (Refused st) => (Failed (ServiceError st), evs)
            | Some (Answered text) => (Suggested (parseTags (default [] text)), evs)
            end
        end
  end.

End Handler.

End Tags.

(** ** The demo files of the listing route *)

Module DemoFiles.
Import JS Path FS.

(** A literal in which the apostrophe stands for the double quote. *)
Definition dq (s : string) : list N :=
  map (λ c, if (c =? 39)%N then 34%N else c) (js s).

Definition publicDir : jsstring := js "./public".
Definition demoDir : jsstring := join2 publicDir (js "demo").
Definition imagesDir : jsstring := join2 demoDir (js "images").
Definition docsDir : jsstring := join2 demoDir (js "documents").

(** The four files, with the bytes written for them: the UTF-8
    encoding of the text of the source, and for [sample.json] the
    output of [JSON.stringify] with an indentation of two. *)
Definition demoFiles : list (jsstring * list N) :=
  [ (join2 demoDir (js "readme.txt"),
     js "이것은 nginx 파일 브라우저 데모입니다.

파일 탐색, 다운로드, 검색 기능을 테스트해보세요!");
    (join2 demoDir (js "sample.json"),
     dq "{
  'name': 'Sample JSON File',
  'description': 'This is a sample JSON file for testing',
  'version': '1.0.0',
  'features': [
    'file browsing',
    'download',
    'search'
  ]
}");
    (join2 docsDir (js "guide.md"),
     js "# 파일 브라우저 가이드

## 기능
- 파일 및 폴더 탐색
- 파일 다운로드
- 검색 기능
- 페이지네이션 / 무한스크롤

## 사용법
1. 폴더를 클릭하여 탐색
2. 파일을 다운로드하거나 링크 복사
3. 검색창에서 파일 검색
");
    (join2 docsDir (js "config.xml"),
     dq "<?xml version='1.0' encoding='UTF-8'?>
<configuration>
  <server>
    <name>nginx-file-browser</name>
    <version>1.0</version>
  </server>
  <features>
    <feature name='download' enabled='true'/>
    <feature name='search' enabled='true'/>
  </features>
</configuration>") ].

Section Run.
Variable cwd : jsstring.

(** The loop over the demo files: a file that can be accessed is left
    alone, a missing one is written; a failing write ends the loop in
    the [catch] of the function. *)
Fixpoint writeMissing (t : tree) (files : list (jsstring * list N)) : tree :=
  match files with
  | [] => t
  | (p, content) :: rest =>
      if accessNode t (key cwd p) then writeMissing t rest
      else match writeFile t (key cwd p) content with
           | Some t' => writeMissing t' rest
           | None => t
           end
  end.

(** [ensureDemoFiles]: the tree it leaves behind.  A failing [mkdir]
    ends the function in its [catch]; on a well-formed tree it has
    created nothing by then. *)
Definition ensureDemoFiles (t : tree) : tree :=
  match mkdirRecursive t (key cwd demoDir) with
  | None => t
  | Some t1 =>
      match mkdirRecursive t1 (key cwd imagesDir) with
      | None => t1
      | Some t2 =>
          match mkdirRecursive t2 (key cwd docsDir) with
          | None => t2
          | Some t3 => writeMissing t3 demoFiles
          end
      end
  end.

End Run.

End DemoFiles.

(** ** Signing in: the middleware and the two authentication routes *)

Module Auth.
Import JS.

(** The cookies of a browser, by name. *)
Abbreviation jar := (gmap (list N) (list N)).

Definition AUTH_TOKEN : jsstring := js "auth_token".

Inductive Verdict := Next | Redirect (target : jsstring).

Definition middleware (pathname : jsstring) (cookies : jar) : Verdict :=
  let isAuthenticated := bool_decide (is_Some (cookies !! AUTH_TOKEN)) in
  if startsWith pathname (js "/login") then Next
  else if negb isAuthenticated then Redirect (js "/login")
  else Next.

(** The login route: the status of the reply and the cookies of the
    browser afterwards.  A field of the body that is missing or not a
    string is [None]. *)
Definition login (username password : option jsstring) (cookies : jar) : Z * jar :=
  if bool_decide (username = Some (js "admin"))
     && bool_decide (password = Some (js "password"))
  then (200, <[AUTH_TOKEN := js "dummy_auth_token"]> cookies)
  else (401, cookies).

Definition logout (cookies : jar) : Z * jar := (200, delete AUTH_TOKEN cookies).

(** What a browser does between two page requests. *)
Inductive Action :=
| Login (username password : option jsstring)
| Logout.

Definition act (cookies : jar) (a : Action) : jar :=
  match a with
  | Login u p => (login u p cookies).2
  | Logout => (logout cookies).2
  end.

End Auth.

(** ** The order of a listing, and a concrete runtime for the examples *)

Module Order.
Import JS Listing.

(** Directories first, then by name. *)
Definition listedBefore {L : Locale} (a b : FileItem) : Prop :=
  match type a, type b with
  | directory, file => True
  | file, directory => False
  | _, _ => localeCompare (name a) (name b) <= 0
  end.

(** Does the entry take part in the listing for [search]?  It must not
    be hidden, and its name must contain [search] up to case. *)
Definition visible {L : Locale} (search : jsstring) (e : Dirent) : Prop :=
  startsWith (d_name e) [DOT] = false ∧
  (search = [] ∨ includes (toLowerCase (d_name e)) (toLowerCase search) = true).

#[export] Instance visible_dec {L : Locale} search e : Decision (visible search e).
Proof. unfold visible. apply _. Defined.

(** The entries a listing of [fullPath] reports: the visible ones whose
    [stat] succeeds. *)
Definition kept {L : Locale} (fs : ReadFS) (fullPath search : jsstring) (e : Dirent)
  : Prop :=
  is_Some (stat fs (Path.join2 fullPath (d_name e))) ∧ visible search e.

#[export] Instance kept_dec {L : Locale} fs fullPath search e :
  Decision (kept fs fullPath search e).
Proof. unfold kept. apply _. Defined.

(** The request gets as far as reading the directory, which holds
    [entries]. *)
Definition lists (root cwd : jsstring) (fs : ReadFS) (requestedPath : jsstring)
    (entries : list Dirent) : Prop :=
  let fullPath := Path.join2 root (stripDotDots (Path.normalize requestedPath)) in
  access fs root = true ∧
  startsWith (Path.resolve cwd fullPath) (Path.resolve cwd root) = true ∧
  (∃ st, stat fs fullPath = Some st ∧ isDirectory st = true) ∧
  readdir fs fullPath = Some entries.

Definition typeOf (e : Dirent) : FileType :=
  match d_kind e with KDirectory => directory | _ => file end.

End Order.

(** The record the listing builds for an entry that passes its
    filters, given the result of [stat]. *)
Module Item.
Import JS Path Listing.

Definition itemOf (safePath : jsstring) (entry : Dirent) (stats : Stats) : FileItem :=
  let relativePath := backslashesToSlashes (join2 safePath (d_name entry)) in
  {| name := d_name entry;
     type := Order.typeOf entry;
     size := st_size stats;
     lastModified := mtime stats;
     path := if startsWith relativePath [SLASH] then relativePath
             else SLASH :: relativePath;
     extension := match d_kind entry with
                  | KFile => Some (slice1 (extname (d_name entry)))
                  | _ => None
                  end |}.

End Item.

Module Demo.
Import JS Listing.

(** Code units compared one by one; the shorter of two strings that
    agree comes first. *)
Fixpoint unitsLe (a b : jsstring) : bool :=
  match a, b with
  | [], _ => true
  | _ :: _, [] => false
  | x :: a', y :: b' => (x <? y)%N || ((x =? y)%N && unitsLe a' b')
  end.

(** ASCII case folding and code-unit order. *)
#[export] Instance asciiLocale : Locale := {|
  toLowerCase s := map (λ c, if (65 <=? c)%N && (c <=? 90)%N then (c + 32)%N else c) s;
  localeCompare a b := if unitsLe a b then (if unitsLe b a then 0 else -1) else 1
|}.

Definition dirent (n : string) (k : DirentKind) : Dirent :=
  {| d_name := js n; d_kind := k |}.

(** The sandbox [/data] holding [docs/], [a.txt], [b.txt], a hidden file
    and a dangling link [ghost]. *)
Definition dataDir : list Dirent :=
  [dirent "b.txt" KFile; dirent "ghost" KOther; dirent "a.txt" KFile;
   dirent ".hidden" KFile; dirent "docs" KDirectory].

Definition dataFS : ReadFS := {|
  access p := bool_decide (p ≠ js "/data/ghost");
  stat p :=
    if bool_decide (p = js "/data/ghost") then None
    else Some {| isDirectory := bool_decide (p ∈ [js "/data"; js "/data/"; js "/data/docs"]);
                 st_size := 3; mtime := js "2025-06-27T00:00:00.000Z" |};
  readdir p :=
    if bool_decide (p ∈ [js "/data"; js "/data/"]) then Some dataDir else None
|}.

(** A directory of [n] regular files named [0], [1], ... *)
Definition manyFS (n : nat) : ReadFS := {|
  access p := true;
  stat p := Some {| isDirectory := bool_decide (p ∈ [js "/data"; js "/data/"]);
                    st_size := 1; mtime := js "2025-06-27T00:00:00.000Z" |};
  readdir p := Some (map (λ i, {| d_name := numberToString i; d_kind := KFile |}) (seq 0 n))
|}.

(** A file system in which the sandbox root is missing. *)
Definition emptyFS : ReadFS := {|
  access p := false; stat p := None; readdir p := None
|}.

(** A sandbox [/data] with [a.txt], [fileA], [dirB/fileC], [dirB/fileD],
    [sub/fileA] and [sub/inner/fileE]; next to it, outside,
    [/secret.txt]. *)
Definition dataTree : FS.tree :=
  list_to_map
    [([js "data"], FS.Dir);
     ([js "data"; js "a.txt"], FS.File (js "old"));
     ([js "data"; js "fileA"], FS.File (js "A"));
     ([js "data"; js "dirB"], FS.Dir);
     ([js "data"; js "dirB"; js "fileC"], FS.File (js "C"));
     ([js "data"; js "dirB"; js "fileD"], FS.File (js "D"));
     ([js "data"; js "sub"], FS.Dir);
     ([js "data"; js "sub"; js "fileA"], FS.File (js "subA"));
     ([js "data"; js "sub"; js "inner"], FS.Dir);
     ([js "data"; js "sub"; js "inner"; js "fileE"], FS.File (js "E"));
     ([js "secret.txt"], FS.File (js "key"))].

(** What [stat] reports in [dataFS] for a file and for a directory. *)
Definition fileStats : Stats :=
  {| isDirectory := false; st_size := 3; mtime := js "2025-06-27T00:00:00.000Z" |}.

Definition dirStats : Stats :=
  {| isDirectory := true; st_size := 3; mtime := js "2025-06-27T00:00:00.000Z" |}.

(** A file system that answers by the place a path resolves to: the
    sandbox [/data] holding the single file [a.txt], which is not found
    when asked for with a separator at the end. *)
Definition keyedFS : ReadFS := {|
  access p := true;
  stat p :=
    let k := Path.key (js "/") p in
    if bool_decide (k = [js "data"]) then
      Some {| isDirectory := true; st_size := 0; mtime := js "2025-06-27T00:00:00.000Z" |}
    else if bool_decide (k = [js "data"; js "a.txt"]) && negb (Path.endsWithSlash p) then
      Some {| isDirectory := false; st_size := 3; mtime := js "2025-06-27T00:00:00.000Z" |}
    else None;
  readdir p :=
    if bool_decide (Path.key (js "/") p = [js "data"]) then Some [dirent "a.txt" KFile]
    else None
|}.

Definition keyedFiles : Download.FileFS := {|
  Download.base := keyedFS;
  Download.readFile p :=
    if bool_decide (Path.key (js "/") p = [js "data"; js "a.txt"])
       && negb (Path.endsWithSlash p)
    then Some (js "abc")
    else None
|}.

Definition payload (n content : string) : Upload.UploadFile :=
  {| Upload.f_name := js n; Upload.f_content := js content |}.

Definition query (p pg lim : string) : Query :=
  {| q_path := Some (js p); q_page := Some (js pg); q_limit := Some (js lim);
     q_search := None |}.

End Demo.

(* ===================================================================== *)
(** * Part II: facts about the model                                      *)
(* ===================================================================== *)

(** ** Arrays: slices and pages *)

Section Slices.
Context {A : Type}.
Implicit Types (xs : list A) (a b n : nat).

Lemma slice_nat xs (start stop : Z) :
  0 <= start → start <= stop →
  JS.slice xs start stop = take (Z.to_nat (stop - start)) (drop (Z.to_nat start) xs).
Proof.
  intros Hs Hle. unfold JS.slice, JS.relIndex.
  destruct (Z.ltb_spec start 0) as [?|_]; [lia|].
  destruct (Z.ltb_spec stop 0) as [?|_]; [lia|].
  destruct (Z_le_gt_dec (Z.of_nat (length xs)) start) as [Hbig|Hsmall].
  - rewrite (drop_ge xs (Z.to_nat start)) by lia.
    rewrite (drop_ge xs) by lia. by rewrite !take_nil.
  - assert (start `min` Z.of_nat (length xs) = start) as -> by lia.
    destruct (Z_le_gt_dec stop (Z.of_nat (length xs))) as [?|?].
    + by assert (stop `min` Z.of_nat (length xs) = stop) as -> by lia.
    + assert (stop `min` Z.of_nat (length xs) = Z.of_nat (length xs)) as -> by lia.
      rewrite !take_ge; [done| |]; rewrite length_drop; lia.
Qed.

Lemma take_add_drop xs a b :
  take (a + b) xs = take a xs ++ take b (drop a xs).
Proof.
  revert xs. induction a as [|a IH]; intros [|x xs]; simpl; try done.
  - by rewrite take_nil.
  - by rewrite IH.
Qed.

(** Consecutive windows of width [w] tile the prefix they cover. *)
Lemma windows_tile xs w n :
  concat (map (λ i, take w (drop (i * w) xs)) (seq 0 n)) = take (n * w) xs.
Proof.
  induction n as [|n IH]; [done|].
  rewrite seq_S, map_app, concat_app, IH. simpl. rewrite app_nil_r.
  replace (w + n * w)%nat with (n * w + w)%nat by lia.
  by rewrite take_add_drop.
Qed.

End Slices.

(** ** The listing route: sorting and the loop over the entries *)

Section ListingFacts.
Import JS Path Listing Order.
Context {L : Locale}.

Lemma compareItems_listedBefore a b : compareItems a b <= 0 ↔ listedBefore a b.
Proof.
  unfold compareItems, listedBefore. by destruct (type a), (type b).
Qed.

Lemma insertSorted_perm x l : insertSorted x l ≡ₚ x :: l.
Proof.
  induction l as [|y l IH]; simpl; [done|].
  destruct (compareItems x y <=? 0); [done|].
  rewrite IH. apply Permutation_swap.
Qed.

Lemma sort_perm l : sort l ≡ₚ l.
Proof.
  induction l as [|x l IH]; simpl; [done|].
  unfold sort in IH. by rewrite insertSorted_perm, IH.
Qed.

Lemma sort_length l : length (sort l) = length l.
Proof. by rewrite sort_perm. Qed.

Section Ordered.
Context {LO : LocaleOrder L}.

Lemma listedBefore_total a b : listedBefore a b ∨ listedBefore b a.
Proof.
  unfold listedBefore. destruct (type a), (type b); auto;
    apply localeCompare_total.
Qed.

Lemma listedBefore_trans a b c :
  listedBefore a b → listedBefore b c → listedBefore a c.
Proof.
  unfold listedBefore. destruct (type a), (type b), (type c); try done;
    apply localeCompare_trans.
Qed.

Lemma insertSorted_sorted x l :
  StronglySorted listedBefore l → StronglySorted listedBefore (insertSorted x l).
Proof.
  induction 1 as [|y l Hl IH Hy]; simpl.
  - repeat constructor.
  - destruct (Z.leb_spec (compareItems x y) 0) as [Hle|Hgt].
    + apply compareItems_listedBefore in Hle.
      constructor; [by constructor|].
      constructor; [done|].
      eapply Forall_impl; [exact Hy|]. intros z Hz.
      by eapply listedBefore_trans.
    + constructor; [done|].
      rewrite insertSorted_perm. constructor; [|done].
      destruct (listedBefore_total x y) as [Hxy|Hyx]; [|done].
      apply compareItems_listedBefore in Hxy. lia.
Qed.

Lemma sort_sorted l : StronglySorted listedBefore (sort l).
Proof.
  induction l as [|x l IH]; simpl; [constructor|].
  by apply insertSorted_sorted.
Qed.
End Ordered.

Variable fs : ReadFS.

Lemma visitEntries_flat fullPath safePath search entries :
  visitEntries fs fullPath safePath search entries =
    (flat_map (λ e, (visitEntry fs fullPath safePath search e).1) entries,
     flat_map (λ e, (visitEntry fs fullPath safePath search e).2) entries).
Proof.
  unfold visitEntries.
  assert (∀ acc : list FileItem * list Event,
    foldl (λ acc entry,
             let r := visitEntry fs fullPath safePath search entry in
             (acc.1 ++ r.1, acc.2 ++ r.2)) acc entries =
    (acc.1 ++ flat_map (λ e, (visitEntry fs fullPath safePath search e).1) entries,
     acc.2 ++ flat_map (λ e, (visitEntry fs fullPath safePath search e).2) entries))
    as Hgen; [|apply Hgen].
  induction entries as [|e es IH]; intros [xs ys]; simpl.
  - by rewrite !app_nil_r.
  - rewrite IH. simpl. by rewrite <- !app_assoc.
Qed.

Lemma visitEntry_items fullPath safePath search e :
  map (λ i, (name i, type i)) (visitEntry fs fullPath safePath search e).1 =
    if decide (kept fs fullPath search e) then [(d_name e, typeOf e)] else [].
Proof.
  destruct (decide (kept fs fullPath search e)) as [Hk|Hk];
    unfold kept, visible in Hk; unfold visitEntry, matchesSearch, typeOf.
  - destruct Hk as ([st Hst] & Hdot & Hs). rewrite Hst, Hdot.
    destruct search as [|c search]; [done|].
    destruct Hs as [?|Hinc]; [done|]. by rewrite Hinc.
  - destruct (stat fs (join2 fullPath (d_name e))) as [st|]; [|done].
    destruct search as [|c search]; simpl.
    + destruct (startsWith (d_name e) [DOT]) eqn:Hdot; [done|].
      destruct Hk. split; [by eexists|]. split; [done|by left].
    + destruct (includes (toLowerCase (d_name e)) (toLowerCase (c :: search)))
        eqn:Hinc; [|done]. simpl.
      destruct (startsWith (d_name e) [DOT]) eqn:Hdot; [done|].
      destruct Hk. split; [by eexists|]. split; [done|by right].
Qed.

Lemma visitEntries_items fullPath safePath search entries :
  map (λ i, (name i, type i)) (visitEntries fs fullPath safePath search entries).1 =
    map (λ e, (d_name e, typeOf e)) (filter (kept fs fullPath search) entries).
Proof.
  rewrite visitEntries_flat. simpl.
  induction entries as [|e es IH]; [done|]. simpl.
  rewrite map_app, visitEntry_items, IH, filter_cons.
  by destruct (decide (kept fs fullPath search e)).
Qed.

(** A failed [stat] leaves a warning and nothing else. *)
Lemma visitEntry_failed fullPath safePath search e :
  stat fs (join2 fullPath (d_name e)) = None →
  visitEntry fs fullPath safePath search e =
    ([], [EvStat (join2 fullPath (d_name e));
          EvWarn (js "Failed to stat " ++ join2 fullPath (d_name e) ++ js ":")]).
Proof. intros H. unfold visitEntry. by rewrite H. Qed.

End ListingFacts.

(** ** The listing route: shape of the reply *)

Section ListingReply.
Import JS Path Listing Order.
Context {L : Locale}.
Variables (root cwd : jsstring) (fs : ReadFS).

Lemma handle_lists requestedPath pg lim search entries :
  lists root cwd fs requestedPath entries →
  let safePath := stripDotDots (normalize requestedPath) in
  let fullPath := join2 root safePath in
  let r := visitEntries fs fullPath safePath search entries in
  handle root cwd fs requestedPath pg lim search =
    ({| status := 200; body := paginate (sort r.1) pg lim |},
     [EvAccess root; EvStat fullPath; EvReaddir fullPath] ++ r.2).
Proof.
  intros (Hacc & Hin & (st & Hst & Hdir) & Hrd). simpl.
  unfold handle. by rewrite Hacc, Hin, Hst, Hdir, Hrd.
Qed.

Lemma handle_200 requestedPath pg lim search :
  status (handle root cwd fs requestedPath pg lim search).1 = 200 →
  ∃ entries, lists root cwd fs requestedPath entries.
Proof.
  unfold handle, lists.
  destruct (access fs root); [|done]. simpl.
  destruct (startsWith _ _); [|done]. simpl.
  destruct (stat fs _) as [st|]; [|done].
  destruct (isDirectory st) eqn:Hdir; [|done]. simpl.
  destruct (readdir fs _) as [entries|]; [|done].
  intros _. exists entries. eauto 10.
Qed.

(** Whether a request succeeds does not depend on the page asked for. *)
Lemma handle_status_page requestedPath pg pg' lim search :
  status (handle root cwd fs requestedPath pg lim search).1 =
  status (handle root cwd fs requestedPath pg' lim search).1.
Proof.
  unfold handle.
  destruct (access fs root); [|done]. simpl.
  destruct (startsWith _ _); [|done]. simpl.
  destruct (stat fs _) as [st|]; [|done].
  destruct (isDirectory st); [|done]. simpl.
  by destruct (readdir fs _).
Qed.

Lemma paginate_files (all : list FileItem) pg lim :
  1 <= pg → 1 <= lim →
  files (paginate all pg lim) =
    take (Z.to_nat lim) (drop (Z.to_nat (pg - 1) * Z.to_nat lim) all).
Proof.
  intros Hpg Hlim. unfold paginate. simpl.
  rewrite slice_nat by nia.
  f_equal; [f_equal; lia|f_equal; nia].
Qed.

Lemma safeLimit_range limit : 1 <= safeLimit limit <= 100.
Proof.
  unfold safeLimit. destruct limit as [l|]; [|lia].
  destruct (Z.ltb_spec l 1); lia.
Qed.

Lemma safePage_range page : 1 <= safePage page.
Proof.
  unfold safePage. destruct page as [p|]; [|lia].
  destruct (Z.ltb_spec p 1); lia.
Qed.

End ListingReply.

(** ** The example runtime orders names totally *)

Section DemoLocale.
Import JS Demo.

Lemma unitsLe_total a b : unitsLe a b = true ∨ unitsLe b a = true.
Proof.
  revert b. induction a as [|x a IH]; intros [|y b]; simpl; auto.
  destruct (N.lt_total x y) as [Hlt|[->|Hgt]].
  - left. apply orb_true_iff. left. by apply N.ltb_lt.
  - rewrite N.ltb_irrefl, N.eqb_refl. simpl. apply IH.
  - right. apply orb_true_iff. left. by apply N.ltb_lt.
Qed.

Lemma unitsLe_trans a b c :
  unitsLe a b = true → unitsLe b c = true → unitsLe a c = true.
Proof.
  revert b c. induction a as [|x a IH]; intros [|y b] [|z c]; simpl; try done.
  rewrite !orb_true_iff, !andb_true_iff, !N.ltb_lt, !N.eqb_eq.
  intros [Hxy|[-> Hab]] [Hyz|[-> Hbc]]; eauto with lia.
Qed.

#[export] Instance asciiLocaleOrder : LocaleOrder asciiLocale.
Proof.
  split; simpl.
  - intros a b. destruct (unitsLe_total a b) as [H|H]; rewrite H.
    + left. destruct (unitsLe b a); lia.
    + right. destruct (unitsLe a b); lia.
  - intros a b c.
    destruct (unitsLe a b) eqn:Hab; [|lia].
    destruct (unitsLe b c) eqn:Hbc; [|lia].
    rewrite (unitsLe_trans a b c Hab Hbc). intros _ _. destruct (unitsLe c a); lia.
Qed.

End DemoLocale.

(** ** Strings: prefixes, splitting and joining *)

Section StringFacts.
Import JS.
Implicit Types (s p a b seg : jsstring) (segs : list jsstring) (sep c : N).

Lemma startsWith_prefix s p : startsWith s p = true ↔ p `prefix_of` s.
Proof.
  revert s. induction p as [|b p IH]; intros [|a s]; simpl.
  - split; [intros _; apply prefix_nil|done].
  - split; [intros _; apply prefix_nil|done].
  - split; [done|]. intros [k Hk]. done.
  - rewrite andb_true_iff, N.eqb_eq, IH. split.
    + intros [-> Hp]. by apply prefix_cons.
    + intros [k Hk]. simplify_eq/=. split; [done|]. by exists k.
Qed.

Lemma startsWith_app s p : startsWith (p ++ s) p = true.
Proof. apply startsWith_prefix. by exists s. Qed.

Lemma startsWith_length s p : startsWith s p = true → (length p <= length s)%nat.
Proof. intros H%startsWith_prefix. by apply prefix_length. Qed.

Lemma includes_here s p : startsWith s p = true → includes s p = true.
Proof. intros H. destruct s; simpl in *; by rewrite H. Qed.

Lemma includes_app a p b : includes (a ++ p ++ b) p = true.
Proof.
  induction a as [|c a IH].
  - rewrite app_nil_l. apply includes_here, startsWith_app.
  - simpl. rewrite IH. apply orb_true_r.
Qed.

Lemma includes_suffix a p : includes (a ++ p) p = true.
Proof. pose proof (includes_app a p []) as H. by rewrite app_nil_r in H. Qed.

Lemma split_nonempty sep s : split sep s ≠ [].
Proof.
  destruct s as [|c s]; simpl; [done|].
  destruct (c =? sep)%N; [done|]. by destruct (split sep s).
Qed.

Lemma split_cons_sep sep s : split sep (sep :: s) = [] :: split sep s.
Proof. simpl. by rewrite N.eqb_refl. Qed.

Lemma split_cons_other sep c s :
  c ≠ sep →
  split sep (c :: s) = (c :: default [] (head (split sep s))) :: tail (split sep s).
Proof.
  intros Hc. simpl. apply N.eqb_neq in Hc. rewrite Hc.
  pose proof (split_nonempty sep s). by destruct (split sep s).
Qed.

Lemma split_app sep a b :
  split sep (a ++ sep :: b) = split sep a ++ split sep b.
Proof.
  induction a as [|c a IH].
  - apply split_cons_sep.
  - simpl. destruct (c =? sep)%N; [by rewrite IH|].
    rewrite IH. pose proof (split_nonempty sep a).
    by destruct (split sep a).
Qed.

Lemma split_snoc_sep sep a : split sep (a ++ [sep]) = split sep a ++ [[]].
Proof. apply split_app. Qed.

Lemma split_no_sep sep s : sep ∉ s → split sep s = [s].
Proof.
  induction s as [|c s IH]; [done|]. intros Hs.
  rewrite split_cons_other by (intros ->; apply Hs; left).
  rewrite IH; [done|]. intros ?. apply Hs. by right.
Qed.

Lemma split_segments sep s seg : seg ∈ split sep s → sep ∉ seg.
Proof.
  revert seg. induction s as [|c s IH]; intros seg; simpl.
  - intros ->%list_elem_of_singleton. apply not_elem_of_nil.
  - destruct (N.eqb_spec c sep) as [->|Hc].
    + intros [->|?]%elem_of_cons; [apply not_elem_of_nil|by apply IH].
    + pose proof (split_nonempty sep s).
      destruct (split sep s) as [|hd tl]; [done|].
      intros [->|?]%elem_of_cons.
      * intros [?|?]%elem_of_cons; [done|].
        by apply (IH hd); [left|].
      * apply IH. by right.
Qed.

Lemma join_cons (d : jsstring) seg segs :
  segs ≠ [] → join d (seg :: segs) = seg ++ d ++ join d segs.
Proof. by destruct segs. Qed.

Lemma join_split sep s : join [sep] (split sep s) = s.
Proof.
  induction s as [|c s IH]; [done|]. simpl.
  pose proof (split_nonempty sep s) as Hne.
  destruct (N.eqb_spec c sep) as [->|Hc].
  - rewrite join_cons by done. simpl. by rewrite IH.
  - destruct (split sep s) as [|hd tl]; [done|].
    destruct tl as [|hd' tl]; simpl in *; by rewrite <- IH.
Qed.

Lemma split_join sep segs :
  segs ≠ [] → (∀ seg, seg ∈ segs → sep ∉ seg) →
  split sep (join [sep] segs) = segs.
Proof.
  induction segs as [|seg segs IH]; [done|]. intros _ Hsegs.
  destruct segs as [|seg' segs].
  - simpl. apply split_no_sep, Hsegs. by left.
  - rewrite join_cons by done. simpl app.
    rewrite split_app, split_no_sep by (apply Hsegs; by left).
    simpl. f_equal. apply IH; [done|]. intros ? ?. apply Hsegs. by right.
Qed.

Lemma join_snoc d segs seg :
  segs ≠ [] → join d (segs ++ [seg]) = join d segs ++ d ++ seg.
Proof.
  induction segs as [|x segs IH]; [done|]. intros _.
  destruct segs as [|y segs]; [done|].
  change ((x :: y :: segs) ++ [seg]) with (x :: ((y :: segs) ++ [seg])).
  rewrite join_cons by (by destruct segs).
  rewrite IH by done. rewrite (join_cons d x (y :: segs)) by done.
  by rewrite <- !app_assoc.
Qed.

Lemma join_app_prefix (d : jsstring) segs more :
  join d segs `prefix_of` join d (segs ++ more).
Proof.
  induction more as [|seg more IH] using rev_ind.
  - by rewrite app_nil_r.
  - rewrite app_assoc. destruct (decide (segs ++ more = [])) as [E|E].
    + apply app_eq_nil in E as [-> ->]. apply prefix_nil.
    + rewrite join_snoc by done. etrans; [exact IH|]. by eexists.
Qed.

Lemma join_snoc_longer (d : jsstring) segs seg :
  seg ≠ [] → (length (join d segs) < length (join d (segs ++ [seg])))%nat.
Proof.
  intros Hseg. destruct (decide (segs = [])) as [->|Hne].
  - simpl. destruct seg; [done|simpl; lia].
  - rewrite join_snoc by done. rewrite !length_app. destruct seg; [done|simpl; lia].
Qed.

End StringFacts.

(** ** Normalization of paths *)

Section NormFacts.
Import JS Path.
Implicit Types (st res xs segs : list jsstring) (seg p t : jsstring) (b : bool).

Lemma normStep_empty b res : normStep b res [] = res.
Proof. done. Qed.

Lemma normStep_dot b res : normStep b res [DOT] = res.
Proof. done. Qed.

Lemma normStep_regular b res seg : regular seg → normStep b res seg = seg :: res.
Proof.
  intros (H0 & H1 & H2). unfold normStep, isDot, isDotDot.
  by rewrite !bool_decide_eq_false_2.
Qed.

Lemma normStep_cases b res seg :
  seg = [] ∨ seg = [DOT] ∨ seg = [DOT; DOT] ∨ regular seg.
Proof.
  unfold regular.
  destruct (decide (seg = [])); [by left|].
  destruct (decide (seg = [DOT])); [by right; left|].
  destruct (decide (seg = [DOT; DOT])); [by right; right; left|].
  by right; right; right.
Qed.

Lemma normStep_pop res top :
  top ≠ [DOT; DOT] → normStep false (top :: res) [DOT; DOT] = res.
Proof.
  intros H. unfold normStep, isDot, isDotDot. simpl.
  by rewrite (bool_decide_eq_false_2 (top = _)).
Qed.

Lemma regular_not_dotdot seg : regular seg → seg ≠ [DOT; DOT].
Proof. by intros (_ & _ & ?). Qed.

Lemma normStep_false_clean res seg :
  Forall regular res → Forall regular (normStep false res seg).
Proof.
  intros Hres.
  destruct (normStep_cases false res seg) as [->|[->|[->|Hreg]]]; try done.
  - destruct Hres as [|top res Htop Hres]; [done|].
    by rewrite normStep_pop by by apply regular_not_dotdot.
  - rewrite normStep_regular by done. by constructor.
Qed.

Lemma foldl_false_clean st xs :
  Forall regular st → Forall regular (foldl (normStep false) st xs).
Proof.
  revert st. induction xs as [|x xs IH]; intros st Hst; [done|].
  simpl. by apply IH, normStep_false_clean.
Qed.

Lemma stack_clean cwd p : Forall regular (stack cwd p).
Proof. by apply foldl_false_clean. Qed.

(** Pushing the segments of a clean stack rebuilds it. *)
Lemma foldl_push b st S :
  Forall regular S → foldl (normStep b) st (reverse S) = S ++ st.
Proof.
  induction 1 as [|x S Hx HS IH]; [done|].
  rewrite reverse_cons, foldl_app. simpl. rewrite IH.
  by rewrite normStep_regular.
Qed.

Lemma normStep_true_climbing res seg :
  climbing res → climbing (normStep true res seg).
Proof.
  intros (regs & k & -> & Hregs).
  destruct (normStep_cases true (regs ++ replicate k [DOT; DOT]) seg)
    as [->|[->|[->|Hreg]]].
  - by exists regs, k.
  - by exists regs, k.
  - destruct Hregs as [|top regs Htop Hregs].
    + exists [], (S k). split; [|done]. by destruct k.
    + exists regs, k. split; [|done]. simpl.
      unfold normStep, isDot, isDotDot. simpl.
      by rewrite (bool_decide_eq_false_2 (top = _)) by by apply regular_not_dotdot.
  - rewrite normStep_regular by done. exists (seg :: regs), k.
    split; [done|]. by constructor.
Qed.

Lemma foldl_true_climbing res xs :
  climbing res → climbing (foldl (normStep true) res xs).
Proof.
  revert res. induction xs as [|x xs IH]; intros res Hres; [done|].
  simpl. by apply IH, normStep_true_climbing.
Qed.

Lemma climbing_nil : climbing [].
Proof. by exists [], 0%nat. Qed.

(** Normalizing a relative path first changes nothing for what it
    resolves to. *)
Lemma renorm_true st xs :
  Forall regular st →
  foldl (normStep false) st (reverse (foldl (normStep true) [] xs)) =
  foldl (normStep false) st xs.
Proof.
  intros Hst. induction xs as [|x xs IH] using rev_ind; [done|].
  rewrite !foldl_app. simpl.
  pose proof (foldl_true_climbing [] xs climbing_nil) as (regs & k & HA & Hregs).
  set (A := foldl (normStep true) [] xs) in *.
  set (B := foldl (normStep false) st xs) in *.
  destruct (normStep_cases true A x) as [->|[->|[->|Hreg]]].
  - by rewrite !normStep_empty.
  - by rewrite !normStep_dot.
  - destruct Hregs as [|top regs Htop Hregs]; simpl in HA.
    + destruct k as [|k]; simpl in HA; rewrite HA in *.
      * simpl. by rewrite <- IH.
      * change (normStep true ([DOT; DOT] :: replicate k [DOT; DOT]) [DOT; DOT])
          with ([DOT; DOT] :: [DOT; DOT] :: replicate k [DOT; DOT]).
        rewrite reverse_cons, foldl_app. simpl. by rewrite IH.
    + rewrite HA in *.
      assert (normStep true (top :: regs ++ replicate k [DOT; DOT]) [DOT; DOT]
              = regs ++ replicate k [DOT; DOT]) as ->.
      { unfold normStep, isDot, isDotDot. simpl.
        by rewrite (bool_decide_eq_false_2 (top = _))
          by by apply regular_not_dotdot. }
      rewrite <- IH, reverse_cons, foldl_app. simpl.
      rewrite (normStep_regular false _ top) by done.
      by rewrite normStep_pop by by apply regular_not_dotdot.
  - rewrite !normStep_regular by done.
    rewrite reverse_cons, foldl_app. simpl. by rewrite IH, normStep_regular.
Qed.

Lemma renorm_false xs :
  foldl (normStep false) [] (reverse (foldl (normStep false) [] xs)) =
  foldl (normStep false) [] xs.
Proof.
  rewrite foldl_push by by apply foldl_false_clean. apply app_nil_r.
Qed.

(** What a fold keeps comes from the stack or from the input. *)
Lemma foldl_norm_elem b st xs seg :
  seg ∈ foldl (normStep b) st xs → seg ∈ st ∨ seg ∈ xs.
Proof.
  revert st. induction xs as [|x xs IH]; intros st; [by left|].
  simpl. intros [Hin|Hin]%IH; [|right; by right].
  unfold normStep in Hin.
  destruct (_ || _); [by left|].
  destruct (isDotDot x).
  - destruct st as [|top rest].
    + destruct b; [|by left]. right.
      apply elem_of_cons in Hin as [->|Hin]; [by left|by apply elem_of_nil in Hin].
    + destruct (isDotDot top); [destruct b|].
      * apply elem_of_cons in Hin as [->|?]; [right; by left|by left].
      * by left.
      * left. by right.
  - apply elem_of_cons in Hin as [->|?]; [right; by left|by left].
Qed.

(** Without [..] in the input nothing is popped. *)
Lemma foldl_descends st xs :
  [DOT; DOT] ∉ xs →
  ∃ ys, foldl (normStep false) st xs = ys ++ st ∧ Forall regular ys.
Proof.
  revert st. induction xs as [|x xs IH]; intros st Hxs; [by exists []|].
  simpl. assert ([DOT; DOT] ∉ xs) as Hxs' by (intros ?; apply Hxs; by right).
  destruct (normStep_cases false st x) as [->|[->|[->|Hreg]]].
  - by apply IH.
  - by apply IH.
  - destruct Hxs. by left.
  - rewrite normStep_regular by done.
    destruct (IH (x :: st) Hxs') as (ys & -> & Hys).
    exists (ys ++ [x]). rewrite <- app_assoc. split; [done|].
    apply Forall_app. split; [done|]. by constructor.
Qed.

End NormFacts.

(** ** Resolving joined and normalized paths *)

Section ResolveFacts.
Import JS Path.
Implicit Types (st xs segs : list jsstring) (seg p t root cwd : jsstring) (b : bool).

Lemma key_stack cwd p : key cwd p = reverse (stack cwd p).
Proof. done. Qed.

Lemma foldl_norm_nonempty b st xs :
  Forall (λ seg, seg ≠ []) st → Forall (λ seg, seg ≠ []) (foldl (normStep b) st xs).
Proof.
  revert st. induction xs as [|x xs IH]; intros st Hst; [done|].
  simpl. apply IH. unfold normStep.
  destruct (bool_decide (x = [])) eqn:Hx; [done|]. simpl.
  apply bool_decide_eq_false in Hx.
  destruct (isDot x); [done|].
  destruct (isDotDot x).
  - destruct st as [|top rest].
    + destruct b; [|done]. by constructor.
    + destruct (isDotDot top); [destruct b|]; try done.
      * by constructor.
      * by inversion Hst.
  - by constructor.
Qed.

Lemma normSegs_segments b p seg :
  seg ∈ normSegs b (split SLASH p) → seg ≠ [] ∧ SLASH ∉ seg.
Proof.
  unfold normSegs. rewrite elem_of_reverse. intros Hin. split.
  - pose proof (foldl_norm_nonempty b [] (split SLASH p) (Forall_nil_2 _)) as H.
    rewrite Forall_forall in H. by apply H.
  - apply foldl_norm_elem in Hin as [Hin|Hin]; [by apply elem_of_nil in Hin|].
    by eapply split_segments.
Qed.

Lemma split_normSegs b p :
  normSegs b (split SLASH p) ≠ [] →
  split SLASH (join [SLASH] (normSegs b (split SLASH p))) = normSegs b (split SLASH p).
Proof.
  intros Hne. apply split_join; [done|].
  intros seg Hseg. by apply normSegs_segments in Hseg as [_ ?].
Qed.

Lemma join_nil_inv (segs : list jsstring) :
  Forall (λ seg, seg ≠ []) segs → join [SLASH] segs = [] → segs = [].
Proof.
  intros Hsegs. destruct segs as [|x segs]; [done|].
  inversion_clear Hsegs as [|?? Hx _].
  destruct segs; simpl; [done|]. by destruct x.
Qed.

(** The two shapes of a normalized path. *)
Lemma normalize_cases p :
  p ≠ [] →
  let segs := normSegs (negb (isAbsolute p)) (split SLASH p) in
  (segs = [] ∧
   normalize p = if isAbsolute p then [SLASH]
                 else if endsWithSlash p then [DOT; SLASH] else [DOT])
  ∨ (segs ≠ [] ∧
     normalize p = (if isAbsolute p then [SLASH] else []) ++ join [SLASH] segs
                     ++ (if endsWithSlash p then [SLASH] else [])).
Proof.
  intros Hp segs. destruct p as [|c p]; [done|]. clear Hp.
  unfold normalize, normalizeString. fold segs.
  destruct (join [SLASH] segs) as [|d q] eqn:Hq.
  - left. split; [|done]. apply join_nil_inv; [|done].
    apply Forall_forall. intros seg Hseg. by apply normSegs_segments in Hseg as [? _].
  - right. split; [by intros E; rewrite E in Hq|].
    destruct (isAbsolute (c :: p)), (endsWithSlash (c :: p)); simpl;
      by rewrite ?app_nil_r.
Qed.

Lemma normalize_nonempty p : normalize p ≠ [].
Proof.
  destruct (decide (p = [])) as [->|Hp]; [done|].
  destruct (normalize_cases p Hp) as [[_ ->]|[Hne ->]].
  - by destruct (isAbsolute p), (endsWithSlash p).
  - destruct (isAbsolute p); [done|]. simpl.
    intros [E _]%app_eq_nil. apply Hne. apply join_nil_inv; [|done].
    apply Forall_forall. intros seg Hseg. by apply normSegs_segments in Hseg as [? _].
Qed.

Lemma isAbsolute_normalize p : isAbsolute (normalize p) = isAbsolute p.
Proof.
  destruct (decide (p = [])) as [->|Hp]; [done|].
  destruct (normalize_cases p Hp) as [[_ ->]|[Hne ->]].
  - by destruct (isAbsolute p), (endsWithSlash p).
  - destruct (isAbsolute p); [done|]. simpl.
    destruct (normSegs true (split SLASH p)) as [|x segs] eqn:E; [done|].
    assert (x ≠ [] ∧ SLASH ∉ x) as [Hx Hslash].
    { apply (normSegs_segments true p). rewrite E. by left. }
    destruct x as [|c x]; [done|].
    assert (isAbsolute (c :: x) = false) as Hc.
    { simpl. apply N.eqb_neq. intros ->. apply Hslash. by left. }
    destruct segs; simpl in *; by rewrite Hc.
Qed.

(** The segments of the normalized string are the normalized segments,
    up to empty ones. *)
Lemma foldl_split_normalize st p :
  foldl (normStep false) st (split SLASH (normalize p)) =
  foldl (normStep false) st (normSegs (negb (isAbsolute p)) (split SLASH p)).
Proof.
  destruct (decide (p = [])) as [->|Hp]; [done|].
  destruct (normalize_cases p Hp) as [[E ->]|[Hne ->]].
  - rewrite E. by destruct (isAbsolute p), (endsWithSlash p).
  - set (segs := normSegs _ _) in *.
    assert (split SLASH (join [SLASH] segs) = segs) as Hsplit
      by by apply split_normSegs.
    destruct (isAbsolute p), (endsWithSlash p); simpl app.
    + rewrite split_cons_sep, split_snoc_sep, Hsplit. simpl.
      by rewrite foldl_app.
    + rewrite app_nil_r, split_cons_sep, Hsplit. done.
    + rewrite split_snoc_sep, Hsplit. by rewrite foldl_app.
    + by rewrite app_nil_r, Hsplit.
Qed.

Lemma stack_abs cwd p :
  isAbsolute p = true → stack cwd p = foldl (normStep false) [] (split SLASH p).
Proof.
  intros Hp. unfold stack, resolveInput. rewrite Hp.
  by rewrite split_snoc_sep, foldl_app.
Qed.

Lemma stack_rel cwd p :
  isAbsolute p = false →
  stack cwd p =
    foldl (normStep false) (foldl (normStep false) [] (split SLASH cwd)) (split SLASH p).
Proof.
  intros Hp. unfold stack, resolveInput. rewrite Hp.
  destruct p as [|c p].
  - by rewrite split_snoc_sep, foldl_app.
  - simpl app. rewrite split_app, foldl_app.
    change (c :: p ++ [SLASH]) with ((c :: p) ++ [SLASH]).
    by rewrite split_snoc_sep, foldl_app.
Qed.

(** Normalizing does not change what a path resolves to. *)
Lemma stack_normalize cwd p : stack cwd (normalize p) = stack cwd p.
Proof.
  destruct (isAbsolute p) eqn:Hp.
  - rewrite !stack_abs by by rewrite ?isAbsolute_normalize.
    rewrite foldl_split_normalize, Hp. apply renorm_false.
  - rewrite !stack_rel by by rewrite ?isAbsolute_normalize.
    rewrite foldl_split_normalize, Hp. apply renorm_true.
    by apply foldl_false_clean.
Qed.

(** Joining resolves to the first path followed by the segments of the
    second. *)
Lemma stack_join2 cwd root t :
  root ≠ [] →
  stack cwd (join2 root t) = foldl (normStep false) (stack cwd root) (split SLASH t).
Proof.
  intros Hroot. destruct root as [|c root]; [done|].
  destruct t as [|d t]; unfold join2; rewrite stack_normalize; [done|].
  destruct (isAbsolute (c :: root)) eqn:Habs.
  - rewrite !stack_abs by done.
    change ((c :: root) ++ [SLASH] ++ d :: t) with ((c :: root) ++ SLASH :: d :: t).
    by rewrite split_app, foldl_app.
  - rewrite !stack_rel by done.
    change ((c :: root) ++ [SLASH] ++ d :: t) with ((c :: root) ++ SLASH :: d :: t).
    by rewrite split_app, foldl_app.
Qed.

Lemma join2_nonempty a t : join2 a t ≠ [].
Proof.
  destruct a, t; unfold join2; try apply normalize_nonempty. done.
Qed.

(** A child of a directory resolves one segment below it. *)
Lemma key_child cwd p n :
  p ≠ [] → validName n → key cwd (join2 p n) = key cwd p ++ [n].
Proof.
  intros Hp [Hreg Hslash]. rewrite !key_stack, stack_join2 by done.
  rewrite split_no_sep by done. simpl.
  by rewrite normStep_regular, reverse_cons.
Qed.

End ResolveFacts.

(** ** The scrub of the listing route *)

Section ScrubFacts.
Import JS Path Listing.
Implicit Types (s t p : jsstring) (c : N).

Lemma regular_forall_no_dotdot (regs : list jsstring) :
  Forall regular regs → [DOT; DOT] ∉ regs.
Proof.
  intros H Hin. rewrite Forall_forall in H.
  by destruct (H _ Hin) as (_ & _ & ?).
Qed.

Lemma climbsFirst_normalize p : climbsFirst (split SLASH (normalize p)).
Proof.
  destruct (decide (p = [])) as [->|Hp].
  { exists 0%nat, [[DOT]]. split; [done|]. by intros [?|?%elem_of_nil]%elem_of_cons. }
  destruct (normalize_cases p Hp) as [[_ ->]|[Hne ->]].
  { exists 0%nat. eexists. split; [done|].
    destruct (isAbsolute p), (endsWithSlash p); vm_compute;
      intros H; repeat (apply elem_of_cons in H as [H|H]; [discriminate|]);
      by apply elem_of_nil in H. }
  set (segs := normSegs _ _) in *.
  assert (split SLASH (join [SLASH] segs) = segs) as Hsplit by by apply split_normSegs.
  assert ([DOT; DOT] ∉ [[] : jsstring]) as Hempty
    by by intros [?|?%elem_of_nil]%elem_of_cons.
  destruct (isAbsolute p) eqn:Habs.
  - assert ([DOT; DOT] ∉ segs) as Hclean.
    { unfold segs, normSegs. rewrite elem_of_reverse.
      by apply regular_forall_no_dotdot, foldl_false_clean. }
    destruct (endsWithSlash p); simpl app.
    + rewrite split_cons_sep, split_snoc_sep, Hsplit.
      exists 0%nat, ([] :: segs ++ [[]]). split; [done|].
      by intros [?|[?|?]%elem_of_app]%elem_of_cons.
    + rewrite app_nil_r, split_cons_sep, Hsplit.
      exists 0%nat, ([] :: segs). split; [done|].
      by intros [?|?]%elem_of_cons.
  - destruct (foldl_true_climbing [] (split SLASH p) climbing_nil)
      as (regs & k & E & Hregs).
    assert (segs = replicate k [DOT; DOT] ++ reverse regs) as Hsegs.
    { unfold segs, normSegs. simpl. rewrite E.
      by rewrite reverse_app, reverse_replicate. }
    assert ([DOT; DOT] ∉ reverse regs) as Hclean.
    { rewrite elem_of_reverse. by apply regular_forall_no_dotdot. }
    destruct (endsWithSlash p); simpl app.
    + rewrite split_snoc_sep, Hsplit, Hsegs.
      exists k, (reverse regs ++ [[]]). rewrite <- app_assoc. split; [done|].
      by intros [?|?]%elem_of_app.
    + rewrite app_nil_r, Hsplit, Hsegs. by exists k, (reverse regs).
Qed.

(** One round of the scrub. *)
Lemma climbsFirst_strip c (rest : jsstring) :
  c = SLASH ∨ c = BACKSLASH →
  climbsFirst (split SLASH (DOT :: DOT :: c :: rest)) →
  climbsFirst (split SLASH rest).
Proof.
  intros [->| ->] (k & more & E & Hmore).
  - change (DOT :: DOT :: SLASH :: rest) with ([DOT; DOT] ++ SLASH :: rest) in E.
    rewrite split_app in E. simpl in E.
    destruct k as [|k]; simpl in E.
    + destruct Hmore. rewrite <- E. by left.
    + injection E as E. by exists k, more.
  - rewrite !split_cons_other in E by done.
    pose proof (split_nonempty SLASH rest) as Hne.
    destruct (split SLASH rest) as [|hd tl] eqn:Hrest; [done|]. simpl in E.
    destruct k as [|k]; simpl in E; [|by injection E].
    destruct (decide (hd = [DOT; DOT])) as [->|Hhd].
    + exists 1%nat, tl. split; [done|].
      intros Hin. apply Hmore. rewrite <- E. by right.
    + exists 0%nat, (hd :: tl). split; [done|].
      intros [?|Hin]%elem_of_cons; [done|].
      apply Hmore. rewrite <- E. by right.
Qed.

Lemma stripDotDots_unfold s :
  stripDotDots s =
    match s with
    | a :: b :: c :: rest =>
        if (a =? DOT)%N && (b =? DOT)%N && ((c =? SLASH)%N || (c =? BACKSLASH)%N)
        then stripDotDots rest else s
    | _ => s
    end.
Proof. by destruct s as [|a [|b [|c rest]]]. Qed.

(** The scrub keeps the shape and leaves nothing it would remove. *)
Lemma stripDotDots_spec s :
  climbsFirst (split SLASH s) →
  climbsFirst (split SLASH (stripDotDots s)) ∧
  ∀ c rest, stripDotDots s = DOT :: DOT :: c :: rest → c ≠ SLASH ∧ c ≠ BACKSLASH.
Proof.
  remember (length s) as n eqn:Hn. revert s Hn.
  induction (lt_wf n) as [n _ IH]. intros s -> Hs.
  rewrite stripDotDots_unfold.
  destruct s as [|a [|b [|c rest]]]; try (split; [done|]; intros; discriminate).
  destruct (N.eqb_spec a DOT) as [->|Ha]; simpl;
    [|split; [done|]; intros ? ? [=]; done].
  destruct (N.eqb_spec b DOT) as [->|Hb]; simpl;
    [|split; [done|]; intros ? ? [=]; done].
  destruct (N.eqb_spec c SLASH) as [->|Hc]; simpl.
  { apply (IH (length rest)); [simpl; lia|done|].
    eapply climbsFirst_strip; [|exact Hs]. by left. }
  destruct (N.eqb_spec c BACKSLASH) as [->|Hc'].
  { apply (IH (length rest)); [simpl; lia|done|].
    eapply climbsFirst_strip; [|exact Hs]. by right. }
  split; [done|]. by intros ? ? [= <- <-].
Qed.

(** After the scrub, the path is [..] itself or holds no [..] segment. *)
Lemma scrub_safe p :
  let t := stripDotDots (normalize p) in
  t = [DOT; DOT] ∨ [DOT; DOT] ∉ split SLASH t.
Proof.
  intros t.
  destruct (stripDotDots_spec (normalize p) (climbsFirst_normalize p))
    as [(k & rest & E & Hrest) Hfix]. fold t in E, Hfix.
  destruct k as [|k]; [right; by rewrite E|].
  simpl in E. pose proof (join_split SLASH t) as Ht. rewrite E in Ht.
  destruct (replicate k [DOT; DOT] ++ rest) as [|x more]; [left; by rewrite <- Ht|].
  exfalso. rewrite join_cons in Ht by done. simpl in Ht.
  by destruct (Hfix SLASH (join [SLASH] (x :: more))) as [? _].
Qed.

End ScrubFacts.

(** ** The containment test of the listing route *)

Section GuardFacts.
Import JS Path Listing.
Variables (cwd root : jsstring).
Hypothesis root_nonempty : root ≠ [].

(** Where a request can point: below the root, or at its parent. *)
Lemma target_stack p :
  let full := join2 root (stripDotDots (normalize p)) in
  (∃ ys, stack cwd full = ys ++ stack cwd root)
  ∨ stack cwd full = tail (stack cwd root).
Proof.
  intros full. unfold full. rewrite stack_join2 by done.
  destruct (scrub_safe p) as [->|Hsafe].
  - right. simpl. pose proof (stack_clean cwd root) as Hclean.
    destruct (stack cwd root) as [|top rest]; [done|].
    inversion_clear Hclean as [|?? Htop _].
    by rewrite normStep_pop by by apply regular_not_dotdot.
  - left. destruct (foldl_descends (stack cwd root) _ Hsafe) as (ys & -> & _).
    by exists ys.
Qed.

(** On the paths a request can produce, the string prefix test decides
    containment segment by segment. *)
Lemma guard_decides p :
  let full := join2 root (stripDotDots (normalize p)) in
  startsWith (resolve cwd full) (resolve cwd root) = true
  ↔ key cwd root `prefix_of` key cwd full.
Proof.
  intros full. unfold resolve. split.
  - intros Hstarts. rewrite !key_stack.
    destruct (target_stack p) as [[ys E]|E]; fold full in E; rewrite E.
    + rewrite reverse_app. by eexists.
    + pose proof (stack_clean cwd root) as Hclean.
      destruct (stack cwd root) as [|top rest] eqn:Hst; [done|]. exfalso.
      inversion_clear Hclean as [|?? Htop _].
      apply startsWith_length in Hstarts.
      rewrite !key_stack, E, Hst, reverse_cons in Hstarts. simpl in Hstarts.
      pose proof (join_snoc_longer [SLASH] (reverse rest) top) as Hlt.
      destruct Htop as [? _]. specialize (Hlt ltac:(done)). lia.
  - intros [more E]. apply startsWith_prefix, prefix_cons.
    rewrite E. apply join_app_prefix.
Qed.

End GuardFacts.

Section ListingEvents.
Import JS Path Listing.
Context {L : Locale}.
Variable fs : ReadFS.

Lemma visitEntry_events fullPath safePath search e ev :
  ev ∈ (visitEntry fs fullPath safePath search e).2 →
  ev = EvStat (join2 fullPath (d_name e))
  ∨ ev = EvWarn (js "Failed to stat " ++ join2 fullPath (d_name e) ++ js ":").
Proof.
  unfold visitEntry. destruct (stat fs _).
  - destruct (negb _); [|destruct (startsWith _ _)]; cbn [snd];
      intros [->|[]%elem_of_nil]%elem_of_cons; auto.
  - cbn [snd]. intros [->|[->|[]%elem_of_nil]%elem_of_cons]%elem_of_cons; auto.
Qed.

Lemma visitEntries_events fullPath safePath search entries ev :
  ev ∈ (visitEntries fs fullPath safePath search entries).2 →
  ∃ e, e ∈ entries ∧
    (ev = EvStat (join2 fullPath (d_name e))
     ∨ ev = EvWarn (js "Failed to stat " ++ join2 fullPath (d_name e) ++ js ":")).
Proof.
  rewrite visitEntries_flat. cbn [snd].
  intros (e & He & Hev)%list_elem_of_In%in_flat_map.
  exists e. split; [by apply list_elem_of_In|].
  by apply (visitEntry_events fullPath safePath search), list_elem_of_In.
Qed.

End ListingEvents.

(** ** The tree-shaped file system *)

Section TreeFacts.
Import JS Path FS.
Implicit Types (t : tree) (k above todo : list jsstring) (n : node).

Lemma extends_refl t : extends t t.
Proof. by intros k n. Qed.

Lemma extends_trans t1 t2 t3 : extends t1 t2 → extends t2 t3 → extends t1 t3.
Proof. intros H12 H23 k n ?. by apply H23, H12. Qed.

Lemma extends_insert_fresh t k n : t !! k = None → extends t (<[k := n]> t).
Proof.
  intros Hk k' n' Hk'. rewrite lookup_insert_ne; [done|]. by intros ->; congruence.
Qed.

Lemma extends_lookupNode t t' k n :
  extends t t' → lookupNode t k = Some n → lookupNode t' k = Some n.
Proof. intros Hext. destruct k; [done|]. apply Hext. Qed.

Lemma extends_isDir t t' k :
  extends t t' → isDir (lookupNode t k) = true → isDir (lookupNode t' k) = true.
Proof.
  intros Hext. destruct (lookupNode t k) as [[|d]|] eqn:E; try done.
  by rewrite (extends_lookupNode _ _ _ _ Hext E).
Qed.

Lemma extends_reachable t t' k :
  extends t t' → reachable t k = true → reachable t' k = true.
Proof.
  intros Hext. unfold reachable. rewrite !forallb_forall.
  intros H i Hi. by eapply extends_isDir, H.
Qed.

Lemma extends_statNode t t' k n :
  extends t t' → statNode t k = Some n → statNode t' k = Some n.
Proof.
  intros Hext. unfold statNode.
  destruct (reachable t k) eqn:Hr; [|done].
  rewrite (extends_reachable _ _ _ Hext Hr). by apply (extends_lookupNode t).
Qed.

Lemma accessNode_true t k : accessNode t k = true ↔ is_Some (statNode t k).
Proof. apply bool_decide_eq_true. Qed.

Lemma accessNode_false t k : accessNode t k = false ↔ statNode t k = None.
Proof.
  unfold accessNode. rewrite bool_decide_eq_false, <- eq_None_not_Some. done.
Qed.

Lemma extends_accessNode t t' k :
  extends t t' → accessNode t k = true → accessNode t' k = true.
Proof.
  intros Hext [n Hn]%accessNode_true. apply accessNode_true.
  exists n. by eapply extends_statNode.
Qed.

(** A key outside the tree cannot be accessed. *)
Lemma accessNode_fresh t k : k ≠ [] → t !! k = None → accessNode t k = false.
Proof.
  intros Hk Hnone. apply accessNode_false. unfold statNode.
  destruct (reachable t k); [|done]. by destruct k.
Qed.

Lemma mkdirFrom_extends t above todo t1 :
  mkdirFrom t above todo = Some t1 → extends t t1.
Proof.
  revert t above. induction todo as [|seg todo IH]; intros t above; simpl.
  - intros [= <-]. apply extends_refl.
  - destruct (lookupNode t (above ++ [seg])) as [[|d]|] eqn:E; [|done|].
    + apply IH.
    + intros H%IH. eapply extends_trans; [|exact H].
      apply extends_insert_fresh.
      destruct (above ++ [seg]) eqn:Hk; [by destruct above|done].
Qed.

Lemma mkdirFrom_dirs t above todo t1 i :
  isDir (lookupNode t above) = true →
  mkdirFrom t above todo = Some t1 →
  (i <= length todo)%nat →
  isDir (lookupNode t1 (above ++ take i todo)) = true.
Proof.
  revert t above i. induction todo as [|seg todo IH]; intros t above i Habove; simpl.
  - intros [= <-] Hi. rewrite take_nil, app_nil_r. done.
  - intros Hmk Hi. destruct i as [|i].
    { rewrite take_0, app_nil_r.
      eapply extends_isDir; [|exact Habove].
      eapply (mkdirFrom_extends t above (seg :: todo)). exact Hmk. }
    simpl. rewrite (cons_middle seg), app_assoc.
    assert (above ++ [seg] ≠ []) as Hne by by destruct above.
    destruct (lookupNode t (above ++ [seg])) as [[|d]|] eqn:E; [|done|].
    + apply (IH t); [by rewrite E|done|lia].
    + apply (IH (<[above ++ [seg] := Dir]> t)); [|done|lia].
      destruct (above ++ [seg]) eqn:Hk; [done|].
      simpl. by rewrite lookup_insert_eq.
Qed.

(** After [mkdir -p], the directory and everything above it is there. *)
Lemma mkdirRecursive_prefix t k t1 i :
  mkdirRecursive t k = Some t1 → statNode t1 (take i k) = Some Dir.
Proof.
  intros Hmk.
  assert (∀ j, isDir (lookupNode t1 (take j k)) = true) as Hdirs.
  { intros j. destruct (decide (j <= length k)%nat) as [Hj|Hj].
    - by apply (mkdirFrom_dirs t [] k t1 j).
    - rewrite take_ge by lia. rewrite <- (take_ge k (length k)) by lia.
      by apply (mkdirFrom_dirs t [] k t1 (length k)). }
  unfold statNode.
  assert (reachable t1 (take i k) = true) as ->.
  { unfold reachable. apply forallb_forall. intros j _.
    rewrite take_take. apply Hdirs. }
  specialize (Hdirs i). by destruct (lookupNode t1 (take i k)) as [[|?]|].
Qed.

Lemma mkdirRecursive_access t k t1 :
  mkdirRecursive t k = Some t1 →
  accessNode t1 k = true ∧ accessNode t1 (removelast k) = true.
Proof.
  intros Hmk. split; apply accessNode_true.
  - rewrite <- (take_ge k (length k)) by lia.
    rewrite (mkdirRecursive_prefix t k t1 _ Hmk). by eexists.
  - rewrite removelast_firstn_len.
    rewrite (mkdirRecursive_prefix t k t1 _ Hmk). by eexists.
Qed.

Lemma writeFile_some t k data t2 :
  writeFile t k data = Some t2 →
  k ≠ [] ∧ reachable t k = true ∧ t2 = <[k := File data]> t.
Proof.
  unfold writeFile. destruct k as [|seg k]; [done|].
  destruct (reachable t (seg :: k)); [|done]. simpl.
  destruct (_ && _); [|done]. by intros [= <-].
Qed.

Lemma mkdirFrom_existing t above todo :
  (∀ i, (1 <= i <= length todo)%nat →
        isDir (lookupNode t (above ++ take i todo)) = true) →
  mkdirFrom t above todo = Some t.
Proof.
  revert above. induction todo as [|seg todo IH]; intros above Hdirs; [done|].
  cbn [mkdirFrom].
  pose proof (Hdirs 1%nat ltac:(simpl; lia)) as H1. cbn [take] in H1.
  rewrite take_0 in H1.
  destruct (lookupNode t (above ++ [seg])) as [[|d]|]; try done.
  apply IH. intros i Hi. rewrite <- app_assoc. cbn [app].
  apply (Hdirs (S i)). simpl. lia.
Qed.

(** Creating a directory that is there changes nothing. *)
Lemma mkdirRecursive_again t k t1 t2 :
  mkdirRecursive t k = Some t1 → extends t1 t2 → mkdirRecursive t2 k = Some t2.
Proof.
  intros Hmk Hext. apply mkdirFrom_existing. intros i Hi.
  eapply extends_isDir; [done|].
  apply (mkdirFrom_dirs t [] k t1 i); [done|done|lia].
Qed.

Lemma mkdirFrom_no_new_files t above todo t1 k d :
  mkdirFrom t above todo = Some t1 → t1 !! k = Some (File d) → t !! k = Some (File d).
Proof.
  revert t above. induction todo as [|seg todo IH]; intros t above; cbn [mkdirFrom].
  - by intros [= <-].
  - destruct (lookupNode t (above ++ [seg])) as [[|d']|] eqn:E; [|done|].
    + apply IH.
    + intros Hmk Hk. specialize (IH _ _ Hmk Hk).
      destruct (decide (k = above ++ [seg])) as [->|Hne].
      * by rewrite lookup_insert_eq in IH.
      * by rewrite lookup_insert_ne in IH.
Qed.

(** Whether a directory can be created depends on the regular files in
    the way only. *)
Lemma mkdirFrom_creatable t t' above todo :
  (∀ k d, t' !! k = Some (File d) → t !! k = Some (File d)) →
  is_Some (mkdirFrom t above todo) → is_Some (mkdirFrom t' above todo).
Proof.
  revert t t' above. induction todo as [|seg todo IH]; intros t t' above Hfiles;
    cbn [mkdirFrom]; [by eexists|].
  assert (above ++ [seg] ≠ []) as Hne by by destruct above.
  assert (∀ u : tree, lookupNode u (above ++ [seg]) = u !! (above ++ [seg])) as Hlk.
  { intros u. by destruct (above ++ [seg]). }
  rewrite !Hlk.
  destruct (t !! (above ++ [seg])) as [[|d]|] eqn:E; [| by intros [? ?] |].
  - intros Hsome.
    destruct (t' !! (above ++ [seg])) as [[|d]|] eqn:E'.
    + by apply (IH t).
    + apply Hfiles in E'. congruence.
    + apply (IH t); [|done]. intros k d Hk.
      destruct (decide (k = above ++ [seg])) as [->|Hk'].
      * by rewrite lookup_insert_eq in Hk.
      * rewrite lookup_insert_ne in Hk by done. by apply Hfiles.
  - intros Hsome.
    assert (∀ k d, t' !! k = Some (File d) →
                   <[above ++ [seg] := Dir]> t !! k = Some (File d)) as Hfiles1.
    { intros k d Hk. pose proof (Hfiles _ _ Hk) as Hk0.
      rewrite lookup_insert_ne; [done|]. intros <-. congruence. }
    destruct (t' !! (above ++ [seg])) as [[|d]|] eqn:E'.
    + by apply (IH (<[above ++ [seg] := Dir]> t)).
    + apply Hfiles in E'. congruence.
    + apply (IH (<[above ++ [seg] := Dir]> t)); [|done]. intros k d Hk.
      destruct (decide (k = above ++ [seg])) as [->|Hk'].
      * by rewrite lookup_insert_eq in Hk.
      * rewrite lookup_insert_ne in Hk by done. by apply Hfiles1.
Qed.

Lemma mkdirFrom_creatable_prefix t above todo more :
  is_Some (mkdirFrom t above (todo ++ more)) → is_Some (mkdirFrom t above todo).
Proof.
  revert t above. induction todo as [|seg todo IH]; intros t above; cbn [app mkdirFrom];
    [by eexists|].
  destruct (lookupNode t (above ++ [seg])) as [[|d]|]; [apply IH|done|apply IH].
Qed.

(** A file whose directory is there can be written when it cannot be
    accessed, and can be accessed once written. *)
Lemma writeFile_missing t parent nm data :
  statNode t parent = Some Dir →
  accessNode t (parent ++ [nm]) = false →
  t !! (parent ++ [nm]) = None
  ∧ writeFile t (parent ++ [nm]) data = Some (<[parent ++ [nm] := File data]> t).
Proof.
  intros Hparent Hacc. unfold statNode in Hparent.
  destruct (reachable t parent) eqn:Hreach; [|done].
  assert (parent ++ [nm] ≠ []) as Hne by by destruct parent.
  assert (reachable t (parent ++ [nm]) = true) as Hreach'.
  { unfold reachable in *. apply forallb_forall. intros i Hi%in_seq.
    rewrite length_app in Hi. cbn [length] in Hi.
    destruct (decide (i = length parent)) as [->|Hi'].
    - rewrite take_app_length. by rewrite Hparent.
    - rewrite take_app_le by lia.
      rewrite forallb_forall in Hreach. apply Hreach. apply in_seq. lia. }
  apply accessNode_false in Hacc. unfold statNode in Hacc. rewrite Hreach' in Hacc.
  assert (t !! (parent ++ [nm]) = None) as Hnone by by destruct (parent ++ [nm]).
  split; [done|]. unfold writeFile.
  destruct (parent ++ [nm]) as [|s k] eqn:Ek; [done|]. rewrite <- Ek in *.
  rewrite Hreach', removelast_last, Hparent, Hacc. done.
Qed.

Lemma statNode_key t k n : k ≠ [] → statNode t k = Some n → t !! k = Some n.
Proof.
  intros Hk. unfold statNode. destruct (reachable t k); [|done]. by destruct k.
Qed.

Lemma writeFile_access t k data t' :
  writeFile t k data = Some t' → accessNode t k = false → accessNode t' k = true.
Proof.
  intros Hw Hacc. pose proof Hw as (Hk & Hreach & ->)%writeFile_some.
  apply accessNode_true. unfold statNode.
  assert (extends t (<[k := File data]> t)) as Hext.
  { apply extends_insert_fresh. apply accessNode_false in Hacc.
    unfold statNode in Hacc. rewrite Hreach in Hacc. by destruct k. }
  rewrite (extends_reachable _ _ _ Hext Hreach).
  destruct k; [done|]. cbn [lookupNode]. rewrite lookup_insert_eq. by eexists.
Qed.

End TreeFacts.

(** ** Names given to uploaded files *)

Section UploadNames.
Import JS Path Upload.
Implicit Types (s nm : jsstring) (k : nat).

Lemma js_inj (a b : string) : js a = js b → a = b.
Proof.
  revert b. induction a as [|x a IH]; intros [|y b]; simpl; try done.
  intros [= Hxy Hab]. f_equal; [|by apply IH].
  by rewrite <- (ascii_N_embedding x), <- (ascii_N_embedding y), Hxy.
Qed.

Lemma js_app (a b : string) : js (a +:+ b) = js a ++ js b.
Proof. induction a as [|x a IH]; simpl; [done|]. by rewrite <- IH. Qed.

Lemma numberToString_inj k k' : numberToString k = numberToString k' → k = k'.
Proof. intros H%js_inj. by apply (inj pretty). Qed.

Lemma pretty_N_char_digit (x : N) : isDigit (N_of_ascii (pretty_N_char x)) = true.
Proof. unfold pretty_N_char. by repeat case_match. Qed.

Lemma pretty_N_go_digits (x : N) (acc : string) :
  Forall (λ c, isDigit c = true) (js acc) →
  Forall (λ c, isDigit c = true) (js (pretty_N_go x acc)).
Proof.
  revert acc. induction (N.lt_wf_0 x) as [x _ IH]. intros acc Hacc.
  destruct (decide (x = 0)%N) as [->|Hx]; [by rewrite pretty_N_go_0|].
  rewrite pretty_N_go_step by lia. apply IH.
  - apply N.div_lt; lia.
  - simpl. constructor; [apply pretty_N_char_digit|done].
Qed.

Lemma numberToString_digits k : Forall (λ c, isDigit c = true) (numberToString k).
Proof.
  unfold numberToString, pretty, pretty_nat, pretty, pretty_N.
  destruct (decide _); [by repeat constructor|].
  by apply pretty_N_go_digits.
Qed.

Lemma safeName_safe nm : Forall (λ c, isSafeChar c = true) (safeName nm).
Proof.
  unfold safeName. apply Forall_forall. intros c Hc.
  apply list_elem_of_fmap in Hc as (c' & -> & _).
  by destruct (isSafeChar c') eqn:E.
Qed.


Lemma safeName_no_slash nm : SLASH ∉ safeName nm.
Proof.
  intros Hin. pose proof (safeName_safe nm) as Hsafe.
  rewrite Forall_forall in Hsafe. by specialize (Hsafe _ Hin).
Qed.


Lemma lastDot_lt s i : lastDot s = Some i → (i < length s)%nat.
Proof.
  revert i. induction s as [|c s IH]; intros i; simpl; [done|].
  destruct (lastDot s) as [j|].
  - intros [= <-]. specialize (IH j eq_refl). lia.
  - destruct (c =? DOT)%N; [|done]. intros [= <-]. lia.
Qed.

Lemma lastComponent_no_slash s : SLASH ∉ s → lastComponent s = s.
Proof.
  intros Hs. unfold lastComponent. rewrite split_no_sep by done.
  rewrite reverse_singleton, filter_cons, filter_nil.
  by destruct (decide (s ≠ [])) as [?|?%dec_stable].
Qed.

Lemma endsWith_drop s i : endsWith s (drop i s) = true.
Proof.
  unfold endsWith. rewrite <- (take_drop i s) at 1.
  rewrite reverse_app. apply startsWith_app.
Qed.

(** The base name and the extension are the two halves of the name. *)
Lemma basename_extname s :
  SLASH ∉ s → basename s (extname s) ++ extname s = s.
Proof.
  intros Hs. unfold basename, extname. rewrite !lastComponent_no_slash by done.
  destruct (lastDot s) as [i|] eqn:Hdot; [|by rewrite app_nil_r].
  destruct (bool_decide (i = 0%nat) || isDotDot s) eqn:Hodd; [by rewrite app_nil_r|].
  apply orb_false_iff in Hodd as [Hi%bool_decide_eq_false _].
  apply lastDot_lt in Hdot as Hlt.
  destruct (drop i s) as [|c ext] eqn:Hext.
  { apply (f_equal length) in Hext. rewrite length_drop in Hext. simpl in Hext. lia. }
  rewrite <- Hext.
  assert (length (drop i s) = (length s - i)%nat) as Hlen by apply length_drop.
  rewrite bool_decide_eq_false_2.
  2:{ intros E. apply (f_equal length) in E. lia. }
  rewrite endsWith_drop.
  assert ((length (drop i s) <=? length s)%nat = true) as -> by (apply Nat.leb_le; lia).
  rewrite bool_decide_eq_false_2.
  2:{ intros E. apply (f_equal length) in E. lia. }
  simpl. rewrite Hlen.
  replace (length s - (length s - i))%nat with i by lia.
  apply take_drop.
Qed.

Lemma numbered_halves s k :
  SLASH ∉ s →
  ∃ base ext, base ++ ext = s ∧ ext = extname s
    ∧ numbered s k = base ++ js "_(" ++ numberToString k ++ js ")" ++ ext.
Proof.
  intros Hs. exists (basename s (extname s)), (extname s).
  split; [by apply basename_extname|]. by split.
Qed.

Lemma digits_without c k :
  isDigit c = false → c ∉ numberToString k.
Proof.
  intros Hc Hin. pose proof (numberToString_digits k) as H.
  rewrite Forall_forall in H. specialize (H _ Hin). congruence.
Qed.

Lemma numbered_without c s k :
  SLASH ∉ s → c ∉ s → isDigit c = false → c ∉ js "_()" → c ∉ numbered s k.
Proof.
  intros Hslash Hs Hc Hp.
  destruct (numbered_halves s k Hslash) as (base & ext & Hsplit & _ & ->).
  rewrite !elem_of_app. intros [Hin|[Hin|[Hin|[Hin|Hin]]]].
  - apply Hs. rewrite <- Hsplit. apply elem_of_app. by left.
  - apply Hp. apply list_elem_of_In. apply list_elem_of_In in Hin.
    vm_compute in Hin |- *. tauto.
  - by eapply digits_without.
  - apply Hp. apply list_elem_of_In. apply list_elem_of_In in Hin.
    vm_compute in Hin |- *. tauto.
  - apply Hs. rewrite <- Hsplit. apply elem_of_app. by right.
Qed.

Lemma numbered_valid s k : SLASH ∉ s → validName (numbered s k).
Proof.
  intros Hs. split.
  - destruct (numbered_halves s k Hs) as (base & ext & _ & _ & ->).
    assert (UNDERSCORE ∈ base ++ js "_(" ++ numberToString k ++ js ")" ++ ext) as Hu.
    { apply elem_of_app. right. by left. }
    repeat split; intros E; rewrite E in Hu;
      apply list_elem_of_In in Hu; vm_compute in Hu; intuition discriminate.
  - apply numbered_without; try done.
    intros Hin. apply list_elem_of_In in Hin. vm_compute in Hin. intuition discriminate.
Qed.

Lemma numbered_inj s k k' : SLASH ∉ s → numbered s k = numbered s k' → k = k'.
Proof.
  intros Hs. unfold numbered. intros E.
  apply app_inv_head in E. apply app_inv_head in E.
  rewrite !app_assoc in E. apply app_inv_tail in E. apply app_inv_tail in E.
  by apply numberToString_inj.
Qed.

End UploadNames.

(** ** The search for a free name *)

Section FreeName.
Import JS Path FS Upload.
Variable cwd : jsstring.
Implicit Types (t : tree) (dir s P : jsstring) (c j fuel : nat).

Lemma lastComponent_join2 dir nm :
  dir ≠ [] → validName nm → lastComponent (join2 dir nm) = nm.
Proof.
  intros Hdir [Hreg Hslash]. pose proof Hreg as (Hne & _ & _).
  destruct dir as [|d dir]; [done|]. destruct nm as [|c nm]; [done|].
  unfold join2. set (p := (d :: dir) ++ [SLASH] ++ c :: nm).
  assert (p ≠ []) as Hp by done.
  assert (endsWithSlash p = false) as Hend.
  { unfold endsWithSlash, p. rewrite !last_app. simpl last.
    destruct (last (c :: nm)) as [x|] eqn:Hlast; [|by apply last_None in Hlast].
    apply N.eqb_neq. intros ->. apply Hslash.
    apply last_Some_elem_of in Hlast. done. }
  assert (∀ b, normSegs b (split SLASH p) =
               normSegs b (split SLASH (d :: dir)) ++ [c :: nm]) as Hsegs.
  { intros b. unfold normSegs, p.
    change ((d :: dir) ++ [SLASH] ++ c :: nm) with ((d :: dir) ++ SLASH :: c :: nm).
    rewrite split_app, foldl_app, (split_no_sep SLASH (c :: nm)) by done.
    simpl foldl. rewrite normStep_regular by done. by rewrite reverse_cons. }
  destruct (normalize_cases p Hp) as [[E _]|[Hsome ->]].
  { rewrite Hsegs in E. by destruct (normSegs _ _). }
  rewrite Hend, app_nil_r. unfold lastComponent.
  assert (split SLASH (join [SLASH] (normSegs (negb (isAbsolute p)) (split SLASH p)))
          = normSegs (negb (isAbsolute p)) (split SLASH p)) as Hsplit
    by by apply split_normSegs.
  specialize (Hsegs (negb (isAbsolute p))).
  set (segs := normSegs (negb (isAbsolute p)) (split SLASH p)) in *.
  destruct (isAbsolute p).
  - change ([SLASH] ++ join [SLASH] segs) with (SLASH :: join [SLASH] segs).
    rewrite split_cons_sep, Hsplit, Hsegs.
    by rewrite reverse_cons, reverse_app.
  - by rewrite app_nil_l, Hsplit, Hsegs, reverse_app.
Qed.

(** Where the [j]-th renamed candidate lives. *)
Lemma candidate_key dir s j :
  dir ≠ [] → SLASH ∉ s →
  key cwd (join2 dir (numbered s j)) = key cwd dir ++ [numbered s j].
Proof. intros Hdir Hs. by apply key_child, numbered_valid. Qed.

(** Some candidate among the first [size t + 1] is not in the tree. *)
Lemma exists_free t dir s :
  dir ≠ [] → SLASH ∉ s →
  ∃ j, (1 <= j <= S (size t))%nat ∧
       accessNode t (key cwd (join2 dir (numbered s j))) = false.
Proof.
  intros Hdir Hs.
  set (keyOf := λ j, key cwd dir ++ [numbered s j]).
  set (js := seq 1 (S (size t))).
  destruct (decide (Forall (λ j, keyOf j ∈ dom t) js)) as [Hall|Hsome].
  - exfalso.
    assert (NoDup (keyOf <$> js)) as Hnd.
    { apply NoDup_fmap_2; [|apply NoDup_seq].
      intros j j' E. unfold keyOf in E. apply app_inv_head in E.
      injection E as E. by eapply numbered_inj. }
    assert (list_to_set (keyOf <$> js) ⊆ dom t) as Hsub.
    { intros k Hk. apply elem_of_list_to_set, list_elem_of_fmap in Hk as (j & -> & Hj).
      rewrite Forall_forall in Hall. by apply Hall. }
    apply subseteq_size in Hsub.
    rewrite size_list_to_set, length_fmap, size_dom in Hsub by done.
    unfold js in Hsub. rewrite length_seq in Hsub. lia.
  - apply not_Forall_Exists in Hsome; [|apply _].
    apply Exists_exists in Hsome as (j & Hj & Hfree).
    exists j. split.
    + unfold js in Hj. apply elem_of_seq in Hj. lia.
    + rewrite candidate_key by done. apply accessNode_fresh.
      * by destruct (key cwd dir).
      * by apply not_elem_of_dom.
Qed.

Section Loop.
Variables (t : tree) (dir s : jsstring).

#[local] Abbreviation cand j := (join2 dir (numbered s j)).

Lemma findFree_free fuel P c :
  accessNode t (key cwd P) = false → findFree cwd (S fuel) t dir s P c = Some P.
Proof. intros H. simpl. by rewrite H. Qed.

(** What the loop returns is free, and every candidate before it was
    taken. *)
Lemma findFree_result fuel P c P' :
  findFree cwd fuel t dir s P c = Some P' →
  accessNode t (key cwd P') = false ∧
  (P' = P ∨
   (accessNode t (key cwd P) = true ∧
    ∃ j, (c <= j)%nat ∧ P' = cand j ∧
         ∀ i, (c <= i < j)%nat → accessNode t (key cwd (cand i)) = true)).
Proof.
  revert P c. induction fuel as [|fuel IH]; intros P c; simpl; [done|].
  destruct (accessNode t (key cwd P)) eqn:Hacc.
  - intros (Hfree & Hwhich)%IH. split; [done|]. right. split; [done|].
    destruct Hwhich as [->|(Htaken & j & Hj & -> & Hbefore)].
    + exists c. split; [lia|]. split; [done|]. intros i ?. lia.
    + exists j. split; [lia|]. split; [done|].
      intros i Hi. destruct (decide (i = c)) as [->|?]; [done|]. apply Hbefore. lia.
  - intros [= <-]. split; [done|]. by left.
Qed.

Lemma findFree_mono fuel fuel' P c P' :
  findFree cwd fuel t dir s P c = Some P' → (fuel <= fuel')%nat →
  findFree cwd fuel' t dir s P c = Some P'.
Proof.
  revert fuel' P c. induction fuel as [|fuel IH]; intros fuel' P c; simpl; [done|].
  intros H Hle. destruct fuel' as [|fuel']; [lia|]. simpl.
  destruct (accessNode t (key cwd P)); [|done]. apply IH; [done|lia].
Qed.

Lemma findFree_reaches d c fuel P :
  accessNode t (key cwd (cand (c + d))) = false →
  (d + 2 <= fuel)%nat →
  is_Some (findFree cwd fuel t dir s P c).
Proof.
  revert c fuel P. induction d as [|d IH]; intros c fuel P Hfree Hfuel.
  - destruct fuel as [|[|fuel]]; [lia..|]. rewrite Nat.add_0_r in Hfree.
    simpl. destruct (accessNode t (key cwd P)); [|by eexists].
    fold (cand c). rewrite Hfree. by eexists.
  - destruct fuel as [|fuel]; [lia|]. simpl.
    destruct (accessNode t (key cwd P)); [|by eexists].
    apply IH; [|lia]. by replace (S c + d)%nat with (c + S d)%nat by lia.
Qed.

(** The loop ends: the tree is finite and the candidates differ. *)
Lemma findFree_terminates fuel P :
  dir ≠ [] → SLASH ∉ s → (size t + 3 <= fuel)%nat →
  is_Some (findFree cwd fuel t dir s P 1).
Proof.
  intros Hdir Hs Hfuel.
  destruct (exists_free t dir s Hdir Hs) as (j & Hj & Hfree).
  apply (findFree_reaches (j - 1)); [|lia].
  by replace (1 + (j - 1))%nat with j by lia.
Qed.

End Loop.

End FreeName.

(** ** One file of an upload batch *)

Section UploadFacts.
Import JS Path FS Upload.
Context {L : Locale}.
Variables (root : jsstring) (allowed : list jsstring) (maxSize : Z) (cwd : jsstring).
Implicit Types (t : tree) (f : UploadFile) (r : Result) (tp : jsstring).

Lemma mkdirFrom_size t above todo t1 :
  mkdirFrom t above todo = Some t1 → (size t1 <= size t + length todo)%nat.
Proof.
  revert t above. induction todo as [|seg todo IH]; intros t above; simpl.
  - intros [= <-]. lia.
  - destruct (lookupNode t (above ++ [seg])) as [[|d]|] eqn:E; [|done|].
    + intros H%IH. lia.
    + intros H%IH. rewrite map_size_insert in H.
      destruct (t !! (above ++ [seg])); unfold id in H; lia.
Qed.

(** A name that is not a regular segment points at the directory itself
    or at its parent. *)
Lemma key_join2_irregular dir s :
  dir ≠ [] → SLASH ∉ s → ¬ regular s →
  key cwd (join2 dir s) = key cwd dir ∨ key cwd (join2 dir s) = removelast (key cwd dir).
Proof.
  intros Hdir Hs Hreg. rewrite !key_stack, stack_join2 by done.
  rewrite split_no_sep by done. simpl.
  destruct (normStep_cases false (stack cwd dir) s) as [->|[->|[->|?]]]; [by left..| |done].
  right. pose proof (stack_clean cwd dir) as Hclean.
  destruct (stack cwd dir) as [|top rest]; [done|].
  inversion_clear Hclean as [|?? Htop _].
  rewrite normStep_pop by by apply regular_not_dotdot.
  by rewrite reverse_cons, removelast_last.
Qed.

(** The four ways the loop body ends. *)
Lemma uploadOne_cases fuel tp t f r t' :
  uploadOne root allowed maxSize cwd fuel tp t f = Some (r, t') →
  let dir := join2 root tp in
  let s := safeName (f_name f) in
  (maxSize < f_size f ∧ r = rejected f FileTooLarge ∧ t' = t)
  ∨ (f_size f <= maxSize
     ∧ ¬ (toLowerCase (slice1 (extname (f_name f))) ∈ allowed)
     ∧ r = rejected f DisallowedType ∧ t' = t)
  ∨ (f_size f <= maxSize
     ∧ toLowerCase (slice1 (extname (f_name f))) ∈ allowed
     ∧ ((mkdirRecursive t (key cwd dir) = None ∧ r = rejected f IOFailure ∧ t' = t)
        ∨ ∃ t1 P,
            mkdirRecursive t (key cwd dir) = Some t1
            ∧ findFree cwd fuel t1 dir s (join2 dir s) 1 = Some P
            ∧ ((writeFile t1 (key cwd P) (f_content f) = None
                ∧ r = rejected f IOFailure ∧ t' = t1)
               ∨ (writeFile t1 (key cwd P) (f_content f) = Some t'
                  ∧ r = stored f (basename1 P))))).
Proof.
  intros H dir s. unfold uploadOne in H. fold dir s in H.
  destruct (Z.ltb_spec maxSize (f_size f)) as [Hbig|Hsmall].
  { injection H as <- <-. by left. }
  destruct (bool_decide _) eqn:Hext; cbn [negb] in H.
  2:{ injection H as <- <-. right. left.
      apply bool_decide_eq_false in Hext. by repeat split. }
  apply bool_decide_eq_true in Hext. right. right.
  split; [done|]. split; [done|].
  destruct (mkdirRecursive t (key cwd dir)) as [t1|] eqn:Hmk.
  2:{ injection H as <- <-. by left. }
  right.
  destruct (findFree cwd fuel t1 dir s (join2 dir s) 1) as [P|] eqn:Hfree; [|done].
  exists t1, P. split; [done|]. split; [done|].
  destruct (writeFile t1 (key cwd P) (f_content f)) as [t2|] eqn:Hw.
  - injection H as <- <-. by right.
  - injection H as <- <-. by left.
Qed.

(** Every way leaves the nodes that were there. *)
Lemma uploadOne_extends fuel tp t f r t' :
  uploadOne root allowed maxSize cwd fuel tp t f = Some (r, t') → extends t t'.
Proof.
  intros H. apply uploadOne_cases in H.
  destruct H as [(_ & _ & ->)|[(_ & _ & _ & ->)|(_ & _ & [(_ & _ & ->)|H])]];
    try apply extends_refl.
  destruct H as (t1 & P & Hmk & Hfree & [(_ & _ & ->)|(Hw & _)]).
  - by eapply mkdirFrom_extends.
  - eapply extends_trans; [by eapply mkdirFrom_extends|].
    apply findFree_result in Hfree as [Hfree _].
    apply writeFile_some in Hw as (Hk & Hreach & ->).
    apply extends_insert_fresh.
    apply accessNode_false in Hfree. unfold statNode in Hfree.
    rewrite Hreach in Hfree. by destruct (key cwd P).
Qed.

Lemma uploadOne_size fuel tp t f r t' :
  uploadOne root allowed maxSize cwd fuel tp t f = Some (r, t') →
  (size t' <= size t + length (key cwd (join2 root tp)) + 1)%nat.
Proof.
  intros H. apply uploadOne_cases in H.
  destruct H as [(_ & _ & ->)|[(_ & _ & _ & ->)|(_ & _ & [(_ & _ & ->)|H])]];
    try lia.
  destruct H as (t1 & P & Hmk%mkdirFrom_size & _ & [(_ & _ & ->)|(Hw & _)]); [lia|].
  apply writeFile_some in Hw as (_ & _ & ->).
  rewrite map_size_insert. destruct (t1 !! key cwd P); unfold id; lia.
Qed.

(** With enough rounds allowed, the loop body ends. *)
Lemma uploadOne_total fuel tp t f :
  (size t + length (key cwd (join2 root tp)) + 3 <= fuel)%nat →
  is_Some (uploadOne root allowed maxSize cwd fuel tp t f).
Proof.
  intros Hfuel. unfold uploadOne.
  destruct (maxSize <? f_size f); [by eexists|].
  destruct (negb _); [by eexists|].
  destruct (mkdirRecursive t _) as [t1|] eqn:Hmk; [|by eexists].
  apply mkdirFrom_size in Hmk.
  destruct (findFree_terminates cwd t1 (join2 root tp) (safeName (f_name f)) fuel
              (join2 (join2 root tp) (safeName (f_name f))))
    as [P ->]; [apply join2_nonempty|apply safeName_no_slash|lia|].
  destruct (writeFile _ _ _); by eexists.
Qed.

(** What a stored file looks like. *)
Lemma uploadOne_stored fuel tp t f r t' :
  uploadOne root allowed maxSize cwd fuel tp t f = Some (r, t') →
  success r = true →
  let dir := join2 root tp in
  let s := safeName (f_name f) in
  ∃ finalName t1,
    savedAs r = Some finalName
    ∧ mkdirRecursive t (key cwd dir) = Some t1
    ∧ validName finalName
    ∧ ((finalName = s ∧ accessNode t1 (key cwd (join2 dir s)) = false)
       ∨ (∃ j, (1 <= j)%nat ∧ finalName = numbered s j
             ∧ accessNode t1 (key cwd (join2 dir s)) = true
             ∧ (∀ i, (1 <= i < j)%nat →
                  accessNode t1 (key cwd (join2 dir (numbered s i))) = true)
             ∧ accessNode t1 (key cwd (join2 dir (numbered s j))) = false))
    ∧ t !! (key cwd dir ++ [finalName]) = None
    ∧ t' = <[key cwd dir ++ [finalName] := File (f_content f)]> t1.
Proof.
  intros H Hok dir s. apply uploadOne_cases in H. fold dir s in H.
  destruct H as [(_ & -> & _)|[(_ & _ & -> & _)|(_ & _ & [(_ & -> & _)|H])]];
    try done.
  destruct H as (t1 & P & Hmk & Hfree & [(_ & -> & _)|(Hw & ->)]); [done|].
  assert (dir ≠ []) as Hdir by apply join2_nonempty.
  assert (SLASH ∉ s) as Hs by apply safeName_no_slash.
  apply findFree_result in Hfree as [Hfree Hwhich].
  apply writeFile_some in Hw as (Hk & Hreach & ->).
  assert (∀ nm, validName nm → P = join2 dir nm →
            t !! (key cwd dir ++ [nm]) = None
            ∧ key cwd P = key cwd dir ++ [nm] ∧ basename1 P = nm) as Hname.
  { intros nm Hnm ->. rewrite key_child in * by done.
    split; [|split; [done|by apply lastComponent_join2]].
    apply accessNode_false in Hfree. unfold statNode in Hfree.
    rewrite Hreach in Hfree.
    destruct (t !! (key cwd dir ++ [nm])) as [n|] eqn:E; [|done].
    apply (mkdirFrom_extends _ _ _ _ Hmk) in E.
    destruct (key cwd dir ++ [nm]) eqn:Ek; [by destruct (key cwd dir)|].
    simpl in Hfree. congruence. }
  destruct Hwhich as [->|(Htaken & j & Hj & -> & Hbefore)].
  - destruct (decide (regular s)) as [Hreg|Hirr].
    + destruct (Hname s) as (Hnone & Hkey & Hbase); [by split|done|].
      exists s, t1. simpl. rewrite Hbase.
      split; [done|]. split; [done|]. split; [by split|]. split; [by left|].
      split; [done|]. by rewrite Hkey.
    + exfalso. destruct (mkdirRecursive_access _ _ _ Hmk) as [Hd Hp].
      destruct (key_join2_irregular dir s Hdir Hs Hirr) as [E|E];
        rewrite E in Hfree; congruence.
  - destruct (Hname (numbered s j)) as (Hnone & Hkey & Hbase);
      [by apply numbered_valid|done|].
    exists (numbered s j), t1. simpl. rewrite Hbase.
    split; [done|]. split; [done|]. split; [by apply numbered_valid|].
    split; [|split; [done|by rewrite Hkey]].
    right. exists j. split; [done|]. split; [done|]. split; [done|]. by split.
Qed.


End UploadFacts.

(** ** The whole batch *)

Section BatchFacts.
Import JS Path FS Upload.
Context {L : Locale}.
Variables (root : jsstring) (allowed : list jsstring) (maxSize : Z) (cwd : jsstring).
Implicit Types (t : tree) (f : UploadFile) (r : Result) (tp : jsstring)
  (fs : list UploadFile) (rs : list Result).

Lemma uploadAll_app fuel tp t fs1 fs2 rs t' :
  uploadAll root allowed maxSize cwd fuel tp t (fs1 ++ fs2) = Some (rs, t') ↔
  ∃ rs1 t1 rs2,
    uploadAll root allowed maxSize cwd fuel tp t fs1 = Some (rs1, t1)
    ∧ uploadAll root allowed maxSize cwd fuel tp t1 fs2 = Some (rs2, t')
    ∧ rs = rs1 ++ rs2.
Proof.
  revert t rs. induction fs1 as [|f fs1 IH]; intros t rs; simpl.
  - split.
    + intros H. by exists [], t, rs.
    + by intros (rs1 & t1 & rs2 & [= <- <-] & H & ->).
  - destruct (uploadOne _ _ _ _ _ _ _ f) as [[r ta]|]; [|by split; [|intros (?&?&?&?&_)]].
    split.
    + destruct (uploadAll _ _ _ _ _ _ ta (fs1 ++ fs2)) as [[rs' tb]|] eqn:E; [|done].
      intros [= <- <-]. apply IH in E as (rs1 & t1 & rs2 & -> & H2 & ->).
      by exists (r :: rs1), t1, rs2.
    + intros (rs1 & t1 & rs2 & H1 & H2 & ->).
      destruct (uploadAll _ _ _ _ _ _ ta fs1) as [[rs1' t1']|] eqn:E; [|done].
      injection H1 as <- <-.
      assert (uploadAll root allowed maxSize cwd fuel tp ta (fs1 ++ fs2)
              = Some (rs1' ++ rs2, t')) as ->; [|done].
      apply IH. by exists rs1', t1', rs2.
Qed.

Lemma uploadAll_length fuel tp t fs rs t' :
  uploadAll root allowed maxSize cwd fuel tp t fs = Some (rs, t') →
  length rs = length fs.
Proof.
  revert t rs. induction fs as [|f fs IH]; intros t rs; simpl.
  - by intros [= <- <-].
  - destruct (uploadOne _ _ _ _ _ _ _ f) as [[r ta]|]; [|done].
    destruct (uploadAll _ _ _ _ _ _ ta fs) as [[rs' tb]|] eqn:E; [|done].
    intros [= <- <-]. simpl. f_equal. by eapply IH.
Qed.

(** Each result is the one the loop body computes for the file at the
    same position, on the tree the files before it left. *)
Lemma uploadAll_lookup fuel tp t fs rs t' i f :
  uploadAll root allowed maxSize cwd fuel tp t fs = Some (rs, t') →
  fs !! i = Some f →
  ∃ r ti ti', rs !! i = Some r
    ∧ uploadOne root allowed maxSize cwd fuel tp ti f = Some (r, ti')
    ∧ extends t ti.
Proof.
  revert t rs i. induction fs as [|f0 fs IH]; intros t rs i; simpl; [done|].
  destruct (uploadOne _ _ _ _ _ _ _ f0) as [[r0 ta]|] eqn:E0; [|done].
  destruct (uploadAll _ _ _ _ _ _ ta fs) as [[rs' tb]|] eqn:E; [|done].
  intros [= <- <-]. destruct i as [|i]; simpl.
  - intros [= <-]. exists r0, t, ta. split; [done|]. split; [done|apply extends_refl].
  - intros Hf. destruct (IH _ _ _ E Hf) as (r & ti & ti' & Hr & Hone & Hext).
    exists r, ti, ti'. split; [done|]. split; [done|].
    eapply extends_trans; [|exact Hext]. by eapply uploadOne_extends.
Qed.

Lemma uploadAll_total fuel tp t fs :
  (size t + length fs * (length (key cwd (join2 root tp)) + 1) + 2 <= fuel)%nat →
  is_Some (uploadAll root allowed maxSize cwd fuel tp t fs).
Proof.
  revert t. induction fs as [|f fs IH]; intros t Hfuel; simpl; [by eexists|].
  simpl in Hfuel.
  destruct (uploadOne_total root allowed maxSize cwd fuel tp t f) as [[r ta] Hone];
    [lia|].
  rewrite Hone. apply uploadOne_size in Hone as Hsize.
  destruct (IH ta) as [[rs tb] ->]; [lia|]. by eexists.
Qed.

(** A file turned away by the checks leaves no trace but its result. *)
Lemma uploadOne_turned_away fuel tp t f :
  maxSize < f_size f ∨ ¬ (toLowerCase (slice1 (extname (f_name f))) ∈ allowed) →
  ∃ e, uploadOne root allowed maxSize cwd fuel tp t f = Some (rejected f e, t)
       ∧ (maxSize < f_size f → e = FileTooLarge)
       ∧ (f_size f <= maxSize → e = DisallowedType).
Proof.
  intros Hbad. unfold uploadOne.
  destruct (Z.ltb_spec maxSize (f_size f)) as [Hbig|Hsmall].
  - exists FileTooLarge. split; [done|]. split; [done|lia].
  - destruct Hbad as [?|Hext]; [lia|].
    rewrite bool_decide_eq_false_2 by done. simpl.
    exists DisallowedType. split; [done|]. split; [lia|done].
Qed.

Lemma uploadAll_without fuel tp t fs1 f fs2 rs t' :
  maxSize < f_size f ∨ ¬ (toLowerCase (slice1 (extname (f_name f))) ∈ allowed) →
  uploadAll root allowed maxSize cwd fuel tp t (fs1 ++ f :: fs2) = Some (rs, t') →
  ∃ rs1 e rs2,
    rs = rs1 ++ rejected f e :: rs2 ∧ length rs1 = length fs1
    ∧ uploadAll root allowed maxSize cwd fuel tp t (fs1 ++ fs2) = Some (rs1 ++ rs2, t').
Proof.
  intros Hbad (rs1 & t1 & rs' & H1 & H2 & ->)%uploadAll_app.
  simpl in H2.
  destruct (uploadOne_turned_away fuel tp t1 f Hbad) as (e & He & _).
  rewrite He in H2.
  destruct (uploadAll _ _ _ _ _ _ t1 fs2) as [[rs2 tb]|] eqn:E2; [|done].
  injection H2 as <- <-.
  exists rs1, e, rs2. split; [done|]. split; [by eapply uploadAll_length|].
  apply uploadAll_app. by exists rs1, t1, rs2.
Qed.

End BatchFacts.

(** ** The archive route *)

Section ArchiveFacts.
Import JS Path FS Archive.
Variables (root cwd : jsstring) (t : tree).

Lemma addFilesToArchive_flat paths :
  addFilesToArchive root cwd t paths =
    (flat_map (λ p, (addPath root cwd t p).1) paths,
     flat_map (λ p, (addPath root cwd t p).2) paths).
Proof.
  unfold addFilesToArchive.
  assert (∀ acc : list Entry * list jsstring,
    foldl (λ acc p, let r := addPath root cwd t p in (acc.1 ++ r.1, acc.2 ++ r.2))
          acc paths =
    (acc.1 ++ flat_map (λ p, (addPath root cwd t p).1) paths,
     acc.2 ++ flat_map (λ p, (addPath root cwd t p).2) paths)) as Hgen; [|apply Hgen].
  induction paths as [|p ps IH]; intros [es ws]; simpl.
  - by rewrite !app_nil_r.
  - rewrite IH. simpl. by rewrite <- !app_assoc.
Qed.

Lemma statNode_file k data :
  statNode t k = Some (File data) → t !! k = Some (File data).
Proof.
  unfold statNode. destruct (reachable t k); [|done]. by destruct k.
Qed.

Lemma statPath_file p data :
  statPath cwd t p = Some (File data) →
  statNode t (key cwd p) = Some (File data) ∧ endsWithSlash p = false.
Proof.
  unfold statPath. destruct (statNode t (key cwd p)) as [[|d]|]; try done.
  destruct (endsWithSlash p); [done|]. by intros [= ->].
Qed.

Lemma statPath_dir p :
  statPath cwd t p = Some Dir ↔ statNode t (key cwd p) = Some Dir.
Proof.
  unfold statPath. destruct (statNode t (key cwd p)) as [[|d]|]; try done.
  by destruct (endsWithSlash p).
Qed.

Lemma statPath_none p :
  statPath cwd t p = None ↔
  statNode t (key cwd p) = None
  ∨ (endsWithSlash p = true ∧ ∃ data, statNode t (key cwd p) = Some (File data)).
Proof.
  unfold statPath. destruct (statNode t (key cwd p)) as [[|d]|].
  - split; [done|]. by intros [?|[_ [? ?]]].
  - destruct (endsWithSlash p).
    + split; [|done]. intros _. right. split; [done|by eexists].
    + split; [done|]. by intros [?|[? _]].
  - split; [by left|done].
Qed.

(** The files the archiver finds below a directory. *)
Lemma filesBelow_elem k rel data :
  (rel, data) ∈ filesBelow t k ↔ statNode t (k ++ rel) = Some (File data).
Proof.
  unfold filesBelow. rewrite list_elem_of_omap. split.
  - intros ([k' n] & Hin & Hsome).
    destruct (bool_decide (k `prefix_of` k')) eqn:Hpre; [|done].
    apply bool_decide_eq_true in Hpre as [rest ->].
    destruct (statNode t (k ++ rest)) as [[|d]|] eqn:Hst; try done.
    injection Hsome as <- <-. by rewrite drop_app_length.
  - intros Hst. exists (k ++ rel, File data). split.
    + by apply elem_of_map_to_list, statNode_file.
    + rewrite bool_decide_eq_true_2 by by eexists.
      by rewrite Hst, drop_app_length.
Qed.

End ArchiveFacts.

(* ===================================================================== *)
(** * Part III: the properties of the handlers                            *)
(* ===================================================================== *)

Section ListingProperties.
Import JS Path Listing Order.
Context {L : Locale}.
Variables (root cwd : jsstring) (fs : ReadFS).

(** The complete sorted listing behind a request. *)
Lemma pageFiles_window requestedPath search lim entries (p : nat) :
  lists root cwd fs requestedPath entries → 1 <= lim →
  let safePath := stripDotDots (normalize requestedPath) in
  let all := sort (visitEntries fs (join2 root safePath) safePath search entries).1 in
  files (body (handle root cwd fs requestedPath
                      (safePage (Some (Z.of_nat (S p)))) lim search).1)
  = take (Z.to_nat lim) (drop (p * Z.to_nat lim) all).
Proof.
  intros Hl Hlim safePath all.
  assert (safePage (Some (Z.of_nat (S p))) = Z.of_nat (S p)) as ->.
  { unfold safePage. destruct (Z.ltb_spec (Z.of_nat (S p)) 1); [lia|done]. }
  rewrite (handle_lists _ _ _ _ _ _ _ _ Hl). cbn [fst body].
  rewrite paginate_files by lia. do 3 f_equal. lia.
Qed.

(** C3 (amended): for a fixed snapshot and a fixed limit, the pages
    1, 2, ..., n, once they cover the total, concatenate to exactly the
    non-hidden children whose name contains the search string up to
    case and whose [stat] succeeds: the same names with the same types,
    each as often as the directory holds it, directories first and then
    in the order of the name comparison; every later page is empty. *)
Theorem C3_pages_reconstruct_listing {LO : LocaleOrder L}
    requestedPath search limit entries (n : nat) :
  lists root cwd fs requestedPath entries →
  let lim := safeLimit limit in
  let fullPath := join2 root (stripDotDots (normalize requestedPath)) in
  let pageFiles (p : nat) :=
    files (body (handle root cwd fs requestedPath
                        (safePage (Some (Z.of_nat p))) lim search).1) in
  let all := concat (map pageFiles (seq 1 n)) in
  Z.of_nat (length (filter (kept fs fullPath search) entries)) <= Z.of_nat n * lim →
  map (λ i, (name i, type i)) all
    ≡ₚ map (λ e, (d_name e, typeOf e)) (filter (kept fs fullPath search) entries)
  ∧ StronglySorted listedBefore all
  ∧ ∀ p, (n < p)%nat → pageFiles p = [].
Proof.
  intros Hl lim fullPath pageFiles all Hcover.
  pose proof (safeLimit_range limit) as Hlim. fold lim in Hlim.
  set (safePath := stripDotDots (normalize requestedPath)) in *.
  set (sorted := sort (visitEntries fs fullPath safePath search entries).1).
  assert (Hlen : length sorted = length (filter (kept fs fullPath search) entries)).
  { unfold sorted. rewrite sort_length.
    rewrite <- (length_map (λ i, (name i, type i))), visitEntries_items.
    by rewrite length_map. }
  assert (Hpage : ∀ p, pageFiles (S p) =
                    take (Z.to_nat lim) (drop (p * Z.to_nat lim) sorted)).
  { intros p. unfold pageFiles.
    by rewrite (pageFiles_window _ search lim entries p Hl) by lia. }
  assert (Hall : all = sorted).
  { unfold all. rewrite <- fmap_S_seq.
    change (map pageFiles (S <$> seq 0 n)) with (pageFiles <$> (S <$> seq 0 n)).
    rewrite <- list_fmap_compose.
    rewrite (list_fmap_ext (pageFiles ∘ S)
               (λ i, take (Z.to_nat lim) (drop (i * Z.to_nat lim) sorted)))
      by (intros; apply Hpage).
    change (concat (map (λ i, take (Z.to_nat lim) (drop (i * Z.to_nat lim) sorted))
                      (seq 0 n)) = sorted).
    rewrite windows_tile. apply take_ge. nia. }
  split; [|split].
  - rewrite Hall. unfold sorted.
    rewrite <- (visitEntries_items fs fullPath safePath).
    apply Permutation_map, sort_perm.
  - rewrite Hall. apply sort_sorted.
  - intros [|p] Hp; [lia|]. rewrite Hpage.
    rewrite drop_ge; [by rewrite take_nil|]. nia.
Qed.

(** C4 (amended): the limit in force is the requested one clamped to
    1..100, with 20 standing in for a missing, unreadable or
    non-positive value; the page is the window of that many entries at
    offset (page-1)*limit of the sorted listing, and [hasMore] says
    whether offset+limit is below the total; when the limit in force
    exceeds the total, [hasMore] is false and page 1 holds every
    entry. *)
Theorem C4_page_window (q : Query) :
  let parsed := parseInt (orDefault (q_limit q) (js "20")) in
  let pg := safePage (parseInt (orDefault (q_page q) (js "1"))) in
  let lim := safeLimit parsed in
  let reply := (GET root cwd fs q).1 in
  let safePath := stripDotDots (normalize (orDefault (q_path q) [SLASH])) in
  let fullPath := join2 root safePath in
  (1 <= lim <= 100)
  ∧ (q_limit q = None → lim = 20)
  ∧ (parsed = None → lim = 20)
  ∧ (∀ l, parsed = Some l → l <= 0 → lim = 20)
  ∧ (∀ l, parsed = Some l → 1 <= l → lim = Z.min l 100)
  ∧ (status reply = 200 →
     ∃ entries, readdir fs fullPath = Some entries ∧
       let all := sort (visitEntries fs fullPath safePath
                                     (orDefault (q_search q) []) entries).1 in
       let offset := (pg - 1) * lim in
       total (body reply) = Z.of_nat (length all)
       ∧ files (body reply) = take (Z.to_nat lim) (drop (Z.to_nat offset) all)
       ∧ hasMore (body reply) = bool_decide (offset + lim < total (body reply))
       ∧ (total (body reply) < lim →
          hasMore (body reply) = false ∧ (pg = 1 → files (body reply) = all))).
Proof.
  intros parsed pg lim reply safePath fullPath.
  pose proof (safeLimit_range parsed) as Hlim. fold lim in Hlim.
  pose proof (safePage_range (parseInt (orDefault (q_page q) (js "1")))) as Hpg.
  fold pg in Hpg.
  split; [done|]. split.
  { intros Hq. unfold lim, parsed. by rewrite Hq. }
  split; [by unfold lim; intros ->|].
  split.
  { intros l Hl ?. unfold lim. rewrite Hl. simpl.
    destruct (Z.ltb_spec l 1); [done|lia]. }
  split.
  { intros l Hl ?. unfold lim. rewrite Hl. simpl.
    destruct (Z.ltb_spec l 1); [lia|done]. }
  intros H200. unfold reply, GET in *.
  destruct (handle_200 _ _ _ _ _ _ _ H200) as [entries Hl].
  exists entries. split; [apply Hl|].
  rewrite (handle_lists _ _ _ _ _ _ _ _ Hl).
  cbn [fst snd body status paginate files total hasMore error page].
  fold parsed. fold pg lim safePath fullPath.
  set (all := sort _).
  split; [done|]. split.
  { rewrite slice_nat by nia. do 2 f_equal; lia. }
  split.
  { destruct (Z.ltb_spec ((pg - 1) * lim + lim) (Z.of_nat (length all)));
      [by rewrite bool_decide_eq_true_2|by rewrite bool_decide_eq_false_2 by lia]. }
  intros Hsmall. split.
  { apply Z.ltb_ge. nia. }
  intros ->. rewrite slice_nat by lia. simpl. rewrite drop_0.
  apply take_ge. lia.
Qed.

(** C9: when [stat] fails for some children of the listed directory,
    the request still succeeds with no error, and each failure leaves a
    warning in the log.  The reply shows the window for the requested
    page, [limit] entries from offset (page-1)*limit, of a listing that
    holds exactly the remaining entries: the non-hidden children that
    match the search and whose [stat] succeeded, with their names and
    types, each as often as the directory holds it, and no child whose
    [stat] failed; the total counts them.  It is the reply the
    directory would get without the failing children. *)
Theorem C9_stat_failure_skips_entry (q : Query) entries :
  lists root cwd fs (orDefault (q_path q) [SLASH]) entries →
  let pg := safePage (parseInt (orDefault (q_page q) (js "1"))) in
  let lim := safeLimit (parseInt (orDefault (q_limit q) (js "20"))) in
  let search := orDefault (q_search q) [] in
  let safePath := stripDotDots (normalize (orDefault (q_path q) [SLASH])) in
  let fullPath := join2 root safePath in
  let statOk (e : Dirent) := is_Some (stat fs (join2 fullPath (d_name e))) in
  let reply := (GET root cwd fs q).1 in
  let events := (GET root cwd fs q).2 in
  status reply = 200
  ∧ error (body reply) = None
  ∧ (∃ all : list FileItem,
       map (λ i, (name i, type i)) all
         ≡ₚ map (λ e, (d_name e, typeOf e)) (filter (kept fs fullPath search) entries)
       ∧ files (body reply)
         = take (Z.to_nat lim) (drop (Z.to_nat ((pg - 1) * lim)) all)
       ∧ total (body reply) = Z.of_nat (length all)
       ∧ (∀ e, e ∈ entries → ¬ statOk e → d_name e ∉ map name all)
       ∧ (∀ e, e ∈ entries → statOk e → visible search e → d_name e ∈ map name all))
  ∧ body reply =
      paginate (sort (visitEntries fs fullPath safePath search
                                   (filter statOk entries)).1) pg lim
  ∧ total (body reply) =
      Z.of_nat (length (filter (kept fs fullPath search) entries))
  ∧ ∀ e, e ∈ entries → ¬ statOk e →
      EvWarn (js "Failed to stat " ++ join2 fullPath (d_name e) ++ js ":") ∈ events.
Proof.
  intros Hl pg lim search safePath fullPath statOk reply events.
  pose proof (safeLimit_range (parseInt (orDefault (q_limit q) (js "20")))) as Hlim.
  pose proof (safePage_range (parseInt (orDefault (q_page q) (js "1")))) as Hpg.
  fold lim in Hlim. fold pg in Hpg.
  unfold reply, events, GET. rewrite (handle_lists _ _ _ _ _ _ _ _ Hl).
  cbn [fst snd body status paginate files total hasMore error page].
  fold safePath fullPath search pg lim.
  split; [done|]. split; [done|].
  set (all := sort (visitEntries fs fullPath safePath search entries).1).
  assert (map (λ i, (name i, type i)) all
            ≡ₚ map (λ e, (d_name e, typeOf e)) (filter (kept fs fullPath search) entries))
    as Hperm.
  { unfold all. rewrite <- (visitEntries_items fs fullPath safePath).
    apply Permutation_map, sort_perm. }
  assert (∀ nm, nm ∈ map name all ↔
                ∃ e, e ∈ entries ∧ kept fs fullPath search e ∧ d_name e = nm) as Hnames.
  { intros nm.
    assert (map name all = map fst (map (λ i, (name i, type i)) all)) as ->
      by (by rewrite map_map).
    rewrite Hperm, map_map. cbn [fst].
    change (map (λ e, d_name e) ?l) with (d_name <$> l).
    rewrite list_elem_of_fmap. split.
    - intros (e & -> & [Hk He]%list_elem_of_filter). by exists e.
    - intros (e & He & Hk & <-). exists e. split; [done|]. by apply list_elem_of_filter. }
  split.
  { exists all. split; [done|]. split.
    { rewrite slice_nat by nia. do 2 f_equal; lia. }
    split; [done|]. split.
    - intros e He Hfail [e' (_ & [Hok _] & Hsame)]%Hnames.
      apply Hfail. unfold statOk. by rewrite <- Hsame.
    - intros e He Hok Hvis. apply Hnames. exists e.
      split; [done|]. split; [by split|done]. }
  assert (Hsame : (visitEntries fs fullPath safePath search entries).1 =
                  (visitEntries fs fullPath safePath search (filter statOk entries)).1).
  { rewrite !visitEntries_flat. simpl. clear Hl Hperm Hnames all.
    induction entries as [|e es IH]; [done|].
    rewrite filter_cons. simpl. destruct (decide (statOk e)) as [Hok|Hok].
    - simpl. by rewrite IH.
    - rewrite visitEntry_failed; [done|].
      unfold statOk in Hok. by destruct (stat fs _); [destruct Hok; eexists|]. }
  split; [unfold all; by rewrite Hsame|]. split.
  { unfold all. rewrite sort_length.
    rewrite <- (length_map (λ i, (name i, type i))), visitEntries_items.
    by rewrite length_map. }
  intros e He Hfail. rewrite visitEntries_flat. cbn [snd].
  apply list_elem_of_In, in_or_app. right.
  apply in_flat_map. exists e. split; [by apply list_elem_of_In|].
  rewrite visitEntry_failed.
  - right. by left.
  - unfold statOk in Hfail. by destruct (stat fs _); [destruct Hfail; eexists|].
Qed.

(** C10: a page past the end (offset at or beyond the total) of a
    listing that succeeds still succeeds: no entries, [hasMore] false,
    and the total is the full count of the entries of the listing. *)
Theorem C10_page_past_end (q : Query) entries :
  lists root cwd fs (orDefault (q_path q) [SLASH]) entries →
  let pg := safePage (parseInt (orDefault (q_page q) (js "1"))) in
  let lim := safeLimit (parseInt (orDefault (q_limit q) (js "20"))) in
  let fullPath := join2 root (stripDotDots (normalize (orDefault (q_path q) [SLASH]))) in
  let count := Z.of_nat (length (filter (kept fs fullPath (orDefault (q_search q) []))
                                        entries)) in
  count <= (pg - 1) * lim →
  (GET root cwd fs q).1 =
    {| status := 200;
       body := {| files := []; total := count; page := pg; hasMore := false;
                  error := None |} |}.
Proof.
  intros Hl pg lim fullPath count Hpast.
  pose proof (safeLimit_range (parseInt (orDefault (q_limit q) (js "20")))) as Hlim.
  pose proof (safePage_range (parseInt (orDefault (q_page q) (js "1")))) as Hpg.
  fold lim in Hlim. fold pg in Hpg.
  unfold GET. rewrite (handle_lists _ _ _ _ _ _ _ _ Hl).
  cbn [fst snd body status paginate files total hasMore error page].
  fold pg lim fullPath. set (all := sort _).
  assert (Hcount : Z.of_nat (length all) = count).
  { unfold all, count. rewrite sort_length.
    rewrite <- (length_map (λ i, (name i, type i))), visitEntries_items.
    by rewrite length_map. }
  unfold paginate. rewrite Hcount. do 2 f_equal.
  - rewrite slice_nat by nia. rewrite drop_ge by lia. by rewrite take_nil.
  - apply Z.ltb_ge. lia.
Qed.

End ListingProperties.

Section ListingExamples.
Import JS Path Listing Order Demo.

#[local] Ltac compute_it := vm_compute; (reflexivity || discriminate || done).

Lemma dataFS_lists : lists (js "/data") (js "/") dataFS (js "/") dataDir.
Proof.
  split; [compute_it|]. split; [compute_it|]. split; [|compute_it].
  eexists. split; [vm_compute; reflexivity|reflexivity].
Defined.

(** The spec's example: [/data] holds [docs/], [a.txt], [b.txt]; the
    first page of two entries is [docs], [a.txt] out of three, with more
    to come. *)
Example list_data_page1 :
  let reply := (GET (js "/data") (js "/") dataFS (query "/" "1" "2")).1 in
  map name (files (body reply)) = [js "docs"; js "a.txt"]
  ∧ total (body reply) = 3 ∧ hasMore (body reply) = true.
Proof. by vm_compute. Qed.

Lemma C3_witness :
  let pageFiles (p : nat) :=
    files (body (handle (js "/data") (js "/") dataFS (js "/")
                        (safePage (Some (Z.of_nat p))) (safeLimit (Some 2)) []).1) in
  let all := concat (map pageFiles (seq 1 2)) in
  let fullPath := join2 (js "/data") (stripDotDots (normalize (js "/"))) in
  map (λ i, (name i, type i)) all
    ≡ₚ map (λ e, (d_name e, typeOf e)) (filter (kept dataFS fullPath []) dataDir)
  ∧ StronglySorted listedBefore all
  ∧ ∀ p, (2 < p)%nat → pageFiles p = [].
Proof.
  apply (C3_pages_reconstruct_listing (js "/data") (js "/") dataFS
           (js "/") [] (Some 2) dataDir 2 dataFS_lists).
  compute_it.
Defined.

(** C3 as stated fails on a directory with a dangling link: [ghost] is a
    non-hidden child matching the empty search, yet no page holds it. *)
Lemma C3_counterexample :
  let pageFiles (p : nat) :=
    files (body (handle (js "/data") (js "/") dataFS (js "/")
                        (safePage (Some (Z.of_nat p))) (safeLimit (Some 2)) []).1) in
  js "ghost" ∈ map d_name (filter (visible []) dataDir)
  ∧ ¬ (js "ghost" ∈ map name (concat (map pageFiles (seq 1 3))))
  ∧ ¬ (map name (concat (map pageFiles (seq 1 3)))
         ≡ₚ map d_name (filter (visible []) dataDir)).
Proof.
  intros pageFiles. split; [|split].
  - apply list_elem_of_In. vm_compute. auto.
  - intros Hin. apply list_elem_of_In in Hin. vm_compute in Hin.
    repeat (destruct Hin as [Hin|Hin]; [discriminate|]). done.
  - intros Hp. apply Permutation_length in Hp. vm_compute in Hp. discriminate.
Qed.

Lemma C4_witness :
  let reply := (GET (js "/data") (js "/") dataFS (query "/" "1" "20")).1 in
  total (body reply) < 20 ∧ hasMore (body reply) = false.
Proof.
  intros reply.
  assert (total (body reply) < 20) as Hsmall by compute_it.
  split; [exact Hsmall|].
  destruct (C4_page_window (js "/data") (js "/") dataFS (query "/" "1" "20"))
    as (_ & _ & _ & _ & _ & H).
  destruct H as (entries & _ & _ & _ & _ & H); [compute_it|].
  apply H. exact Hsmall.
Defined.

(** C4 as stated fails for a limit above the cap: 102 entries are asked
    of a directory of 101, yet page 1 holds 100 and announces more. *)
Lemma C4_counterexample :
  let reply := (GET (js "/data") (js "/") (manyFS 101) (query "/" "1" "102")).1 in
  parseInt (js "102") = Some 102
  ∧ status reply = 200
  ∧ total (body reply) = 101
  ∧ hasMore (body reply) = true
  ∧ length (files (body reply)) = 100%nat.
Proof. by vm_compute. Qed.

Lemma C9_witness :
  let q := query "/" "1" "20" in
  let fullPath := join2 (js "/data") (stripDotDots (normalize (js "/"))) in
  let reply := (GET (js "/data") (js "/") dataFS q).1 in
  let events := (GET (js "/data") (js "/") dataFS q).2 in
  dirent "ghost" KOther ∈ dataDir
  ∧ stat dataFS (join2 fullPath (js "ghost")) = None
  ∧ status reply = 200
  ∧ error (body reply) = None
  ∧ EvWarn (js "Failed to stat " ++ join2 fullPath (js "ghost") ++ js ":") ∈ events
  ∧ ∃ all : list FileItem,
      files (body reply) = take 20 (drop 0 all)
      ∧ total (body reply) = Z.of_nat (length all)
      ∧ (js "ghost" ∉ map name all)
      ∧ js "a.txt" ∈ map name all.
Proof.
  intros q fullPath reply events.
  assert (dirent "ghost" KOther ∈ dataDir) as Hin.
  { apply list_elem_of_In. vm_compute. auto. }
  assert (stat dataFS (join2 fullPath (js "ghost")) = None) as Hfail by compute_it.
  assert (dirent "a.txt" KFile ∈ dataDir) as Hin'.
  { apply list_elem_of_In. vm_compute. auto. }
  split; [exact Hin|]. split; [exact Hfail|].
  destruct (C9_stat_failure_skips_entry (js "/data") (js "/") dataFS q dataDir
              dataFS_lists) as (H200 & Hnoerr & (all & _ & Hfiles & Htotal & Hout & Hkept)
                                & _ & _ & Hwarn).
  split; [exact H200|]. split; [exact Hnoerr|]. split.
  - apply (Hwarn _ Hin). intros [st Hst]. vm_compute in Hst. discriminate Hst.
  - exists all. split; [exact Hfiles|]. split; [exact Htotal|]. split.
    + apply (Hout _ Hin). intros [st Hst]. vm_compute in Hst. discriminate Hst.
    + apply (Hkept _ Hin'); [by vm_compute; eexists|].
      split; [reflexivity|by left].
Defined.

Lemma C10_witness :
  (GET (js "/data") (js "/") dataFS (query "/" "3" "2")).1 =
    {| status := 200;
       body := {| files := []; total := 3; page := 3; hasMore := false;
                  error := None |} |}.
Proof.
  apply (C10_page_past_end (js "/data") (js "/") dataFS (query "/" "3" "2")
           dataDir dataFS_lists).
  compute_it.
Defined.

End ListingExamples.

Section ListingConfinement.
Import JS Path Listing.
Context {L : Locale}.

Lemma getStaticFilesRoot_nonempty envRoot : getStaticFilesRoot envRoot ≠ [].
Proof. by destruct envRoot as [[|c s]|]. Qed.

(** C1: whatever path a listing request carries, the handler's prefix
    test on the resolved paths accepts exactly the targets that lie at
    or below the sandbox root, segment by segment (a sibling such as
    [/data-evil] for the root [/data] is never a target that passes);
    a target outside the root is answered with the invalid-path error
    after the root was probed and before any [stat] or [readdir]; a
    target inside is the one the handler goes on to read; and every
    path the handler hands to [readdir] or [stat] resolves to the root
    or below it. *)
Theorem C1_listing_stays_in_root
    (envRoot : option jsstring) (cwd : jsstring) (fs : ReadFS) (q : Query) :
  let root := getStaticFilesRoot envRoot in
  let fullPath :=
    join2 root (stripDotDots (normalize (orDefault (q_path q) [SLASH]))) in
  let inside := key cwd root `prefix_of` key cwd fullPath in
  let reply := (GET root cwd fs q).1 in
  let events := (GET root cwd fs q).2 in
  (startsWith (resolve cwd fullPath) (resolve cwd root) = true ↔ inside)
  ∧ (access fs root = true → ¬ inside →
     status reply = 400 ∧ error (body reply) = Some (js "Invalid path")
     ∧ files (body reply) = [] ∧ events = [EvAccess root])
  ∧ (access fs root = true → inside →
     ∃ rest, events = EvAccess root :: EvStat fullPath :: rest)
  ∧ (∀ p, EvReaddir p ∈ events → p = fullPath ∧ inside)
  ∧ ((∀ d es e, readdir fs d = Some es → e ∈ es → validName (d_name e)) →
     ∀ p, EvStat p ∈ events → key cwd root `prefix_of` key cwd p).
Proof.
  intros root fullPath inside reply events.
  pose proof (guard_decides cwd root (getStaticFilesRoot_nonempty envRoot)
                (orDefault (q_path q) [SLASH])) as Hguard.
  cbn zeta in Hguard. fold root fullPath inside in Hguard.
  split; [exact Hguard|].
  unfold reply, events, GET, handle. fold root fullPath.
  set (pg := safePage _). set (lim := safeLimit _). set (search := orDefault (q_search q) []).
  set (safePath := stripDotDots _) in *.
  destruct (access fs root) eqn:Hacc; cbn [negb].
  2:{ split; [done|]. split; [done|]. split.
      - intros p [[=]|[[=]|[]%elem_of_nil]%elem_of_cons]%elem_of_cons.
      - intros _ p [[=]|[[=]|[]%elem_of_nil]%elem_of_cons]%elem_of_cons. }
  destruct (startsWith (resolve cwd fullPath) (resolve cwd root)) eqn:Hstarts; cbn [negb].
  2:{ split; [done|]. split.
      - intros _ Hin. apply Hguard in Hin. congruence.
      - split.
        + intros p [[=]|[]%elem_of_nil]%elem_of_cons.
        + intros _ p [[=]|[]%elem_of_nil]%elem_of_cons. }
  assert (inside) as Hin by by apply Hguard.
  split; [by intros _ []|].
  destruct (stat fs fullPath) as [dirStats|] eqn:Hstat.
  2:{ split; [by eexists|]. split.
      - intros p [[=]|[[=]|[[=]|[]%elem_of_nil]%elem_of_cons]%elem_of_cons]%elem_of_cons.
      - intros _ p [[=]|[[= <-]|[[=]|[]%elem_of_nil]%elem_of_cons]%elem_of_cons]%elem_of_cons.
        exact Hin. }
  destruct (isDirectory dirStats); cbn [negb].
  2:{ split; [by eexists|]. split.
      - intros p [[=]|[[=]|[]%elem_of_nil]%elem_of_cons]%elem_of_cons.
      - intros _ p [[=]|[[= <-]|[]%elem_of_nil]%elem_of_cons]%elem_of_cons.
        exact Hin. }
  destruct (readdir fs fullPath) as [entries|] eqn:Hrd.
  2:{ split; [by eexists|]. split.
      - intros p [[=]|[[=]|[[= <-]|[[=]|[]%elem_of_nil]%elem_of_cons]%elem_of_cons]%elem_of_cons]%elem_of_cons.
        done.
      - intros _ p [[=]|[[= <-]|[[=]|[[=]|[]%elem_of_nil]%elem_of_cons]%elem_of_cons]%elem_of_cons]%elem_of_cons.
        exact Hin. }
  cbn [fst snd]. split; [by eexists|]. split.
  - intros p [[=]|[[=]|[[= <-]|Hev]%elem_of_cons]%elem_of_cons]%elem_of_cons; [done|].
    apply visitEntries_events in Hev as (e & _ & [[=]|[=]]).
  - intros Hnames p [[=]|[[= <-]|[[=]|Hev]%elem_of_cons]%elem_of_cons]%elem_of_cons;
      [exact Hin|].
    apply visitEntries_events in Hev as (e & He & [[= ->]|[=]]).
    rewrite key_child; [|apply join2_nonempty|by eapply Hnames].
    etrans; [exact Hin|]. by eexists.
Qed.

End ListingConfinement.

Section ListingConfinementExamples.
Import JS Path Listing Demo.

Lemma dataFS_names d es e :
  readdir dataFS d = Some es → e ∈ es → validName (d_name e).
Proof.
  simpl. destruct (bool_decide _); [|done]. intros [= <-] He.
  apply list_elem_of_In in He.
  repeat (destruct He as [<-|He];
          [split; [by repeat split|];
           intros Hs; apply list_elem_of_In in Hs; vm_compute in Hs;
           repeat (destruct Hs as [Hs|Hs]; [discriminate|]); done|]).
  done.
Qed.

Lemma C1_witness :
  let events := (GET (js "/data") (js "/") dataFS (query "../" "1" "20")).2 in
  EvStat (js "/data/b.txt") ∈ events
  ∧ key (js "/") (js "/data") `prefix_of` key (js "/") (js "/data/b.txt").
Proof.
  intros events.
  assert (EvStat (js "/data/b.txt") ∈ events) as Hin.
  { apply list_elem_of_In. vm_compute. do 3 right. by left. }
  split; [exact Hin|].
  pose proof (C1_listing_stays_in_root (Some (js "/data")) (js "/") dataFS
                (query "../" "1" "20")) as (_ & _ & _ & _ & H).
  exact (H dataFS_names _ Hin).
Defined.

(** For the root [/data]: a request for the parent is refused before
    anything is read; a request that climbs towards the sibling
    [/data-evil] is scrubbed into [/data/data-evil], inside the root. *)
Example list_parent_refused :
  GET (js "/data") (js "/") dataFS (query ".." "1" "20") =
    ({| status := 400; body := errorBody 1 (js "Invalid path") |},
     [EvAccess (js "/data")]).
Proof. by vm_compute. Qed.

Example list_sibling_scrubbed :
  join2 (js "/data") (stripDotDots (normalize (js "../data-evil")))
    = js "/data/data-evil"
  ∧ join2 (js "/data") (stripDotDots (normalize (js "/../data-evil")))
    = js "/data/data-evil"
  ∧ join2 (js "/data") (stripDotDots (normalize (js "..\../data-evil")))
    = js "/data/data-evil".
Proof. by vm_compute. Qed.

(** The string test by itself would let the sibling through; that no
    request reaches it is the work of the scrub before the join. *)
Example startsWith_sibling :
  startsWith (js "/data-evil") (js "/data") = true.
Proof. reflexivity. Qed.

End ListingConfinementExamples.

Section ListingErrors.
Import JS Path Listing Demo.
Context {L : Locale}.

(** C8 (amended): a listing request that ends in an error carries one
    of four messages.  [Invalid path] and [Path is not a directory] are
    fixed texts without a separator, so they contain neither the
    resolved sandbox root nor any other absolute path.  The other two
    spell out the sandbox location: [Root directory not found: ]
    followed by the configured root when the root cannot be accessed,
    and [Directory not accessible: ] followed by the root joined with
    the requested path when the target cannot be read. *)
Theorem C8_error_messages (root cwd : jsstring) (fs : ReadFS) (q : Query) msg :
  error (body (GET root cwd fs q).1) = Some msg →
  let fullPath :=
    join2 root (stripDotDots (normalize (orDefault (q_path q) [SLASH]))) in
  ((msg = js "Invalid path" ∨ msg = js "Path is not a directory")
   ∧ includes msg (resolve cwd root) = false
   ∧ includes msg [SLASH] = false)
  ∨ (msg = js "Root directory not found: " ++ root
     ∧ access fs root = false ∧ includes msg root = true)
  ∨ (msg = js "Directory not accessible: " ++ fullPath
     ∧ access fs root = true ∧ includes msg fullPath = true).
Proof.
  intros Hmsg fullPath. revert Hmsg. unfold GET, handle. fold fullPath.
  assert (includes (js "Root directory not found: " ++ root) root = true) as Hroot.
  { apply includes_suffix. }
  assert (includes (js "Directory not accessible: " ++ fullPath) fullPath = true) as Hleak.
  { apply includes_suffix. }
  assert (∀ a b : jsstring, Some a = Some b → b = a) as Hsome by congruence.
  destruct (access fs root) eqn:Hacc; cbn [negb].
  2:{ intros ->%Hsome. right. left. by split. }
  destruct (startsWith (resolve cwd fullPath) (resolve cwd root)); cbn [negb].
  2:{ intros ->%Hsome. left. split; [by left|]. by split. }
  destruct (stat fs fullPath) as [dirStats|].
  2:{ intros ->%Hsome. right. right. by split. }
  destruct (isDirectory dirStats); cbn [negb].
  2:{ intros ->%Hsome. left. split; [by right|]. by split. }
  destruct (readdir fs fullPath) as [entries|].
  - intros [=].
  - intros ->%Hsome. right. right. by split.
Qed.

End ListingErrors.

Section ListingErrorExamples.
Import JS Path Listing Demo.

Lemma C8_witness :
  let msg := js "Directory not accessible: /data/ghost" in
  (msg = js "Directory not accessible: " ++ js "/data/ghost"
   ∧ access dataFS (js "/data") = true
   ∧ includes msg (js "/data/ghost") = true).
Proof.
  intros msg.
  destruct (C8_error_messages (js "/data") (js "/") dataFS (query "/ghost" "1" "20")
              msg) as [([H|H] & _)|[(H & _)|H]];
    [by vm_compute|discriminate H..|exact H].
Defined.

(** C8 as stated fails: with the sandbox root missing, the reply names
    the root; with an unreadable target, it names the absolute path of
    the target. *)
Lemma C8_counterexample :
  error (body (GET (js "/srv/secret/files") (js "/") emptyFS (query "/" "1" "20")).1)
    = Some (js "Root directory not found: /srv/secret/files")
  ∧ includes (js "Root directory not found: /srv/secret/files")
             (js "/srv/secret/files") = true
  ∧ error (body (GET (js "/data") (js "/") dataFS (query "/ghost" "1" "20")).1)
    = Some (js "Directory not accessible: /data/ghost")
  ∧ includes (js "Directory not accessible: /data/ghost") (js "/data") = true.
Proof. by vm_compute. Qed.

End ListingErrorExamples.

Section UploadProperties.
Import JS Path FS Upload.
Context {L : Locale}.
Variables (root : jsstring) (allowed : list jsstring) (maxSize : Z) (cwd : jsstring).


(** C6 (amended): the batch.  With at least one file and enough rounds
    for the searches, the reply is the 200 summary; it holds one result per
    file, in order, under the file's original name; a file over the size
    limit gets the size error, a file within the limit whose extension
    is not allowed gets the type error, a stored file gets its final
    name and no error, any other file an error and no name; the counts
    are the number of successes and the rest; and taking a file that the
    checks turn away out of the batch changes neither the results of the
    others nor the tree. *)
Theorem C6_batch_outcomes (t : tree) (files : list UploadFile)
    (pathField : option jsstring) (fuel : nat) :
  files ≠ [] →
  let targetPath := orDefault pathField [SLASH] in
  let ext (f : UploadFile) := toLowerCase (slice1 (extname (f_name f))) in
  let post := POST root allowed maxSize cwd fuel in
  (size t + length files * (length (key cwd (join2 root targetPath)) + 1) + 2 <= fuel)%nat →
  ∃ rs t',
    post t files pathField = Some (Ok200 (summarize rs), t')
    ∧ length rs = length files
    ∧ (∀ i f, files !! i = Some f →
         ∃ r, rs !! i = Some r
           ∧ r_name r = f_name f
           ∧ (maxSize < f_size f → r = rejected f FileTooLarge)
           ∧ (f_size f <= maxSize → ¬ (ext f ∈ allowed) → r = rejected f DisallowedType)
           ∧ (success r = true → is_Some (savedAs r) ∧ r_error r = None)
           ∧ (success r = false → savedAs r = None ∧ is_Some (r_error r)))
    ∧ successCount (summarize rs)
        = Z.of_nat (length (filter (λ r, success r = true) rs))
    ∧ successCount (summarize rs) + failCount (summarize rs) = Z.of_nat (length files)
    ∧ (∀ fs1 f fs2,
         files = fs1 ++ f :: fs2 → fs1 ++ fs2 ≠ [] →
         maxSize < f_size f ∨ ¬ (ext f ∈ allowed) →
         ∃ rs1 e rs2,
           rs = rs1 ++ rejected f e :: rs2 ∧ length rs1 = length fs1
           ∧ post t (fs1 ++ fs2) pathField = Some (Ok200 (summarize (rs1 ++ rs2)), t')).
Proof.
  intros Hfiles targetPath ext post Hfuel.
  destruct (uploadAll_total root allowed maxSize cwd fuel targetPath t files Hfuel)
    as [[rs t'] Hall].
  exists rs, t'.
  assert (length rs = length files) as Hlen by by eapply uploadAll_length.
  split; [|split; [done|split; [|split; [done|split]]]].
  - unfold post, POST. fold targetPath. rewrite Hall. by destruct files.
  - intros i f Hf.
    destruct (uploadAll_lookup _ _ _ _ _ _ _ _ _ _ _ _ Hall Hf)
      as (r & ti & ti' & Hr & Hone & _).
    exists r. split; [done|].
    apply uploadOne_cases in Hone. fold ext in Hone. fold (ext f) in Hone.
    destruct Hone as [(Hbig & -> & _)|[(Hsmall & Hext & -> & _)|(Hsmall & Hext & Hrest)]].
    + split; [done|]. split; [done|]. split; [lia|]. split; [done|].
      intros _. split; [done|by eexists].
    + split; [done|]. split; [lia|]. split; [done|]. split; [done|].
      intros _. split; [done|by eexists].
    + assert (r_name r = f_name f
              ∧ (success r = true → is_Some (savedAs r) ∧ r_error r = None)
              ∧ (success r = false → savedAs r = None ∧ is_Some (r_error r)))
        as (Hname & Hgood & Hbad).
      { destruct Hrest as [(_ & -> & _)|(t1 & P & _ & _ & [(_ & -> & _)|(_ & ->)])];
          simpl; (split; [done|]); split; try done;
          intros _; split; by eauto. }
      split; [done|]. split; [lia|]. split; [done|]. by split.
  - unfold summarize. simpl. lia.
  - intros fs1 f fs2 -> Hrest Hbad.
    destruct (uploadAll_without _ _ _ _ _ _ _ _ _ _ _ _ Hbad Hall)
      as (rs1 & e & rs2 & -> & Hl1 & Hwithout).
    exists rs1, e, rs2. split; [done|]. split; [done|].
    unfold post, POST. fold targetPath. rewrite Hwithout.
    by destruct (fs1 ++ fs2).
Qed.

End UploadProperties.

Section ArchiveProperties.
Import JS Path FS Archive.
Variables (root cwd : jsstring) (t : tree).

(** C7 (amended): a request with at least one path yields an archive.
    The listed paths are taken in the order of the request, each on
    its own.  A path that the sandbox root joined with it does not
    let [fs.stat] find is skipped with a warning and the round goes
    on; a regular file is handed to the archiver as a file and a
    directory as a directory to be added recursively, in both cases
    under the listed path without its leading separator (for a path
    directly under the root, its final segment).  The file entries of
    the archive are then those of the paths that were found: one for a
    regular file, with its content, and for a directory one per regular
    file below it, at any depth, and no other, named by the name handed
    over followed by the file's path relative to the directory. *)
Theorem C7_archive_entries (paths : list jsstring) :
  paths ≠ [] →
  ∃ entries warnings,
    POST root cwd t paths = Zip entries warnings
    ∧ entries = flat_map (λ p, (addPath root cwd t p).1) paths
    ∧ warnings = flat_map (λ p, (addPath root cwd t p).2) paths
    ∧ (∀ p,
        let full := join2 root p in
        let nm := if startsWith p [SLASH] then slice1 p else p in
        let k := key cwd full in
        (statPath cwd t full = None →
           visitPath root cwd t p = inr full
           ∧ addPath root cwd t p = ([], [full]))
        ∧ (∀ data, statPath cwd t full = Some (File data) →
             visitPath root cwd t p = inl (AddFile full nm)
             ∧ addPath root cwd t p =
                 ([ {| e_name := nm; e_source := k; e_data := data |} ], []))
        ∧ (statPath cwd t full = Some Dir →
             visitPath root cwd t p = inl (AddDirectory full nm)
             ∧ (addPath root cwd t p).2 = []
             ∧ ∀ e, e ∈ (addPath root cwd t p).1 ↔
                 ∃ rel data,
                   statNode t (k ++ rel) = Some (File data)
                   ∧ e = {| e_name := match nm with
                                      | [] => join [SLASH] rel
                                      | _ => nm ++ [SLASH] ++ join [SLASH] rel
                                      end;
                            e_source := k ++ rel;
                            e_data := data |}))
    ∧ (∀ ps1 p ps2,
         paths = ps1 ++ p :: ps2 → statPath cwd t (join2 root p) = None →
         join2 root p ∈ warnings
         ∧ entries = flat_map (λ p, (addPath root cwd t p).1) (ps1 ++ ps2)).
Proof.
  intros Hpaths. eexists _, _. split; [|split; [done|split; [done|split]]].
  { unfold POST. rewrite addFilesToArchive_flat. by destruct paths. }
  - intros p full nm k. unfold addPath, visitPath. fold full nm k.
    split; [by intros ->|]. split.
    { intros data Hst. rewrite Hst. cbn [fileEntries]. by rewrite Hst. }
    intros ->. split; [done|]. split; [done|]. cbn [fst fileEntries]. fold k. intros e.
    unfold directoryEntries. rewrite list_elem_of_fmap. split.
    + intros ([rel data] & -> & Hin%filesBelow_elem). by exists rel, data.
    + intros (rel & data & Hst & ->). exists (rel, data).
      split; [done|]. by apply filesBelow_elem.
  - intros ps1 p ps2 -> Hnone.
    assert (addPath root cwd t p = ([], [join2 root p])) as Hskip.
    { unfold addPath, visitPath. by rewrite Hnone. }
    rewrite !flat_map_app. cbn [flat_map]. rewrite Hskip. cbn [fst snd app].
    split; [|done].
    rewrite !elem_of_app, elem_of_cons. right. by left.
Qed.

End ArchiveProperties.

Section UploadArchiveExamples.
Import JS Path FS Demo.

#[local] Ltac compute_it := vm_compute; (reflexivity || discriminate || done).

(** The spec's batch of three: one file over the limit, one with an
    extension that is not allowed, one stored next to an existing file
    of the same name. *)
Example upload_batch_of_three :
  let reply := Upload.POST (js "/data") Upload.defaultAllowedExtensions 4 (js "/") 20
                 dataTree
                 [payload "big.txt" "123456"; payload "run.exe" "x"; payload "a.txt" "new"]
                 (Some (js "/")) in
  fst <$> reply =
    Some (Upload.Ok200
            {| Upload.results :=
                 [Upload.rejected (payload "big.txt" "123456") Upload.FileTooLarge;
                  Upload.rejected (payload "run.exe" "x") Upload.DisallowedType;
                  Upload.stored (payload "a.txt" "new") (js "a_(1).txt")];
               Upload.successCount := 1;
               Upload.failCount := 2 |})
  ∧ (snd <$> reply) ≫= (λ t', t' !! [js "data"; js "a.txt"]) = Some (File (js "old"))
  ∧ (snd <$> reply) ≫= (λ t', t' !! [js "data"; js "a_(1).txt"]) = Some (File (js "new")).
Proof. by vm_compute. Qed.

Lemma C6_witness :
  ∃ rs t',
    Upload.POST (js "/data") Upload.defaultAllowedExtensions 4 (js "/") 20 dataTree
      [payload "big.txt" "123456"; payload "run.exe" "x"; payload "a.txt" "new"]
      (Some (js "/")) = Some (Upload.Ok200 (Upload.summarize rs), t')
    ∧ length rs = 3%nat.
Proof.
  destruct (C6_batch_outcomes (js "/data") Upload.defaultAllowedExtensions 4 (js "/")
              dataTree
              [payload "big.txt" "123456"; payload "run.exe" "x"; payload "a.txt" "new"]
              (Some (js "/")) 20) as (rs & t' & Hpost & Hlen & _);
    [done|vm_compute; lia|].
  exists rs, t'. split; [exact Hpost|exact Hlen].
Defined.

(** C6 as stated fails on a file that is both too large and of a type
    that is not allowed: the size check comes first, so the result
    carries the size error and not the type error; and a batch without
    files is answered with the 400 error, not with a summary. *)
Lemma C6_counterexample :
  let f := payload "big.exe" "123456" in
  ¬ (toLowerCase (slice1 (extname (Upload.f_name f))) ∈ Upload.defaultAllowedExtensions)
  ∧ fst <$> Upload.POST (js "/data") Upload.defaultAllowedExtensions 4 (js "/") 20
              dataTree [f] (Some (js "/"))
    = Some (Upload.Ok200
              {| Upload.results := [Upload.rejected f Upload.FileTooLarge];
                 Upload.successCount := 0; Upload.failCount := 1 |})
  ∧ Upload.rejected f Upload.FileTooLarge ≠ Upload.rejected f Upload.DisallowedType
  ∧ Upload.POST (js "/data") Upload.defaultAllowedExtensions 4 (js "/") 20
      dataTree [] (Some (js "/"))
    = Some (Upload.NoFiles400, dataTree).
Proof.
  split; [|split; [by vm_compute|split; [done|done]]].
  intros Hin. apply list_elem_of_In in Hin. vm_compute in Hin.
  repeat (destruct Hin as [Hin|Hin]; [discriminate|]). done.
Qed.


Example upload_names :
  Upload.safeName (js "a b/c.tar.gz") = js "a_b_c.tar.gz"
  ∧ Upload.numbered (js "a_b_c.tar.gz") 2 = js "a_b_c.tar_(2).gz"
  ∧ Upload.numbered (js "README") 1 = js "README_(1)"
  ∧ Upload.numbered (js ".bashrc") 1 = js ".bashrc_(1)".
Proof. by vm_compute. Qed.

(** C2 at a failing input.  With the root [/data], an upload whose path
    field is [../outside] is stored in [/outside/a.txt], and an archive
    request for [../secret.txt] reads [/secret.txt]: neither route
    checks the joined path against the root, as the listing route
    does. *)
Theorem C2_containment_missing :
  let reply := Upload.POST (js "/data") Upload.defaultAllowedExtensions 4 (js "/") 20
                 dataTree [payload "a.txt" "x"] (Some (js "../outside")) in
  fst <$> reply =
    Some (Upload.Ok200
            {| Upload.results := [Upload.stored (payload "a.txt" "x") (js "a.txt")];
               Upload.successCount := 1; Upload.failCount := 0 |})
  ∧ (snd <$> reply) ≫= (λ t', t' !! [js "outside"; js "a.txt"]) = Some (File (js "x"))
  ∧ key (js "/") (join2 (js "/data") (js "../outside")) = [js "outside"]
  ∧ ¬ (key (js "/") (js "/data") `prefix_of` [js "outside"; js "a.txt"])
  ∧ Archive.POST (js "/data") (js "/") dataTree [js "../secret.txt"]
    = Archive.Zip [ {| Archive.e_name := js "../secret.txt";
                       Archive.e_source := [js "secret.txt"];
                       Archive.e_data := js "key" |} ] []
  ∧ ¬ (key (js "/") (js "/data") `prefix_of` [js "secret.txt"]).
Proof.
  split; [by vm_compute|]. split; [by vm_compute|]. split; [by vm_compute|].
  split; [intros [rest E]; vm_compute in E; discriminate|].
  split; [by vm_compute|].
  intros [rest E]. vm_compute in E. discriminate.
Qed.

(** The spec's archive example, and the same request once [fileA] is
    gone. *)
Example archive_file_and_directory :
  ∃ entries,
    Archive.POST (js "/data") (js "/") dataTree [js "/fileA"; js "/dirB"]
      = Archive.Zip entries []
    ∧ Archive.e_name <$> entries ≡ₚ [js "fileA"; js "dirB/fileC"; js "dirB/fileD"].
Proof.
  eexists. split; [by vm_compute|]. simpl. constructor. apply Permutation_swap.
Qed.

Example archive_missing_file :
  ∃ entries,
    Archive.POST (js "/data") (js "/") dataTree [js "/gone"; js "/dirB"]
      = Archive.Zip entries [js "/data/gone"]
    ∧ Archive.e_name <$> entries ≡ₚ [js "dirB/fileC"; js "dirB/fileD"].
Proof.
  eexists. split; [by vm_compute|]. simpl. apply Permutation_swap.
Qed.

Lemma C7_witness :
  let fileC := {| Archive.e_name := js "dirB/fileC";
                  Archive.e_source := [js "data"; js "dirB"; js "fileC"];
                  Archive.e_data := js "C" |} in
  [js "/gone"; js "/dirB"] ≠ []
  ∧ statPath (js "/") dataTree (join2 (js "/data") (js "/gone")) = None
  ∧ statPath (js "/") dataTree (join2 (js "/data") (js "/dirB")) = Some Dir
  ∧ ∃ entries warnings,
      Archive.POST (js "/data") (js "/") dataTree [js "/gone"; js "/dirB"]
        = Archive.Zip entries warnings
      ∧ Archive.visitPath (js "/data") (js "/") dataTree (js "/gone")
        = inr (js "/data/gone")
      ∧ Archive.visitPath (js "/data") (js "/") dataTree (js "/dirB")
        = inl (Archive.AddDirectory (js "/data/dirB") (js "dirB"))
      ∧ fileC ∈ (Archive.addPath (js "/data") (js "/") dataTree (js "/dirB")).1.
Proof.
  intros fileC.
  assert (statPath (js "/") dataTree (join2 (js "/data") (js "/gone")) = None)
    as Hgone by compute_it.
  assert (statPath (js "/") dataTree (join2 (js "/data") (js "/dirB")) = Some Dir)
    as HdirB by compute_it.
  split; [done|]. split; [exact Hgone|]. split; [exact HdirB|].
  destruct (C7_archive_entries (js "/data") (js "/") dataTree [js "/gone"; js "/dirB"])
    as (entries & warnings & Hpost & _ & _ & Hround & _); [done|].
  exists entries, warnings. split; [exact Hpost|].
  destruct (Hround (js "/gone")) as ((Hcall & _)%(λ H, H Hgone) & _).
  destruct (Hround (js "/dirB")) as (_ & _ & (Hcall' & _ & Hin)%(λ H, H HdirB)).
  split; [exact Hcall|]. split; [exact Hcall'|].
  apply Hin. exists [js "fileC"], (js "C"). split; [compute_it|reflexivity].
Defined.

(** C7 as stated fails for a request without paths, which is answered
    with the 400 error, and for a directory that is not directly under
    the root: [/sub/inner] is handed to the archiver under the whole
    listed path, so that its entries are named after that path and not
    after its final segment [inner]. *)
Lemma C7_counterexample :
  Archive.POST (js "/data") (js "/") dataTree [] = Archive.NoPaths400
  ∧ Archive.visitPath (js "/data") (js "/") dataTree (js "/sub/inner")
    = inl (Archive.AddDirectory (js "/data/sub/inner") (js "sub/inner"))
  ∧ js "sub/inner" ≠ basename1 (js "/sub/inner")
  ∧ Archive.POST (js "/data") (js "/") dataTree [js "/sub/inner"]
    = Archive.Zip [ {| Archive.e_name := js "sub/inner/fileE";
                       Archive.e_source := [js "data"; js "sub"; js "inner"; js "fileE"];
                       Archive.e_data := js "E" |} ] []
  ∧ basename1 (js "/sub/inner") ++ [SLASH] ++ js "fileE" = js "inner/fileE"
  ∧ js "sub/inner/fileE" ≠ js "inner/fileE".
Proof. by vm_compute. Qed.

End UploadArchiveExamples.

(* ===================================================================== *)
(** * Part IV: further properties of the routes and of the explorer       *)
(* ===================================================================== *)

(** ** Decimal numbers in requests *)

Section Decimal.
Import JS.

Lemma digitValue_pretty (d : N) :
  (d < 10)%N → digitValue 10 (N_of_ascii (pretty_N_char d)) = Some (Z.of_N d).
Proof.
  intros Hd.
  assert (d ∈ [0; 1; 2; 3; 4; 5; 6; 7; 8; 9]%N) as Hin.
  { rewrite !elem_of_cons. lia. }
  rewrite !elem_of_cons in Hin.
  destruct Hin as [->|[->|[->|[->|[->|[->|[->|[->|[->|[->|Hin]]]]]]]]]];
    [reflexivity..|by apply elem_of_nil in Hin].
Qed.

Lemma js_cons a s : js (String a s) = N_of_ascii a :: js s.
Proof. reflexivity. Qed.

Lemma digits_pretty_go (x : N) (s : string) :
  (0 < x)%N →
  digits 10 None (js (pretty_N_go x s)) = digits 10 (Some (Z.of_N x)) (js s).
Proof.
  revert s. induction (N.lt_wf_0 x) as [x _ IH]. intros s Hx.
  rewrite pretty_N_go_step by done.
  assert (x `mod` 10 < 10)%N as Hm by (apply N.mod_lt; lia).
  assert (x = 10 * (x `div` 10) + x `mod` 10)%N as Hdm by (apply N.div_mod; lia).
  assert (x `div` 10 < x)%N as Hlt by (apply N.div_lt; lia).
  revert Hm Hdm Hlt. generalize (x `mod` 10)%N (x `div` 10)%N. intros r q Hm Hdm Hlt.
  destruct (decide (q = 0)%N) as [E|E].
  - rewrite E, pretty_N_go_0, js_cons. cbn [digits].
    rewrite digitValue_pretty by done. cbn [default].
    do 2 f_equal. lia.
  - rewrite IH; [|lia|lia].
    rewrite js_cons. cbn [digits]. rewrite digitValue_pretty by done. cbn [default].
    do 2 f_equal. unfold id. lia.
Qed.

Lemma digits_numberToString (n : nat) :
  digits 10 None (numberToString n) = Some (Z.of_nat n).
Proof.
  unfold numberToString, pretty, pretty_nat, pretty, pretty_N.
  destruct (decide _) as [E|E].
  - replace n with 0%nat by lia. reflexivity.
  - rewrite digits_pretty_go by lia.
    change (js EmptyString) with (@nil N). cbn [digits]. f_equal. lia.
Qed.

Lemma isDigit_range c : isDigit c = true → (48 <= c <= 57)%N.
Proof. unfold isDigit. intros [H1 H2]%andb_prop. apply N.leb_le in H1, H2. lia. Qed.

Lemma isDigit_not_white c : isDigit c = true → isWhite c = false.
Proof.
  unfold isDigit, isWhite. intros [H1 H2]%andb_prop.
  apply N.leb_le in H1, H2.
  repeat match goal with
         | |- context [(?a =? ?b)%N] => destruct (N.eqb_spec a b); [lia|]
         | |- context [(?a <=? ?b)%N] => destruct (N.leb_spec a b); try lia
         end; reflexivity.
Qed.

Lemma numberToString_cons n :
  ∃ c r, numberToString n = c :: r ∧ isDigit c = true ∧ Forall (λ c, isDigit c = true) r.
Proof.
  pose proof (numberToString_digits n) as H.
  pose proof (digits_numberToString n) as D.
  destruct (numberToString n) as [|c r]; [done|].
  apply Forall_cons in H as [? ?]. by exists c, r.
Qed.

Lemma parseInt_numberToString (n : nat) :
  parseInt (numberToString n) = Some (Z.of_nat n).
Proof.
  pose proof (digits_numberToString n) as D.
  destruct (numberToString_cons n) as (c & r & E & Hc & Hr).
  rewrite E in *. unfold parseInt.
  cbn [skipWhite]. rewrite (isDigit_not_white c Hc).
  assert ((c =? 45)%N = false ∧ (c =? 43)%N = false) as [-> ->].
  { apply isDigit_range in Hc. split; apply N.eqb_neq; lia. }
  assert ((match c :: r with
           | z :: x :: r0 =>
               if (z =? 48)%N && ((x =? 120)%N || (x =? 88)%N)
               then (16, r0) else (10, c :: r)
           | _ => (10, c :: r)
           end) = (10, c :: r)) as ->.
  { destruct r as [|x r0]; [done|].
    apply Forall_cons in Hr as [Hx _]. apply isDigit_range in Hx.
    assert ((x =? 120)%N = false ∧ (x =? 88)%N = false) as [-> ->]
      by (split; apply N.eqb_neq; lia).
    by rewrite andb_false_r. }
  rewrite D. f_equal. lia.
Qed.

Lemma parseInt10_numberToString (n : nat) :
  parseInt10 (numberToString n) = Some (Z.of_nat n).
Proof.
  pose proof (digits_numberToString n) as D.
  destruct (numberToString_cons n) as (c & r & E & Hc & Hr).
  rewrite E in *. unfold parseInt10.
  cbn [skipWhite]. rewrite (isDigit_not_white c Hc).
  assert ((c =? 45)%N = false ∧ (c =? 43)%N = false) as [-> ->].
  { apply isDigit_range in Hc. split; apply N.eqb_neq; lia. }
  rewrite D. f_equal. lia.
Qed.

End Decimal.

(** ** The replies of the listing route *)

Section ListingShape.
Import JS Path Listing Order.
Context {L : Locale}.
Variables (root cwd : jsstring) (fs : ReadFS).

(** A request either is turned away with an empty error body, or gets
    as far as reading the directory. *)
Lemma handle_cases requestedPath pg lim search :
  (∃ st msg,
      (handle root cwd fs requestedPath pg lim search).1
        = {| status := st; body := errorBody pg msg |}
      ∧ (st = 400 ∨ st = 404))
  ∨ (∃ entries, lists root cwd fs requestedPath entries).
Proof.
  unfold handle, lists.
  destruct (access fs root); [|left; eauto 10]. cbn [negb].
  destruct (startsWith _ _); [|left; eauto 10]. cbn [negb].
  destruct (stat fs _) as [st|]; [|left; eauto 10].
  destruct (isDirectory st) eqn:Hdir; [|left; eauto 10]. cbn [negb].
  destruct (readdir fs _) as [entries|]; [|left; eauto 10].
  right. exists entries. eauto 10.
Qed.

Lemma slice_sublist {A} (xs : list A) a b : slice xs a b `sublist_of` xs.
Proof.
  unfold slice. etrans; [apply sublist_take|apply sublist_drop].
Qed.

Lemma slice_length {A} (xs : list A) a b :
  0 <= a → a <= b →
  Z.of_nat (length (slice xs a b)) = Z.max 0 (Z.min (b - a) (Z.of_nat (length xs) - a)).
Proof.
  intros Ha Hb. rewrite slice_nat by done.
  rewrite length_take, length_drop. lia.
Qed.

Lemma visitEntries_elem fullPath safePath search entries item :
  item ∈ (visitEntries fs fullPath safePath search entries).1 →
  ∃ e, e ∈ entries ∧ item ∈ (visitEntry fs fullPath safePath search e).1.
Proof.
  rewrite visitEntries_flat. cbn [fst].
  rewrite list_elem_of_In, in_flat_map.
  intros (e & He & Hi). exists e. by rewrite !list_elem_of_In.
Qed.

End ListingShape.

Section ListingReplies.
Import JS Path Listing Order.
Context {L : Locale}.
Variables (root cwd : jsstring) (fs : ReadFS).

(** X1.  Every reply of the listing route has status 200, 400 or 404;
    it carries an error message exactly when the status is not 200, and
    then no entries, a total of zero and no further page.  The page
    number it echoes is 1 when the request names no page that can be
    read as a number, and otherwise the number read, raised to 1 when
    it is below (for numbers up to 2^53, which the runtime holds
    exactly). *)
Theorem listing_reply_shape (q : Query) :
  let reply := (GET root cwd fs q).1 in
  let asked := parseInt (orDefault (q_page q) (js "1")) in
  (status reply = 200 ∨ status reply = 400 ∨ status reply = 404)
  ∧ (error (body reply) = None ↔ status reply = 200)
  ∧ (status reply ≠ 200 →
     files (body reply) = [] ∧ total (body reply) = 0 ∧ hasMore (body reply) = false)
  ∧ (asked = None → page (body reply) = 1)
  ∧ (∀ p, asked = Some p → p <= maxExact → page (body reply) = Z.max 1 p).
Proof.
  intros reply asked. subst reply. unfold GET. fold asked.
  set (pg := safePage _). set (lim := safeLimit _).
  assert ((asked = None → pg = 1) ∧ (∀ p, asked = Some p → pg = Z.max 1 p)) as [Hnan Hnum].
  { unfold pg, safePage. destruct asked as [p|]; [|done].
    split; [done|]. intros ? [= <-]. destruct (Z.ltb_spec p 1); lia. }
  destruct (handle_cases root cwd fs (orDefault (q_path q) [SLASH]) pg lim
              (orDefault (q_search q) [])) as [(st & msg & -> & Hst)|[entries Hl]].
  - cbn [status body error files total hasMore page errorBody].
    repeat split; try done; try lia; try (intros ->; lia); auto.
  - rewrite (handle_lists _ _ _ _ pg lim _ _ Hl).
    cbn [fst status body error files total hasMore page paginate].
    repeat split; try done; auto.
Qed.

(** X2.  No reply carries more than 100 entries.  The number of
    entries on a page is what is left of the listing after the pages
    before it, capped by the page size; so a page that announces more
    is full. *)
Theorem listing_page_fill (q : Query) :
  let reply := (GET root cwd fs q).1 in
  let lim := safeLimit (parseInt (orDefault (q_limit q) (js "20"))) in
  let n := Z.of_nat (length (files (body reply))) in
  let offset := (page (body reply) - 1) * lim in
  n <= lim <= 100
  ∧ n = Z.max 0 (Z.min lim (total (body reply) - offset))
  ∧ hasMore (body reply) = bool_decide (offset + lim < total (body reply))
  ∧ (hasMore (body reply) = true → n = lim).
Proof.
  intros reply lim n offset. subst reply n offset. unfold GET. fold lim.
  set (pg := safePage _).
  pose proof (safePage_range (parseInt (orDefault (q_page q) (js "1")))) as Hpg.
  fold pg in Hpg.
  pose proof (safeLimit_range (parseInt (orDefault (q_limit q) (js "20")))) as Hlim.
  fold lim in Hlim.
  destruct (handle_cases root cwd fs (orDefault (q_path q) [SLASH]) pg lim
              (orDefault (q_search q) [])) as [(st & msg & -> & Hst)|[entries Hl]].
  - cbn [status body error files total hasMore page errorBody length].
    rewrite bool_decide_eq_false_2 by nia.
    repeat split; try done; try nia.
  - rewrite (handle_lists _ _ _ _ pg lim _ _ Hl).
    cbn [fst status body error files total hasMore page paginate].
    set (all := sort _).
    rewrite slice_length by nia.
    assert (0 <= (pg - 1) * lim) as Ho by nia.
    revert Ho. generalize ((pg - 1) * lim). intros o Ho.
    assert ((o + lim <? Z.of_nat (length all))
            = bool_decide (o + lim < Z.of_nat (length all))) as ->.
    { destruct (Z.ltb_spec (o + lim) (Z.of_nat (length all)));
        [by rewrite bool_decide_eq_true_2|by rewrite bool_decide_eq_false_2 by lia]. }
    repeat split; try lia.
    intros H%bool_decide_eq_true. lia.
Qed.

(** X3.  Moving to the next page neither changes the outcome of the
    request nor the total it reports, and a page announces more exactly
    when the next page holds at least one entry. *)
Theorem listing_next_page (requestedPath search : jsstring) (p l : number) :
  let pg := safePage p in
  let lim := safeLimit l in
  let reply := (handle root cwd fs requestedPath pg lim search).1 in
  let next := (handle root cwd fs requestedPath (pg + 1) lim search).1 in
  status next = status reply
  ∧ total (body next) = total (body reply)
  ∧ (hasMore (body reply) = true ↔ files (body next) ≠ []).
Proof.
  intros pg lim reply next. subst reply next.
  pose proof (safePage_range p) as Hpg. fold pg in Hpg.
  pose proof (safeLimit_range l) as Hlim. fold lim in Hlim.
  destruct (handle_cases root cwd fs requestedPath pg lim search)
    as [(st & msg & E & Hst)|[entries Hl]].
  - destruct (handle_cases root cwd fs requestedPath (pg + 1) lim search)
      as [(st' & msg' & E' & Hst')|[entries Hl]].
    + pose proof (handle_status_page root cwd fs requestedPath pg (pg + 1) lim search) as Hs.
      rewrite E, E' in *. cbn in *. repeat split; try done.
    + pose proof (handle_lists _ _ _ _ pg lim search _ Hl) as E'.
      cbn zeta in E'. rewrite E' in E. cbn in E. injection E as <- _. lia.
  - rewrite (handle_lists _ _ _ _ pg lim _ _ Hl).
    rewrite (handle_lists _ _ _ _ (pg + 1) lim _ _ Hl).
    cbn [fst status body error files total hasMore page paginate].
    set (all := sort _).
    split; [done|]. split; [done|].
    rewrite <- (length_zero_iff_nil (slice all _ _)).
    assert (Z.of_nat (length (slice all ((pg + 1 - 1) * lim) ((pg + 1 - 1) * lim + lim)))
            = Z.max 0 (Z.min lim (Z.of_nat (length all) - pg * lim))) as Hn.
    { rewrite slice_length by nia. f_equal. f_equal; lia. }
    destruct (Z.ltb_spec ((pg - 1) * lim + lim) (Z.of_nat (length all)));
      split; try done; try nia.
Qed.

End ListingReplies.

Section ListingItems.
Import JS Path Listing Order Item.
Context {L : Locale}.
Variables (root cwd : jsstring) (fs : ReadFS).

Lemma visitEntry_item fullPath safePath search e item :
  item ∈ (visitEntry fs fullPath safePath search e).1 →
  ∃ stats, stat fs (join2 fullPath (d_name e)) = Some stats
    ∧ visible search e
    ∧ item = itemOf safePath e stats.
Proof.
  unfold visitEntry, visible, matchesSearch.
  destruct (stat fs _) as [stats|]; [|by intros ?%elem_of_nil].
  destruct search as [|c search'].
  - cbn [negb]. destruct (startsWith (d_name e) [DOT]) eqn:Hh; [by intros ?%elem_of_nil|].
    intros ->%list_elem_of_singleton. exists stats. auto.
  - destruct (includes _ _) eqn:Hi; cbn [negb]; [|by intros ?%elem_of_nil].
    destruct (startsWith (d_name e) [DOT]) eqn:Hh; [by intros ?%elem_of_nil|].
    intros ->%list_elem_of_singleton. exists stats. auto.
Qed.

(** What stands behind an entry of a reply: the request was served,
    and the entry was built from a visible name of the directory. *)
Lemma listed_item (q : Query) item :
  let search := orDefault (q_search q) [] in
  let safePath := stripDotDots (normalize (orDefault (q_path q) [SLASH])) in
  let fullPath := join2 root safePath in
  item ∈ files (body (GET root cwd fs q).1) →
  ∃ entries e stats,
    lists root cwd fs (orDefault (q_path q) [SLASH]) entries
    ∧ e ∈ entries
    ∧ stat fs (join2 fullPath (d_name e)) = Some stats
    ∧ visible search e
    ∧ item = itemOf safePath e stats.
Proof.
  intros search safePath fullPath. unfold GET.
  set (pg := safePage _). set (lim := safeLimit _).
  destruct (handle_cases root cwd fs (orDefault (q_path q) [SLASH]) pg lim
              (orDefault (q_search q) [])) as [(st & msg & -> & Hst)|[entries Hl]].
  - by intros ?%elem_of_nil.
  - rewrite (handle_lists _ _ _ _ pg lim _ _ Hl).
    cbn [fst body files paginate]. intros Hin.
    eapply elem_of_sublist in Hin; [|apply slice_sublist].
    rewrite sort_perm in Hin.
    apply visitEntries_elem in Hin as (e & He & Hin).
    apply visitEntry_item in Hin as (stats & Hst & Hv & ->).
    exists entries, e, stats. auto.
Qed.

End ListingItems.

(** ** Characters and segments of joined paths *)

Section PathChars.
Import JS Path Listing.
Implicit Types (s t p : jsstring) (c : N).

Lemma join_chars c segs :
  c ∈ join [SLASH] segs → c = SLASH ∨ ∃ seg, seg ∈ segs ∧ c ∈ seg.
Proof.
  induction segs as [|seg segs IH]; [by intros ?%elem_of_nil|].
  destruct segs as [|seg' segs].
  - intros Hc. right. exists seg. split; [apply list_elem_of_here|done].
  - rewrite join_cons by done. rewrite !elem_of_app, list_elem_of_singleton.
    intros [Hc|[->|Hc]]; [|by left|].
    + right. exists seg. split; [apply list_elem_of_here|done].
    + destruct (IH Hc) as [->|(x & Hx & Hcx)]; [by left|].
      right. exists x. split; [by apply list_elem_of_further|done].
Qed.

Lemma split_chars c sep s seg : seg ∈ split sep s → c ∈ seg → c ∈ s.
Proof.
  revert seg. induction s as [|a s IH]; intros seg.
  - cbn [split]. intros ->%list_elem_of_singleton. done.
  - destruct (decide (a = sep)) as [->|Ha].
    + rewrite split_cons_sep, elem_of_cons. intros [->|Hin] Hc.
      * by apply elem_of_nil in Hc.
      * apply list_elem_of_further. by eapply IH.
    + rewrite split_cons_other by done. rewrite elem_of_cons.
      pose proof (split_nonempty sep s) as Hne.
      destruct (split sep s) as [|h tl] eqn:E; [done|]. cbn [head default tail].
      intros [->|Hin] Hc.
      * apply elem_of_cons in Hc as [->|Hc]; [apply list_elem_of_here|].
        apply list_elem_of_further. apply (IH h); [apply list_elem_of_here|done].
      * apply list_elem_of_further. apply (IH seg); [by apply list_elem_of_further|done].
Qed.

Lemma normalize_chars c p : c ∈ normalize p → c = SLASH ∨ c = DOT ∨ c ∈ p.
Proof.
  destruct (decide (p = [])) as [->|Hp].
  { cbn. rewrite list_elem_of_singleton. auto. }
  assert (∀ segs, segs = normSegs (negb (isAbsolute p)) (split SLASH p) →
          c ∈ join [SLASH] segs → c = SLASH ∨ c ∈ p) as Hsegs.
  { intros segs -> Hc. apply join_chars in Hc as [->|(seg & Hseg & Hc)]; [by left|].
    right. unfold normSegs in Hseg. rewrite elem_of_reverse in Hseg.
    apply foldl_norm_elem in Hseg as [Hseg|Hseg]; [by apply elem_of_nil in Hseg|].
    by eapply split_chars. }
  destruct (normalize_cases p Hp) as [[_ ->]|[_ ->]].
  - destruct (isAbsolute p), (endsWithSlash p);
      rewrite ?elem_of_cons; intros H; decompose [or] H; auto;
      by match goal with H : _ ∈ [] |- _ => apply elem_of_nil in H end.
  - rewrite !elem_of_app. intros [Hc|[Hc|Hc]].
    + destruct (isAbsolute p); [|by apply elem_of_nil in Hc].
      apply list_elem_of_singleton in Hc. auto.
    + destruct (Hsegs _ eq_refl Hc); auto.
    + destruct (endsWithSlash p); [|by apply elem_of_nil in Hc].
      apply list_elem_of_singleton in Hc. auto.
Qed.

Lemma stripDotDots_suffix s : stripDotDots s `suffix_of` s.
Proof.
  remember (length s) as n eqn:Hn. revert s Hn.
  induction (lt_wf n) as [n _ IH]. intros s ->.
  rewrite stripDotDots_unfold.
  destruct s as [|a [|b [|c rest]]]; try done.
  destruct (_ && _); [|done].
  etrans; [eapply (IH (length rest)); [simpl; lia|done]|].
  by exists [a; b; c].
Qed.

Lemma stripDotDots_chars c s : c ∈ stripDotDots s → c ∈ s.
Proof.
  destruct (stripDotDots_suffix s) as [k E]. intros Hc. rewrite E.
  apply elem_of_app. by right.
Qed.

Lemma join2_chars c a b : c ∈ join2 a b → c = SLASH ∨ c = DOT ∨ c ∈ a ∨ c ∈ b.
Proof.
  unfold join2. destruct a as [|x a], b as [|y b].
  - rewrite list_elem_of_singleton. auto.
  - intros [->|[->|H]]%normalize_chars; auto.
  - intros [->|[->|H]]%normalize_chars; auto.
  - intros [->|[->|H]]%normalize_chars; auto.
    rewrite !elem_of_app, list_elem_of_singleton in H. destruct H as [H|[->|H]]; auto.
Qed.

Lemma backslashesToSlashes_id s : BACKSLASH ∉ s → backslashesToSlashes s = s.
Proof.
  unfold backslashesToSlashes. induction s as [|c s IH]; [done|].
  intros H. apply not_elem_of_cons in H as [Hc Hs].
  cbn [map]. rewrite (IH Hs).
  by destruct (N.eqb_spec c BACKSLASH).
Qed.

Lemma backslashesToSlashes_clean s : BACKSLASH ∉ backslashesToSlashes s.
Proof.
  unfold backslashesToSlashes. intros (c & E & _)%list_elem_of_fmap.
  by destruct (N.eqb_spec c BACKSLASH).
Qed.

(** Without [..] among the segments, what is pushed does not depend on
    the stack it is pushed on. *)
Lemma foldl_no_dotdot st xs :
  [DOT; DOT] ∉ xs →
  foldl (normStep false) st xs = foldl (normStep false) [] xs ++ st.
Proof.
  revert st. induction xs as [|x xs IH]; intros st Hxs; [done|].
  apply not_elem_of_cons in Hxs as [Hx Hxs]. cbn [foldl].
  assert (normStep false st x = normStep false [] x ++ st) as E.
  { destruct (normStep_cases false st x) as [->|[->|[->|Hreg]]]; try done.
    by rewrite !normStep_regular. }
  rewrite (IH (normStep false st x)), (IH (normStep false [] x)) by done.
  by rewrite E, app_assoc.
Qed.

(** The segments of a normalized path are those of the path. *)
Lemma foldl_normalize p :
  foldl (normStep false) [] (split SLASH (normalize p)) =
  foldl (normStep false) [] (split SLASH p).
Proof.
  rewrite foldl_split_normalize. unfold normSegs.
  destruct (isAbsolute p); cbn [negb].
  - apply renorm_false.
  - by apply renorm_true.
Qed.

Lemma foldl_join2_child s n :
  validName n →
  foldl (normStep false) [] (split SLASH (join2 s n)) =
  n :: foldl (normStep false) [] (split SLASH s).
Proof.
  intros [Hreg Hslash].
  assert (n ≠ []) as Hn by (by destruct Hreg).
  unfold join2. destruct s as [|c s], n as [|d n]; try done.
  - rewrite foldl_normalize, split_no_sep by done. cbn [foldl split].
    by rewrite normStep_regular.
  - rewrite foldl_normalize.
    change ((c :: s) ++ [SLASH] ++ d :: n) with ((c :: s) ++ SLASH :: d :: n).
    rewrite split_app, foldl_app, (split_no_sep SLASH (d :: n)) by done.
    cbn [foldl]. by rewrite normStep_regular.
Qed.

(** An absolute request is resolved below the root, segment by
    segment. *)
Lemma stack_absolute_request cwd root p :
  root ≠ [] → isAbsolute p = true →
  stack cwd (join2 root (stripDotDots (normalize p))) =
  foldl (normStep false) [] (split SLASH p) ++ stack cwd root.
Proof.
  intros Hroot Habs.
  assert (stripDotDots (normalize p) = normalize p) as ->.
  { pose proof (isAbsolute_normalize p) as Hn. rewrite Habs in Hn.
    rewrite stripDotDots_unfold.
    destruct (normalize p) as [|a [|b [|c rest]]]; try done.
    cbn in Hn. apply N.eqb_eq in Hn as ->. done. }
  rewrite stack_join2, foldl_split_normalize by done.
  rewrite Habs. cbn [negb]. unfold normSegs.
  apply foldl_push, foldl_false_clean. constructor.
Qed.

(** A request that passes the containment test is resolved by pushing
    its segments on the root. *)
Lemma served_stack cwd root requested :
  root ≠ [] →
  let s := stripDotDots (normalize requested) in
  startsWith (resolve cwd (join2 root s)) (resolve cwd root) = true →
  foldl (normStep false) (stack cwd root) (split SLASH s)
  = foldl (normStep false) [] (split SLASH s) ++ stack cwd root.
Proof.
  intros Hroot s Hguard.
  destruct (scrub_safe requested) as [E|Hsafe]; [fold s in E|fold s in Hsafe].
  - apply (guard_decides cwd root Hroot requested) in Hguard.
    rewrite !key_stack in Hguard.
    rewrite stack_join2 in Hguard by done. fold s in Hguard.
    rewrite E in *. change (split SLASH [DOT; DOT]) with [[DOT; DOT]] in *.
    cbn [foldl] in Hguard |- *.
    pose proof (stack_clean cwd root) as Hcl.
    destruct (stack cwd root) as [|top rest]; [done|]. exfalso.
    inversion_clear Hcl as [|?? Htop _].
    rewrite normStep_pop in Hguard by by apply regular_not_dotdot.
    apply prefix_length in Hguard.
    rewrite reverse_cons, length_app, !length_reverse in Hguard.
    cbn [length] in Hguard. lia.
  - by apply foldl_no_dotdot.
Qed.

End PathChars.

(** ** Extensions *)

Section Extensions.
Import JS Path.
Implicit Types (s : jsstring).

Lemma lastDot_none s : lastDot s = None ↔ DOT ∉ s.
Proof.
  induction s as [|c s IH]; cbn [lastDot].
  - split; [intros _ ?%elem_of_nil; done|done].
  - rewrite not_elem_of_cons. destruct (lastDot s) as [i|].
    + split; [done|]. intros [_ H]. by apply IH in H.
    + destruct (N.eqb_spec c DOT) as [->|Hc]; split; try done.
      * by intros [? _].
      * intros _. split; [done|]. by apply IH.
Qed.

Lemma lastDot_spec s i :
  lastDot s = Some i →
  ∃ base ext, s = base ++ DOT :: ext ∧ length base = i ∧ DOT ∉ ext.
Proof.
  revert i. induction s as [|c s IH]; intros i; cbn [lastDot]; [done|].
  destruct (lastDot s) as [j|] eqn:E.
  - intros [= <-]. destruct (IH j eq_refl) as (base & ext & -> & <- & Hext).
    by exists (c :: base), ext.
  - destruct (N.eqb_spec c DOT) as [->|Hc]; [|done].
    intros [= <-]. exists [], s. split; [done|]. split; [done|].
    by apply lastDot_none.
Qed.

Lemma lastDot_app base ext :
  DOT ∉ ext → lastDot (base ++ DOT :: ext) = Some (length base).
Proof.
  intros Hext. induction base as [|c base IH].
  - cbn [app lastDot length]. apply lastDot_none in Hext as ->.
    by rewrite N.eqb_refl.
  - cbn [app lastDot length]. by rewrite IH.
Qed.

(** The extension of a file name: empty when the name has no dot, a
    leading dot only or is [..]; otherwise what follows the last dot,
    dot included. *)
Lemma extname_spec s :
  SLASH ∉ s →
  (extname s = [] ∧ (DOT ∉ s ∨ (∃ r, s = DOT :: r ∧ DOT ∉ r) ∨ s = [DOT; DOT]))
  ∨ (∃ base ext, base ≠ [] ∧ s ≠ [DOT; DOT] ∧ s = base ++ DOT :: ext ∧ (DOT ∉ ext)
       ∧ extname s = DOT :: ext).
Proof.
  intros Hs. unfold extname. rewrite lastComponent_no_slash by done.
  destruct (lastDot s) as [i|] eqn:E.
  - destruct (lastDot_spec s i E) as (base & ext & -> & <- & Hext).
    destruct base as [|b base].
    + left. split; [done|]. right. left. by exists ext.
    + cbn [length bool_decide orb]. rewrite bool_decide_eq_false_2 by done.
      cbn [orb]. unfold isDotDot.
      destruct (decide ((b :: base) ++ DOT :: ext = [DOT; DOT])) as [Hdd|Hdd].
      * rewrite bool_decide_eq_true_2 by done. left. auto.
      * rewrite bool_decide_eq_false_2 by done. right.
        exists (b :: base), ext. repeat split; try done.
        change (S (length base)) with (length (b :: base)).
        by rewrite drop_app_length.
  - left. split; [done|]. left. by apply lastDot_none.
Qed.

End Extensions.

Section ListingEntries.
Import JS Path Listing Order Item.
Context {L : Locale}.

(** X4.  Every entry of a reply stands for a name the requested
    directory holds: the name is not hidden and contains the search
    term up to case, [stat] succeeded on it and supplied size and date,
    only directories are reported as directories, and only regular
    files carry an extension. *)
Theorem listing_entries_from_directory
    (root cwd : jsstring) (fs : ReadFS) (q : Query) (item : FileItem) :
  let search := orDefault (q_search q) [] in
  let fullPath := join2 root (stripDotDots (normalize (orDefault (q_path q) [SLASH]))) in
  item ∈ files (body (GET root cwd fs q).1) →
  startsWith (name item) [DOT] = false
  ∧ (search = [] ∨ includes (toLowerCase (name item)) (toLowerCase search) = true)
  ∧ ∃ entries e stats,
      readdir fs fullPath = Some entries ∧ e ∈ entries ∧ d_name e = name item
      ∧ stat fs (join2 fullPath (name item)) = Some stats
      ∧ size item = st_size stats ∧ lastModified item = mtime stats
      ∧ (type item = directory ↔ d_kind e = KDirectory)
      ∧ (is_Some (extension item) ↔ d_kind e = KFile).
Proof.
  intros search fullPath Hin.
  apply listed_item in Hin as (entries & e & stats & Hl & He & Hst & [Hh Hs] & ->).
  destruct Hl as (_ & _ & _ & Hrd).
  cbn [itemOf name size lastModified type extension].
  split; [done|]. split; [done|].
  exists entries, e, stats. repeat split; try done.
  - unfold typeOf. by destruct (d_kind e).
  - unfold typeOf. by intros ->.
  - destruct (d_kind e); try done; by intros [? ?].
  - by intros ->.
Qed.

(** X5.  Within a reply directories come before files, and entries of
    the same kind are in the order of [localeCompare]. *)
Theorem listing_page_sorted {LO : LocaleOrder L}
    (root cwd : jsstring) (fs : ReadFS) (q : Query) :
  StronglySorted listedBefore (files (body (GET root cwd fs q).1)).
Proof.
  unfold GET. set (pg := safePage _). set (lim := safeLimit _).
  destruct (handle_cases root cwd fs (orDefault (q_path q) [SLASH]) pg lim
              (orDefault (q_search q) [])) as [(st & msg & -> & Hst)|[entries Hl]].
  - constructor.
  - rewrite (handle_lists _ _ _ _ pg lim _ _ Hl).
    cbn [fst body files paginate]. set (all := sort _).
    pose proof (sort_sorted (visitEntries fs
      (join2 root (stripDotDots (normalize (orDefault (q_path q) [SLASH]))))
      (stripDotDots (normalize (orDefault (q_path q) [SLASH])))
      (orDefault (q_search q) []) entries).1) as Hsorted.
    fold all in Hsorted. unfold slice.
    set (a := Z.to_nat _). set (b := Z.to_nat _).
    rewrite <- (take_drop b all) in Hsorted.
    apply StronglySorted_app_1_r in Hsorted.
    rewrite <- (take_drop a (drop b all)) in Hsorted.
    by apply StronglySorted_app_1_l in Hsorted.
Qed.

(** X7.  The extension reported for a regular file holds no dot, and
    when it is not empty the name ends in a dot followed by it, after
    a stem that is not empty. *)
Theorem listing_extension
    (root cwd : jsstring) (fs : ReadFS) (q : Query) (item : FileItem) (ext : jsstring) :
  item ∈ files (body (GET root cwd fs q).1) →
  (∀ d es e, readdir fs d = Some es → e ∈ es → validName (d_name e)) →
  extension item = Some ext →
  type item = file
  ∧ (DOT ∉ ext)
  ∧ (ext ≠ [] → ∃ stem, stem ≠ [] ∧ name item = stem ++ DOT :: ext)
  ∧ (DOT ∉ name item → ext = []).
Proof.
  intros Hin Hnames.
  apply listed_item in Hin as (entries & e & stats & Hl & He & Hst & _ & ->).
  destruct Hl as (_ & _ & _ & Hrd).
  destruct (Hnames _ _ _ Hrd He) as [_ Hslash].
  cbn [itemOf name type extension]. unfold typeOf.
  destruct (d_kind e); try done. intros [= <-].
  split; [done|].
  destruct (extname_spec (d_name e) Hslash)
    as [[-> _]|(stem & x & Hstem & _ & E & Hx & ->)]; cbn [slice1 tail].
  - split; [by intros ?%elem_of_nil|]. split; [done|done].
  - split; [done|]. split.
    + intros _. by exists stem.
    + intros Hdot. exfalso. apply Hdot. rewrite E.
      apply elem_of_app. right. apply list_elem_of_here.
Qed.

End ListingEntries.

(** ** The explorer and the listing route *)

Section ExplorerRequests.
Import JS Path Listing Order Explorer.
Context {L : Locale}.
Variables (root cwd : jsstring) (fs : ReadFS).

Lemma orDefault_numberToString n d : orDefault (Some (numberToString n)) d = numberToString n.
Proof. by destruct (numberToString_cons n) as (c & r & -> & _). Qed.

Lemma handle_total_page requestedPath pg pg' lim search :
  total (body (handle root cwd fs requestedPath pg lim search).1) =
  total (body (handle root cwd fs requestedPath pg' lim search).1).
Proof.
  destruct (handle_cases root cwd fs requestedPath pg lim search)
    as [(st & msg & E & Hst)|[entries Hl]].
  - destruct (handle_cases root cwd fs requestedPath pg' lim search)
      as [(st' & msg' & E' & Hst')|[entries Hl]].
    + by rewrite E, E'.
    + pose proof (handle_lists _ _ _ _ pg lim search _ Hl) as E'.
      cbn zeta in E'. rewrite E' in E. cbn in E. injection E as <- _. lia.
  - by rewrite (handle_lists _ _ _ _ pg lim _ _ Hl),
               (handle_lists _ _ _ _ pg' lim _ _ Hl).
Qed.

Lemma fetch_parsed (pageLimit : nat) (viewMode : ViewMode)
    (dir : jsstring) (pageNo : nat) (searchTerm : jsstring) :
  let q := fetchParams pageLimit viewMode dir pageNo searchTerm in
  let n := Z.of_nat (pageSize pageLimit viewMode) in
  safePage (parseInt (orDefault (q_page q) (js "1"))) = Z.max 1 (Z.of_nat pageNo)
  ∧ safeLimit (parseInt (orDefault (q_limit q) (js "20")))
    = (if n =? 0 then 20 else Z.min n 100)
  ∧ orDefault (q_path q) [SLASH] = orElse dir [SLASH]
  ∧ orDefault (q_search q) [] = searchTerm.
Proof.
  intros q n. unfold q, fetchParams. cbn [q_path q_page q_limit q_search].
  rewrite !orDefault_numberToString, !parseInt_numberToString. fold n.
  split; [|split; [|split]].
  - unfold safePage. destruct (Z.ltb_spec (Z.of_nat pageNo) 1); lia.
  - unfold safeLimit. destruct (Z.ltb_spec n 1), (Z.eqb_spec n 0); lia.
  - by destruct dir.
  - by destruct searchTerm.
Qed.

(** X8.  The listing route reads a request of the explorer as it was
    meant: the page number and the page size arrive as the numbers the
    explorer rendered, page 0 is read as page 1, a page size of 0 as
    20, and a page size above 100 as 100. *)
Theorem fetch_understood (pageLimit : nat) (viewMode : ViewMode)
    (dir : jsstring) (pageNo : nat) (searchTerm : jsstring) :
  let n := Z.of_nat (pageSize pageLimit viewMode) in
  GET root cwd fs (fetchParams pageLimit viewMode dir pageNo searchTerm) =
  handle root cwd fs (orElse dir [SLASH]) (Z.max 1 (Z.of_nat pageNo))
         (if n =? 0 then 20 else Z.min n 100) searchTerm.
Proof.
  intros n. unfold GET.
  destruct (fetch_parsed pageLimit viewMode dir pageNo searchTerm)
    as (-> & -> & -> & ->).
  done.
Qed.

(** X9.  The page count the explorer derives from a reply is the
    number of pages that hold entries: with a page size between 1 and
    100, page [p] of the listing is not empty exactly when [p] is at
    most [Math.ceil(total / size)], whichever page the total was read
    from. *)
Theorem totalPages_counts_pages (pageLimit : nat) (viewMode : ViewMode)
    (dir searchTerm : jsstring) (p0 p : nat) :
  let size := pageSize pageLimit viewMode in
  let reply k := (GET root cwd fs (fetchParams pageLimit viewMode dir k searchTerm)).1 in
  (1 <= size <= 100)%nat → (1 <= p)%nat →
  files (body (reply p)) ≠ []
  ↔ Z.of_nat p <= totalPages (total (body (reply p0))) (Z.of_nat size).
Proof.
  intros size reply Hsize Hp. subst reply. cbn beta. unfold GET.
  destruct (fetch_parsed pageLimit viewMode dir p searchTerm) as (-> & -> & -> & ->).
  destruct (fetch_parsed pageLimit viewMode dir p0 searchTerm) as (-> & -> & -> & ->).
  fold size.
  destruct (Z.eqb_spec (Z.of_nat size) 0) as [?|_]; [lia|].
  rewrite Z.min_l, (Z.max_r 1 (Z.of_nat p)) by lia.
  set (lim := Z.of_nat size). set (pg := Z.of_nat p).
  rewrite (handle_total_page _ (Z.max 1 (Z.of_nat p0)) pg).
  assert (1 <= lim) as Hlim by lia. assert (1 <= pg) as Hpg by lia.
  clearbody lim pg. unfold totalPages.
  destruct (handle_cases root cwd fs (orElse dir [SLASH]) pg lim searchTerm)
    as [(st & msg & -> & Hst)|[entries Hl]].
  - cbn [fst body files total errorBody]. rewrite Z.opp_0, Z.div_0_l by lia.
    split; [done|lia].
  - rewrite (handle_lists _ _ _ _ pg lim _ _ Hl).
    cbn [fst body files total paginate]. set (all := sort _).
    rewrite <- (length_zero_iff_nil (slice all _ _)).
    assert (Z.of_nat (length (slice all ((pg - 1) * lim) ((pg - 1) * lim + lim)))
            = Z.max 0 (Z.min lim (Z.of_nat (length all) - (pg - 1) * lim))) as Hn.
    { rewrite slice_length by nia. f_equal. f_equal; lia. }
    pose proof (Z.div_mod (- Z.of_nat (length all)) lim ltac:(lia)) as Hdm.
    pose proof (Z.mod_pos_bound (- Z.of_nat (length all)) lim ltac:(lia)) as Hm.
    revert Hdm Hm.
    generalize ((- Z.of_nat (length all)) `div` lim)
               ((- Z.of_nat (length all)) `mod` lim).
    intros d r Hdm Hm. split; intros H; nia.
Qed.

End ExplorerRequests.

Section ExplorerPaths.
Import JS Path Listing Explorer.

Lemma slice_drop_last {A} (xs : list A) (x : A) : slice (xs ++ [x]) 0 (-1) = xs.
Proof.
  unfold slice, relIndex. rewrite length_app. cbn [length].
  replace (0 <? 0) with false by done. replace (-1 <? 0) with true by done.
  rewrite Z.min_l, Z.max_l by lia. cbn [Z.to_nat drop].
  replace (Z.to_nat (Z.of_nat (length xs + 1) + -1 - 0)) with (length xs) by lia.
  change (Z.to_nat 0) with 0%nat. by rewrite drop_0, take_app_length.
Qed.

(** X10.  Going back from a folder leads to the folder that holds it:
    the path the explorer moves to is the current path without its last
    component, and the top level when nothing is left. *)
Theorem parentPath_of_child (parent child : jsstring) :
  SLASH ∉ child →
  parentPath (parent ++ SLASH :: child) = orElse parent [SLASH].
Proof.
  intros Hchild. unfold parentPath.
  rewrite split_app, (split_no_sep SLASH child) by done.
  by rewrite slice_drop_last, join_split.
Qed.

End ExplorerPaths.

Section BackNavigation.
Import JS Path Listing Order Item Explorer.
Context {L : Locale}.

Lemma endsWithSlash_child q n :
  n ≠ [] → SLASH ∉ n → endsWithSlash (q ++ n) = false.
Proof.
  intros Hn Hs. unfold endsWithSlash.
  destruct (last n) as [c|] eqn:E.
  - rewrite last_app, E. destruct (N.eqb_spec c SLASH) as [->|]; [|done].
    by apply last_Some_elem_of in E.
  - by destruct n using rev_ind; [|rewrite last_snoc in E].
Qed.

(** A path that ends in a regular segment keeps it as its last
    component when normalized. *)
Lemma normalize_last q pre n :
  validName n → split SLASH q = pre ++ [n] → endsWithSlash q = false →
  normalize q = n ∨ ∃ parent, normalize q = parent ++ SLASH :: n.
Proof.
  intros [Hreg Hslash] Hsplit Hends.
  assert (q ≠ []) as Hq.
  { intros ->. cbn in Hsplit. destruct pre as [|? [|? ?]]; try done.
    injection Hsplit as <-. by destruct Hreg. }
  assert (∃ X, foldl (normStep (negb (isAbsolute q))) [] (split SLASH q) = n :: X)
    as [X EX].
  { rewrite Hsplit, foldl_app. cbn [foldl].
    rewrite normStep_regular by done. by eexists. }
  destruct (normalize_cases q Hq) as [[E _]|[_ ->]]; cbn zeta in *.
  - exfalso. unfold normSegs in E. rewrite EX, reverse_cons in E.
    by destruct (reverse X).
  - rewrite Hends, app_nil_r. unfold normSegs. rewrite EX, reverse_cons.
    destruct (reverse X) as [|x xs] eqn:ER.
    + cbn [app join]. destruct (isAbsolute q); [|by left].
      right. by exists [].
    + rewrite join_snoc by done. right.
      exists ((if isAbsolute q then [SLASH] else []) ++ join [SLASH] (x :: xs)).
      by rewrite <- !app_assoc.
Qed.

Lemma split_last_segment q n :
  validName n →
  q = n ∨ (∃ parent, q = parent ++ SLASH :: n) →
  ∃ pre, split SLASH q = pre ++ [n].
Proof.
  intros [_ Hslash] [->|[parent ->]].
  - exists []. by apply split_no_sep.
  - exists (split SLASH parent). by rewrite split_app, (split_no_sep SLASH n).
Qed.

Lemma lastComponent_last_segment q n :
  validName n →
  q = n ∨ (∃ parent, q = parent ++ SLASH :: n) →
  lastComponent q = n.
Proof.
  intros Hn Hq. destruct (split_last_segment q n Hn Hq) as [pre E].
  destruct Hn as [[Hne _] _].
  unfold lastComponent. rewrite E, reverse_app, reverse_singleton.
  cbn [app]. rewrite filter_cons. by rewrite decide_True.
Qed.

(** A child joined to a path is the last component of the result. *)
Lemma join2_child_suffix s n :
  validName n → join2 s n = n ∨ ∃ parent, join2 s n = parent ++ SLASH :: n.
Proof.
  intros Hvalid. pose proof Hvalid as [Hreg Hslash].
  assert (n ≠ []) as Hn by (by destruct Hreg).
  unfold join2. destruct s as [|c s], n as [|d n]; try done.
  - apply (normalize_last _ []); [done| |by apply (endsWithSlash_child [])].
    by apply split_no_sep.
  - apply (normalize_last _ (split SLASH (c :: s))); [done| |].
    + change ((c :: s) ++ [SLASH] ++ d :: n) with ((c :: s) ++ SLASH :: d :: n).
      by rewrite split_app, (split_no_sep SLASH (d :: n)).
    + rewrite app_assoc. by apply endsWithSlash_child.
Qed.

(** The path reported for a listed entry, taken apart: it ends in the
    name of the entry, and what stands before the name is resolved to
    the directory that was listed. *)
Lemma listed_path
    (envRoot : option jsstring) (cwd : jsstring) (fs : ReadFS) (q : Query)
    (item : FileItem) :
  let root := getStaticFilesRoot envRoot in
  let requested := orDefault (q_path q) [SLASH] in
  let s := stripDotDots (normalize requested) in
  let fullPath := join2 root s in
  item ∈ files (body (GET root cwd fs q).1) →
  (∀ d es e, readdir fs d = Some es → e ∈ es → validName (d_name e)) →
  BACKSLASH ∉ requested → BACKSLASH ∉ name item →
  validName (name item)
  ∧ startsWith (resolve cwd fullPath) (resolve cwd root) = true
  ∧ (∃ stats, stat fs (join2 fullPath (name item)) = Some stats
              ∧ size item = st_size stats)
  ∧ ∃ parent,
      path item = parent ++ SLASH :: name item
      ∧ isAbsolute (orElse parent [SLASH]) = true
      ∧ foldl (normStep false) [] (split SLASH (orElse parent [SLASH]))
        = foldl (normStep false) [] (split SLASH s)
      ∧ stack cwd fullPath
        = foldl (normStep false) [] (split SLASH s) ++ stack cwd root
      ∧ key cwd (join2 root (stripDotDots (normalize (path item))))
        = key cwd fullPath ++ [name item].
Proof.
  intros root requested s fullPath Hin Hnames Hreq Hname.
  assert (root ≠ []) as Hroot by apply getStaticFilesRoot_nonempty.
  apply listed_item in Hin as (entries & e & stats & Hl & He & Hst & _ & ->).
  cbn [itemOf name path size] in *.
  pose proof Hl as (_ & Hguard & _ & Hrd).
  pose proof (Hnames _ _ _ Hrd He) as Hvalid.
  fold requested in Hguard, Hrd. fold s in Hguard, Hrd. fold fullPath in Hguard, Hrd.
  set (n := d_name e) in *.
  split; [done|]. split; [done|]. split; [by exists stats|].
  assert (BACKSLASH ∉ join2 s n) as Hclean.
  { intros [H|[H|[H|H]]]%join2_chars; try done.
    apply stripDotDots_chars, normalize_chars in H as [H|[H|H]]; done. }
  rewrite backslashesToSlashes_id by done.
  set (p := if startsWith (join2 s n) [SLASH] then join2 s n else SLASH :: join2 s n).
  assert (foldl (normStep false) [] (split SLASH p)
          = n :: foldl (normStep false) [] (split SLASH s)) as Hp.
  { rewrite <- foldl_join2_child by done. unfold p.
    destruct (startsWith (join2 s n) [SLASH]); [done|].
    by rewrite split_cons_sep. }
  assert (∃ parent, p = parent ++ SLASH :: n ∧ isAbsolute (orElse parent [SLASH]) = true)
    as (parent & Ep & Habs).
  { destruct Hvalid as [Hreg Hslash].
    assert (n ≠ []) as Hn by (by destruct Hreg).
    unfold p. destruct (join2_child_suffix s n ltac:(done)) as [->|[parent ->]].
    - destruct n as [|c n']; [done|]. cbn [startsWith].
      destruct (N.eqb_spec c SLASH) as [->|_].
      + exfalso. apply Hslash, list_elem_of_here.
      + cbn [andb]. by exists [].
    - destruct parent as [|c parent].
      + cbn [app startsWith]. rewrite N.eqb_refl, andb_true_l.
        destruct n; by exists [].
      + cbn [app startsWith].
        destruct (N.eqb_spec c SLASH) as [->|_]; cbn [andb].
        * replace (startsWith (parent ++ SLASH :: n) []) with true
            by (by destruct (parent ++ SLASH :: n)).
          by exists (SLASH :: parent).
        * by exists (SLASH :: c :: parent). }
  assert (stack cwd fullPath
          = foldl (normStep false) [] (split SLASH s) ++ stack cwd root) as Hfull.
  { unfold fullPath. rewrite stack_join2 by done. by apply served_stack. }
  exists parent. split; [done|]. split; [done|]. split; [|split; [done|]].
  - destruct Hvalid as [Hreg Hslash].
    rewrite Ep, split_app, foldl_app, (split_no_sep SLASH n) in Hp by done.
    cbn [foldl] in Hp. rewrite normStep_regular in Hp by done.
    injection Hp as Hp. by destruct parent.
  - assert (isAbsolute p = true) as Hpabs by (rewrite Ep; by destruct parent).
    change (key cwd (join2 root (stripDotDots (normalize p))) = key cwd fullPath ++ [n]).
    rewrite !key_stack, stack_absolute_request by done.
    by rewrite Hp, Hfull, <- reverse_cons.
Qed.

(** X6.  The path reported for an entry leads back to it.  When the
    names in play hold no backslash, the reported path begins with a
    slash, and sent as the [path] parameter of a later request it
    passes the containment test and is resolved to the listed entry
    itself. *)
Theorem listing_path_leads_back
    (envRoot : option jsstring) (cwd : jsstring) (fs : ReadFS) (q : Query)
    (item : FileItem) :
  let root := getStaticFilesRoot envRoot in
  let requested := orDefault (q_path q) [SLASH] in
  let fullPath := join2 root (stripDotDots (normalize requested)) in
  let followed := join2 root (stripDotDots (normalize (path item))) in
  item ∈ files (body (GET root cwd fs q).1) →
  (∀ d es e, readdir fs d = Some es → e ∈ es → validName (d_name e)) →
  BACKSLASH ∉ requested → BACKSLASH ∉ name item →
  startsWith (path item) [SLASH] = true
  ∧ key cwd followed = key cwd (join2 fullPath (name item))
  ∧ key cwd followed = key cwd fullPath ++ [name item]
  ∧ startsWith (resolve cwd followed) (resolve cwd root) = true.
Proof.
  intros root requested fullPath followed Hin Hnames Hreq Hname. subst followed.
  assert (root ≠ []) as Hroot by apply getStaticFilesRoot_nonempty.
  destruct (listed_path envRoot cwd fs q item Hin Hnames Hreq Hname)
    as (Hvalid & Hguard & _ & parent & Ep & Habs & _ & _ & Hkey).
  fold root requested in Hguard, Hkey. fold fullPath in Hguard, Hkey.
  assert (isAbsolute (path item) = true) as Hpabs.
  { rewrite Ep. by destruct parent. }
  split; [|split; [|split]].
  - destruct (path item) as [|c r]; [done|]. unfold isAbsolute in Hpabs.
    cbn [startsWith]. rewrite Hpabs. by destruct r.
  - rewrite Hkey. symmetry. apply key_child; [apply join2_nonempty|done].
  - exact Hkey.
  - apply (guard_decides cwd root Hroot). rewrite Hkey.
    apply (guard_decides cwd root Hroot requested) in Hguard.
    by apply prefix_app_r.
Qed.

(** X11.  Opening a listed folder and going back returns to the
    listing: the path the explorer then asks for is resolved to the
    directory the folder was listed in. *)
Theorem back_returns_to_listing
    (envRoot : option jsstring) (cwd : jsstring) (fs : ReadFS) (q : Query)
    (item : FileItem) :
  let root := getStaticFilesRoot envRoot in
  let requested := orDefault (q_path q) [SLASH] in
  let fullPath := join2 root (stripDotDots (normalize requested)) in
  let back := parentPath (path item) in
  item ∈ files (body (GET root cwd fs q).1) →
  (∀ d es e, readdir fs d = Some es → e ∈ es → validName (d_name e)) →
  BACKSLASH ∉ requested → BACKSLASH ∉ name item →
  key cwd (join2 root (stripDotDots (normalize back))) = key cwd fullPath.
Proof.
  intros root requested fullPath back Hin Hnames Hreq Hname. subst back.
  assert (root ≠ []) as Hroot by apply getStaticFilesRoot_nonempty.
  destruct (listed_path envRoot cwd fs q item Hin Hnames Hreq Hname)
    as ([Hreg Hslash] & _ & _ & parent & Ep & Habs & Hparent & Hfull & _).
  fold root requested in Hparent, Hfull. fold fullPath in Hfull.
  rewrite Ep. unfold parentPath.
  rewrite split_app, (split_no_sep SLASH (name item)), slice_drop_last, join_split
    by done.
  rewrite !key_stack, stack_absolute_request by done.
  by rewrite Hparent, Hfull.
Qed.

End BackNavigation.

(** ** The selection of the explorer *)

Section Selection.
Import JS Listing Explorer.
Implicit Types (s : list jsstring) (x p : jsstring).

Lemma setAdd_elem p x s : p ∈ setAdd x s ↔ p = x ∨ p ∈ s.
Proof.
  unfold setAdd. case_bool_decide as Hx.
  - split; [auto|]. by intros [->|?].
  - rewrite elem_of_app, list_elem_of_singleton. tauto.
Qed.

Lemma setAdd_NoDup x s : NoDup s → NoDup (setAdd x s).
Proof.
  intros Hs. unfold setAdd. case_bool_decide as Hx; [done|].
  apply NoDup_app. split; [done|]. split; [|apply NoDup_singleton].
  intros y Hy ->%list_elem_of_singleton. done.
Qed.

Lemma setDelete_elem p x s : p ∈ setDelete x s ↔ p ∈ s ∧ p ≠ x.
Proof. unfold setDelete. rewrite list_elem_of_filter. tauto. Qed.

Lemma setDelete_NoDup x s : NoDup s → NoDup (setDelete x s).
Proof. apply NoDup_filter. Qed.

Lemma setOf_spec xs s :
  NoDup s →
  NoDup (foldl (λ s x, setAdd x s) s xs)
  ∧ ∀ p, p ∈ foldl (λ s x, setAdd x s) s xs ↔ p ∈ s ∨ p ∈ xs.
Proof.
  revert s. induction xs as [|x xs IH]; intros s Hs; cbn [foldl].
  - split; [done|]. intros p. rewrite elem_of_nil. tauto.
  - destruct (IH (setAdd x s) (setAdd_NoDup x s Hs)) as [Hnd Hel].
    split; [done|]. intros p. rewrite Hel, setAdd_elem, elem_of_cons. tauto.
Qed.

Lemma addRange_spec (files : list FileItem) start n s :
  NoDup s →
  let s' := foldl (λ s i, match files !! i with
                          | Some f => setAdd (path f) s
                          | None => s
                          end) s (seq start n) in
  NoDup s'
  ∧ ∀ p, p ∈ s' ↔
      p ∈ s ∨ ∃ i f, (start <= i < start + n)%nat ∧ files !! i = Some f ∧ path f = p.
Proof.
  revert start s. induction n as [|n IH]; intros start s Hs; cbn [seq foldl].
  - split; [done|]. intros p. split; [auto|]. intros [?|(i & f & ? & _)]; [done|lia].
  - set (s1 := match files !! start with
               | Some f => setAdd (path f) s
               | None => s
               end).
    assert (NoDup s1) as Hs1.
    { unfold s1. destruct (files !! start); [by apply setAdd_NoDup|done]. }
    destruct (IH (S start) s1 Hs1) as [Hnd Hel]. split; [done|].
    intros p. rewrite Hel. unfold s1. split.
    + intros [Hp|(i & f & Hi & Hf & <-)].
      * destruct (files !! start) as [f|] eqn:E; [|by left].
        apply setAdd_elem in Hp as [->|Hp]; [|by left].
        right. exists start, f. split; [lia|done].
      * right. exists i, f. split; [lia|done].
    + intros [Hp|(i & f & Hi & Hf & <-)].
      * left. destruct (files !! start); [|done]. apply setAdd_elem. by right.
      * destruct (decide (i = start)) as [->|Hne].
        -- left. rewrite Hf. apply setAdd_elem. by left.
        -- right. exists i, f. split; [lia|done].
Qed.

Lemma toggle_spec s x (modifier : bool) :
  NoDup s →
  let s' := if modifier then
              if bool_decide (x ∈ s) then setDelete x s else setAdd x s
            else [x] in
  NoDup s'
  ∧ (modifier = true → ∀ p, p ∈ s' ↔ (p = x ∧ x ∉ s) ∨ (p ≠ x ∧ p ∈ s))
  ∧ (modifier = false → s' = [x]).
Proof.
  intros Hnd. destruct modifier; cbn zeta.
  - split; [|split; [intros _ p|done]]; case_bool_decide as Hin.
    + by apply setDelete_NoDup.
    + by apply setAdd_NoDup.
    + rewrite setDelete_elem. split; [intros [? ?]; by right|].
      intros [[-> ?]|[? ?]]; done.
    + rewrite setAdd_elem. split.
      * intros [->|Hp]; [by left|]. right. split; [|done]. by intros ->.
      * intros [[-> ?]|[? ?]]; auto.
  - split; [apply NoDup_singleton|]. by split.
Qed.

(** X12.  The selection stays a set, and a click changes it as
    follows.  A shift-click after an earlier click adds the paths of
    the files between the two clicks and removes nothing; otherwise a
    click with Ctrl or Meta toggles the clicked path and leaves the
    others; otherwise the clicked path becomes the whole selection.  In
    all cases the click is remembered as the last one. *)
Theorem click_changes_selection (files : list FileItem) (st : Selection)
    (filePath : jsstring) (index : nat) (event : Click) :
  NoDup (selectedFiles st) →
  let st' := handleFileSelect files st filePath index event in
  let ranged := shiftKey event && bool_decide (is_Some (lastSelectedIndex st)) in
  NoDup (selectedFiles st')
  ∧ lastSelectedIndex st' = Some index
  ∧ (∀ lastIndex, shiftKey event = true → lastSelectedIndex st = Some lastIndex →
       ∀ p, p ∈ selectedFiles st' ↔
         p ∈ selectedFiles st
         ∨ ∃ i f, (lastIndex `min` index <= i <= lastIndex `max` index)%nat
                  ∧ files !! i = Some f ∧ path f = p)
  ∧ (ranged = false → ctrlKey event || metaKey event = true →
       ∀ p, p ∈ selectedFiles st' ↔
         (p = filePath ∧ filePath ∉ selectedFiles st)
         ∨ (p ≠ filePath ∧ p ∈ selectedFiles st))
  ∧ (ranged = false → ctrlKey event || metaKey event = false →
       selectedFiles st' = [filePath]).
Proof.
  intros Hnd st' ranged. subst st' ranged. unfold handleFileSelect.
  cbn [selectedFiles lastSelectedIndex].
  pose proof (toggle_spec (selectedFiles st) filePath
                (ctrlKey event || metaKey event) Hnd) as (Ht1 & Ht2 & Ht3).
  destruct (shiftKey event) eqn:Hshift, (lastSelectedIndex st) as [lastIndex|] eqn:Hlast;
    cbn [andb]; try (split; [done|]; split; [done|]; split; [done|]; by split).
  destruct (addRange_spec files (lastIndex `min` index)
              (S (lastIndex `max` index) - lastIndex `min` index)
              (selectedFiles st) Hnd) as [Hnd' Hel].
  unfold addRange. split; [done|]. split; [done|].
  split; [|by rewrite bool_decide_eq_true_2 by eauto].
  intros ? _ [= <-] p. rewrite Hel. split.
  - intros [?|(i & f & Hi & Hf)]; [by left|]. right. exists i, f. split; [lia|done].
  - intros [?|(i & f & Hi & Hf)]; [by left|]. right. exists i, f. split; [lia|done].
Qed.

(** X13.  Select-all either clears the selection or selects the path
    of every file shown and nothing else; it clears exactly when the
    selection is as large as the list of files.  So with files of
    distinct paths, a second select-all undoes a first that
    selected. *)
Theorem select_all_toggles (files : list FileItem) (st : Selection) :
  let st' := handleSelectAll files st in
  NoDup (selectedFiles st')
  ∧ (length (selectedFiles st) = length files → selectedFiles st' = [])
  ∧ (length (selectedFiles st) ≠ length files →
     (∀ p, p ∈ selectedFiles st' ↔ ∃ f, f ∈ files ∧ path f = p)
     ∧ (NoDup (map path files) →
        selectedFiles (handleSelectAll files st') = []))
  ∧ lastSelectedIndex st' = lastSelectedIndex st.
Proof.
  intros st'. subst st'. unfold handleSelectAll at 1 2 3.
  cbn [selectedFiles lastSelectedIndex].
  destruct (setOf_spec (map path files) [] (NoDup_nil_2)) as [Hnd Hel].
  fold (setOf (map path files)) in Hnd, Hel.
  case_bool_decide as Hlen.
  - split; [apply NoDup_nil_2|]. split; [done|]. split; [done|done].
  - split; [done|]. split; [done|]. split; [|done]. split.
    + intros p. rewrite Hel, elem_of_nil, list_elem_of_fmap.
      split; [intros [[]|(f & -> & Hf)]; eauto|intros (f & Hf & <-); eauto].
    + intros Hpaths. unfold handleSelectAll. cbn [selectedFiles].
      rewrite (bool_decide_eq_false_2 (length (selectedFiles st) = length files))
        by done.
      rewrite bool_decide_eq_true_2; [done|].
      rewrite <- (length_map path files).
      apply Permutation_length, NoDup_Permutation; [done..|].
      intros p. rewrite Hel, elem_of_nil. tauto.
Qed.

End Selection.

(** ** Names chosen by the upload route *)

Section UploadNaming.
Import JS Path FS Upload.
Context {L : Locale}.
Variables (root : jsstring) (allowed : list jsstring) (maxSize : Z) (cwd : jsstring).
Implicit Types (t : tree) (f : UploadFile) (r : Result) (tp : jsstring) (s : jsstring).

Lemma counter_no_dot k : DOT ∉ js "_(" ++ numberToString k ++ js ")".
Proof.
  rewrite !elem_of_app. intros [H|[H|H]].
  - apply list_elem_of_In in H. vm_compute in H. intuition discriminate.
  - by apply digits_without in H.
  - apply list_elem_of_In in H. vm_compute in H. intuition discriminate.
Qed.

Lemma numbered_extname s k :
  SLASH ∉ s → s ≠ [DOT; DOT] → extname (numbered s k) = extname s.
Proof.
  intros Hs Hdd.
  destruct (numbered_valid s k Hs) as [_ Hslash].
  destruct (numbered_halves s k Hs) as (base & ext & Hbase & Hext & E).
  pose proof (counter_no_dot k) as Hctr.
  set (ctr := js "_(" ++ numberToString k ++ js ")") in *.
  assert (numbered s k = base ++ ctr ++ ext) as E'.
  { rewrite E. unfold ctr. by rewrite <- !app_assoc. }
  rewrite E' in *. clear E.
  destruct (extname_spec s Hs) as [[E0 Hcase]|(stem & x & Hstem & _ & Es & Hx & Ex)].
  - rewrite E0 in *. subst ext. rewrite !app_nil_r in *. subst base.
    destruct Hcase as [Hnodot|[(r & -> & Hr)|Hcase]]; [| |done].
    + unfold extname. rewrite lastComponent_no_slash by done.
      replace (lastDot (s ++ ctr)) with (@None nat); [done|].
      symmetry. apply lastDot_none. rewrite elem_of_app. tauto.
    + unfold extname. rewrite lastComponent_no_slash by done.
      change ((DOT :: r) ++ ctr) with ([] ++ DOT :: (r ++ ctr)).
      rewrite lastDot_app; [done|]. rewrite elem_of_app. tauto.
  - rewrite Ex in *. subst ext.
    assert (base = stem) as ->.
    { rewrite Es in Hbase. by apply app_inv_tail in Hbase. }
    unfold extname. rewrite lastComponent_no_slash by done.
    rewrite (app_assoc stem ctr (DOT :: x)), lastDot_app by done.
    destruct stem as [|c stem]; [done|].
    cbn [app length]. rewrite bool_decide_eq_false_2 by done. cbn [orb].
    unfold isDotDot. rewrite bool_decide_eq_false_2.
    + change (S (length (stem ++ ctr))) with (length (c :: stem ++ ctr)).
      change (c :: (stem ++ ctr) ++ DOT :: x) with ((c :: stem ++ ctr) ++ DOT :: x).
      by rewrite drop_app_length.
    + intros Hbad. apply (f_equal length) in Hbad.
      cbn [length] in Hbad. rewrite !length_app in Hbad. unfold ctr in Hbad.
      rewrite !length_app in Hbad. cbn [length] in Hbad.
      change (length (js "_(")) with 2%nat in Hbad. lia.
Qed.

(** X14.  A stored upload keeps its extension: the name it is saved
    under, numbered or not, has the extension of the sanitised name.
    (The one name for which numbering would change the extension is
    [..].) *)
Theorem upload_keeps_extension fuel tp t f r t' saved :
  uploadOne root allowed maxSize cwd fuel tp t f = Some (r, t') →
  savedAs r = Some saved →
  safeName (f_name f) ≠ [DOT; DOT] →
  extname saved = extname (safeName (f_name f)).
Proof.
  intros Hup Hsaved Hdd.
  assert (success r = true) as Hok.
  { destruct (uploadOne_cases root allowed maxSize cwd fuel tp t f r t' Hup)
      as [(_ & -> & _)|[(_ & _ & -> & _)|(_ & _ & [(_ & -> & _)|(t1 & P & _ & _ & H)])]];
      try done.
    by destruct H as [(_ & -> & _)|(_ & ->)]. }
  destruct (uploadOne_stored root allowed maxSize cwd fuel tp t f r t' Hup Hok)
    as (nm & t1 & Hnm & _ & _ & Hcase & _).
  rewrite Hsaved in Hnm. injection Hnm as <-.
  destruct Hcase as [[-> _]|(j & _ & -> & _)]; [done|].
  apply numbered_extname; [apply safeName_no_slash|done].
Qed.

End UploadNaming.

(** ** Batches of uploads *)

Section UploadBatches.
Import JS Path FS Upload.
Context {L : Locale}.
Variables (root : jsstring) (allowed : list jsstring) (maxSize : Z) (cwd : jsstring).
Implicit Types (t : tree) (f : UploadFile) (r : Result) (tp : jsstring)
  (fs : list UploadFile) (rs : list Result).

Lemma extends_none t t' k : extends t t' → t' !! k = None → t !! k = None.
Proof.
  intros Hext Hk. destruct (t !! k) as [n|] eqn:E; [|done].
  apply Hext in E. congruence.
Qed.

(** What a stored upload leaves behind. *)
Lemma uploadOne_kept fuel tp t f r t' :
  uploadOne root allowed maxSize cwd fuel tp t f = Some (r, t') →
  success r = true →
  ∃ saved, savedAs r = Some saved
    ∧ t !! (key cwd (join2 root tp) ++ [saved]) = None
    ∧ t' !! (key cwd (join2 root tp) ++ [saved]) = Some (File (f_content f)).
Proof.
  intros Hup Hok.
  destruct (uploadOne_stored root allowed maxSize cwd fuel tp t f r t' Hup Hok)
    as (nm & t1 & Hnm & _ & _ & _ & Hfresh & ->).
  exists nm. split; [done|]. split; [done|]. apply lookup_insert_eq.
Qed.

(** X15.  After a batch, every file reported as stored is in the
    target directory under the reported name, with the uploaded
    content, at a place that was free before the batch; no two stored
    files of the batch share a name; and whatever the tree held before
    the batch it still holds. *)
Theorem batch_stores_every_success fuel tp t fs rs t' :
  uploadAll root allowed maxSize cwd fuel tp t fs = Some (rs, t') →
  let dir := key cwd (join2 root tp) in
  extends t t'
  ∧ (∀ i f r, fs !! i = Some f → rs !! i = Some r → success r = true →
       ∃ saved, savedAs r = Some saved
         ∧ t !! (dir ++ [saved]) = None
         ∧ t' !! (dir ++ [saved]) = Some (File (f_content f)))
  ∧ (∀ i j ri rj, i ≠ j → rs !! i = Some ri → rs !! j = Some rj →
       success ri = true → success rj = true → savedAs ri ≠ savedAs rj).
Proof.
  intros Hall dir. revert t rs Hall.
  induction fs as [|f0 fs IH]; intros t rs; cbn [uploadAll].
  - intros [= <- <-]. split; [apply extends_refl|]. split; [done|done].
  - destruct (uploadOne _ _ _ _ _ _ _ f0) as [[r0 ta]|] eqn:E0; [|done].
    destruct (uploadAll _ _ _ _ _ _ ta fs) as [[rs' tb]|] eqn:E; [|done].
    intros [= <- <-].
    destruct (IH _ _ E) as (Hext & Hstored & Hdistinct).
    pose proof (uploadOne_extends _ _ _ _ _ _ _ _ _ _ E0) as Hext0.
    assert (∀ j rj, rs' !! j = Some rj → success r0 = true → success rj = true →
                    savedAs r0 ≠ savedAs rj) as Hhead.
    { intros j rj Hj Hok0 Hokj Heq.
      destruct (uploadOne_kept _ _ _ _ _ _ E0 Hok0) as (s0 & Hs0 & _ & Hin0).
      assert (is_Some (fs !! j)) as [fj Hfj].
      { apply lookup_lt_is_Some. rewrite <- (uploadAll_length _ _ _ _ _ _ _ _ _ _ E).
        by eapply lookup_lt_Some. }
      destruct (Hstored j fj rj Hfj Hj Hokj) as (sj & Hsj & Hfree & _).
      rewrite Hs0, Hsj in Heq. injection Heq as ->. fold dir in Hin0. congruence. }
    split; [by eapply extends_trans|]. split.
    + intros [|i] f r; cbn [lookup list_lookup].
      * intros [= <-] [= <-] Hok.
        destruct (uploadOne_kept _ _ _ _ _ _ E0 Hok) as (s0 & Hs0 & Hfree & Hin0).
        exists s0. split; [done|]. split; [done|]. by apply Hext.
      * intros Hf Hr Hok.
        destruct (Hstored i f r Hf Hr Hok) as (s & Hs & Hfree & Hin).
        exists s. split; [done|]. split; [|done]. by eapply extends_none.
    + intros [|i] [|j] ri rj Hne; cbn [lookup list_lookup]; try done.
      * intros [= <-] Hj. by apply (Hhead j rj).
      * intros Hi [= <-] Hoki Hok0 Heq. by apply (Hhead i ri Hi Hok0 Hoki).
      * apply Hdistinct. congruence.
Qed.

(** X16.  Validation comes before any change: a batch in which every
    file is too large or of a type that is not allowed is answered
    file by file with the reason, and leaves the tree as it was; not
    even the target directory is created. *)
Theorem rejected_batch_changes_nothing fuel tp t fs :
  (∀ f, f ∈ fs →
     maxSize < f_size f ∨ ¬ (toLowerCase (slice1 (extname (f_name f))) ∈ allowed)) →
  uploadAll root allowed maxSize cwd fuel tp t fs =
    Some (map (λ f, rejected f (if maxSize <? f_size f then FileTooLarge
                                else DisallowedType)) fs, t).
Proof.
  induction fs as [|f0 fs IH]; intros Hall; cbn [uploadAll map]; [done|].
  destruct (uploadOne_turned_away root allowed maxSize cwd fuel tp t f0)
    as (e & -> & Hbig & Hsmall).
  { apply Hall, list_elem_of_here. }
  rewrite IH by (intros f Hf; by apply Hall, list_elem_of_further).
  destruct (Z.ltb_spec maxSize (f_size f0)) as [H|H].
  - by rewrite (Hbig H).
  - by rewrite (Hsmall H).
Qed.

End UploadBatches.

(** ** Uploads and archives without [..] in the request *)

Section WithoutDotDot.
Import JS Path FS.
Implicit Types (t : tree) (p : jsstring).

Lemma orDefault_nonempty o (d : jsstring) : d ≠ [] → orDefault o d ≠ [].
Proof. intros Hd. by destruct o as [[|c s]|]. Qed.

(** A path without [..] segments, joined to the root, stays at or
    below the root. *)
Lemma join2_below cwd root p :
  root ≠ [] → [DOT; DOT] ∉ split SLASH p →
  key cwd root `prefix_of` key cwd (join2 root p).
Proof.
  intros Hroot Hp. rewrite !key_stack, stack_join2 by done.
  destruct (foldl_descends (stack cwd root) _ Hp) as (ys & -> & _).
  rewrite reverse_app. by eexists.
Qed.

(** [mkdir] touches nothing but the directories on the way. *)
Lemma mkdirFrom_elsewhere t above todo t1 k :
  mkdirFrom t above todo = Some t1 →
  ¬ k `prefix_of` above ++ todo → t1 !! k = t !! k.
Proof.
  revert t above. induction todo as [|seg todo IH]; intros t above; cbn [mkdirFrom].
  - by intros [= <-].
  - intros Hmk Hk.
    assert (¬ k `prefix_of` (above ++ [seg]) ++ todo) as Hk'
      by by rewrite <- app_assoc.
    assert (k ≠ above ++ [seg]) as Hne.
    { intros ->. apply Hk. exists todo. by rewrite <- app_assoc. }
    destruct (lookupNode t (above ++ [seg])) as [[|d]|] eqn:E; [|done|].
    + by apply (IH _ _ Hmk).
    + rewrite (IH _ _ Hmk Hk'). by apply lookup_insert_ne.
Qed.

End WithoutDotDot.

Section UploadConfinement.
Import JS Path FS Upload.
Context {L : Locale}.

(** X17.  An upload whose target path has no [..] segment stays in
    the sandbox: the target directory is the root or below it, a
    stored file lands in that directory, and the only places of the
    tree that can differ afterwards are at or below the root, or
    directories on the way to it. *)
Theorem upload_without_dotdot_stays_inside
    (envRoot : option jsstring) (allowed : list jsstring) (maxSize : Z)
    (cwd : jsstring) (fuel : nat) (tp : jsstring) (t : tree) (f : UploadFile)
    (r : Result) (t' : tree) :
  let root := getStaticFilesRoot envRoot in
  let dir := key cwd (join2 root tp) in
  [DOT; DOT] ∉ split SLASH tp →
  uploadOne root allowed maxSize cwd fuel tp t f = Some (r, t') →
  key cwd root `prefix_of` dir
  ∧ (success r = true →
     ∃ saved, savedAs r = Some saved
       ∧ t' !! (dir ++ [saved]) = Some (File (f_content f)))
  ∧ (∀ k, ¬ key cwd root `prefix_of` k → ¬ k `prefix_of` key cwd root →
          t' !! k = t !! k).
Proof.
  intros root dir Htp Hup.
  assert (root ≠ []) as Hroot by (by apply orDefault_nonempty).
  pose proof (join2_below cwd root tp Hroot Htp) as Hbelow. fold dir in Hbelow.
  split; [done|]. split.
  - intros Hok.
    destruct (uploadOne_kept _ _ _ _ _ _ _ _ _ _ Hup Hok) as (saved & ? & _ & ?).
    by exists saved.
  - intros k Hout Hway.
    assert (¬ k `prefix_of` dir) as Hk.
    { intros Hk. destruct (prefix_weak_total _ _ _ Hk Hbelow); done. }
    destruct (uploadOne_cases _ _ _ _ _ _ _ _ _ _ Hup)
      as [(_ & _ & ->)|[(_ & _ & _ & ->)|(_ & _ & [(_ & _ & ->)|H])]]; try done.
    destruct H as (t1 & P & Hmk & Hfree & [(_ & _ & ->)|(Hw & Hr)]).
    + by apply (mkdirFrom_elsewhere _ [] _ _ _ Hmk).
    + assert (success r = true) as Hok by by rewrite Hr.
      destruct (uploadOne_stored _ _ _ _ _ _ _ _ _ _ Hup Hok)
        as (nm & t1' & _ & Hmk' & _ & _ & _ & ->).
      rewrite lookup_insert_ne.
      * by apply (mkdirFrom_elsewhere _ [] _ _ _ Hmk').
      * intros <-. apply Hout. by apply prefix_app_r.
Qed.

End UploadConfinement.

Section ArchiveContent.
Import JS Path FS Archive.

Lemma addPath_entry root cwd t p e :
  e ∈ (addPath root cwd t p).1 →
  statNode t (e_source e) = Some (File (e_data e))
  ∧ key cwd (join2 root p) `prefix_of` e_source e.
Proof.
  unfold addPath, visitPath.
  destruct (statPath cwd t (join2 root p)) as [[|data]|] eqn:Hst; cbn [fst fileEntries].
  - unfold directoryEntries. intros ([rel data] & -> & Hin)%list_elem_of_fmap.
    apply filesBelow_elem in Hin. cbn [e_source e_data].
    split; [done|]. by eexists.
  - rewrite Hst. intros ->%list_elem_of_singleton. cbn [e_source e_data].
    by apply statPath_file in Hst as [? _].
  - by intros ?%elem_of_nil.
Qed.

Lemma addFilesToArchive_entry root cwd t paths e :
  e ∈ (addFilesToArchive root cwd t paths).1 →
  statNode t (e_source e) = Some (File (e_data e))
  ∧ ∃ p, p ∈ paths ∧ key cwd (join2 root p) `prefix_of` e_source e.
Proof.
  rewrite addFilesToArchive_flat. cbn [fst].
  rewrite list_elem_of_In, in_flat_map.
  intros (p & Hp & He). rewrite <- !list_elem_of_In in *.
  destruct (addPath_entry _ _ _ _ _ He) as [Hdata Hpre].
  split; [done|]. by exists p.
Qed.

(** X18.  What goes into an archive: every file entry carries the
    content of a regular file of the tree, found at or below one of
    the requested paths; and the warnings are the requested paths that
    [fs.stat] did not find, in the order of the request.  Among them is
    every regular file asked for with a separator at its end. *)
Theorem archive_content (root cwd : jsstring) (t : tree) (paths : list jsstring) :
  let r := addFilesToArchive root cwd t paths in
  (∀ e, e ∈ r.1 →
     statNode t (e_source e) = Some (File (e_data e))
     ∧ ∃ p, p ∈ paths ∧ key cwd (join2 root p) `prefix_of` e_source e)
  ∧ r.2 = map (join2 root)
              (filter (λ p, statPath cwd t (join2 root p) = None) paths)
  ∧ (∀ p data, p ∈ paths →
       statNode t (key cwd (join2 root p)) = Some (File data) →
       endsWithSlash (join2 root p) = true →
       join2 root p ∈ r.2 ∧ (addPath root cwd t p).1 = []).
Proof.
  intros r. subst r. split; [apply addFilesToArchive_entry|].
  assert ((addFilesToArchive root cwd t paths).2 =
          map (join2 root)
              (filter (λ p, statPath cwd t (join2 root p) = None) paths)) as Hw.
  { rewrite addFilesToArchive_flat. cbn [snd].
    induction paths as [|p paths IH]; [done|].
    cbn [flat_map]. rewrite IH, filter_cons. unfold addPath at 1, visitPath.
    destruct (statPath cwd t (join2 root p)) as [[|data]|] eqn:Hst; cbn [snd app].
    - by rewrite decide_False.
    - by rewrite decide_False.
    - by rewrite decide_True. }
  split; [exact Hw|].
  intros p data Hp Hfile Hslash.
  assert (statPath cwd t (join2 root p) = None) as Hnone.
  { apply statPath_none. right. split; [done|by eexists]. }
  split.
  - rewrite Hw. apply (list_elem_of_fmap_2 (join2 root)).
    by apply list_elem_of_filter.
  - unfold addPath, visitPath. by rewrite Hnone.
Qed.

(** X19.  An archive request whose paths have no [..] segment reads
    only inside the sandbox: the source of every entry is at or below
    the root. *)
Theorem archive_without_dotdot_stays_inside
    (envRoot : option jsstring) (cwd : jsstring) (t : tree)
    (paths : list jsstring) (e : Entry) :
  let root := getStaticFilesRoot envRoot in
  (∀ p, p ∈ paths → [DOT; DOT] ∉ split SLASH p) →
  e ∈ (addFilesToArchive root cwd t paths).1 →
  key cwd root `prefix_of` e_source e.
Proof.
  intros root Hpaths He.
  assert (root ≠ []) as Hroot by (by apply orDefault_nonempty).
  destruct (addFilesToArchive_entry root cwd t paths e He) as (_ & p & Hp & Hpre).
  etrans; [|exact Hpre]. by apply join2_below, Hpaths.
Qed.

End ArchiveContent.

(** ** The upload limits *)

Section UploadLimits.
Import JS Path Upload Limits.

Lemma js_pretty_go (x : N) (s : string) :
  js (pretty_N_go x s) = js (pretty_N_go x EmptyString) ++ js s.
Proof.
  revert s. induction (N.lt_wf_0 x) as [x _ IH]. intros s.
  destruct (decide (x = 0)%N) as [->|Hx]; [by rewrite !pretty_N_go_0|].
  rewrite !(pretty_N_go_step x) by lia.
  assert (x `div` 10 < x)%N as Hlt by (apply N.div_lt; lia).
  rewrite (IH _ Hlt (String _ s)), (IH _ Hlt (String _ EmptyString)).
  by rewrite <- app_assoc.
Qed.

Lemma digits_app (acc : option Z) (a b : jsstring) :
  Forall (λ c, isDigit c = true) a →
  digits 10 acc (a ++ b) = digits 10 (digits 10 acc a) b.
Proof.
  intros Ha. revert acc. induction Ha as [|c a Hc _ IH]; intros acc; [done|].
  cbn [app digits].
  assert (is_Some (digitValue 10 c)) as [v ->]; [|apply IH].
  apply isDigit_range in Hc. unfold digitValue.
  replace ((48 <=? c)%N && (c <=? 57)%N) with true
    by (symmetry; apply andb_true_intro; split; apply N.leb_le; lia).
  destruct (Z.ltb_spec (Z.of_N c - 48) 10); [by eexists|lia].
Qed.

Lemma digits_stop (acc : option Z) (rest : jsstring) :
  (∀ c, head rest = Some c → isDigit c = false) → digits 10 acc rest = acc.
Proof.
  destruct rest as [|c rest]; [done|]. intros H. specialize (H c eq_refl).
  cbn [digits]. replace (digitValue 10 c) with (@None Z); [done|].
  unfold digitValue, isDigit in *. rewrite H.
  destruct ((97 <=? c)%N && (c <=? 122)%N) eqn:E1.
  { apply andb_prop in E1 as [?%N.leb_le ?%N.leb_le].
    destruct (Z.ltb_spec (Z.of_N c - 87) 10); [lia|done]. }
  destruct ((65 <=? c)%N && (c <=? 90)%N) eqn:E2; [|done].
  apply andb_prop in E2 as [?%N.leb_le ?%N.leb_le].
  destruct (Z.ltb_spec (Z.of_N c - 55) 10); [lia|done].
Qed.

Lemma parseInt10_prefix (n : nat) (rest : jsstring) :
  (∀ c, head rest = Some c → isDigit c = false) →
  parseInt10 (numberToString n ++ rest) = Some (Z.of_nat n).
Proof.
  intros Hrest.
  pose proof (digits_numberToString n) as D.
  pose proof (numberToString_digits n) as Hdig.
  destruct (numberToString_cons n) as (c & r & E & Hc & Hr).
  unfold parseInt10. rewrite E. cbn [app skipWhite].
  rewrite (isDigit_not_white c Hc).
  assert ((c =? 45)%N = false ∧ (c =? 43)%N = false) as [-> ->].
  { apply isDigit_range in Hc. split; apply N.eqb_neq; lia. }
  change (c :: r ++ rest) with ((c :: r) ++ rest). rewrite <- E.
  rewrite digits_app, D, digits_stop by done. f_equal. lia.
Qed.

(** X20.  The size limit read from the environment.  Without the
    variable, or with an empty one, the limit is 10 MiB.  A value that
    begins with a decimal number of at most 2^53 is read as that
    number, and whatever follows the digits is ignored; the route then
    reports the number itself and, as the figure in MB, the number
    rounded to the nearest MiB.  A value that does not begin with a
    number gives [NaN], and the route reports [null] for both. *)
Theorem size_limit_from_environment (n : nat) (rest : jsstring)
    (allowed : list jsstring) :
  Z.of_nat n <= maxExact →
  (∀ c, head rest = Some c → isDigit c = false) →
  let limits envSize := GET allowed (getMaxFileSize envSize) in
  let written := Some (numberToString n ++ rest) in
  getMaxFileSize written = Some (Z.of_nat n)
  ∧ getMaxFileSize None = Some (10 * 1024 * 1024)
  ∧ getMaxFileSize (Some []) = Some (10 * 1024 * 1024)
  ∧ maxFileSize (limits written) = Some (Z.of_nat n)
  ∧ (∃ mb, maxFileSizeMB (limits written) = Some mb
           ∧ -524288 <= Z.of_nat n - mb * 1048576 < 524288)
  ∧ (∀ text, text ≠ [] → parseInt10 text = None →
       getMaxFileSize (Some text) = None
       ∧ maxFileSize (limits (Some text)) = None
       ∧ maxFileSizeMB (limits (Some text)) = None).
Proof.
  intros _ Hrest limits written.
  assert (getMaxFileSize written = Some (Z.of_nat n)) as Hread.
  { unfold written, getMaxFileSize.
    destruct (numberToString_cons n) as (c & r & E & _).
    rewrite E. cbn [app]. change (c :: r ++ rest) with ((c :: r) ++ rest).
    rewrite <- E. by apply parseInt10_prefix. }
  split; [done|]. split; [done|]. split; [done|].
  unfold limits. rewrite Hread. cbn [GET maxFileSize maxFileSizeMB fmap option_fmap option_map].
  split; [done|]. split.
  - exists (roundMB (Z.of_nat n)). split; [done|]. unfold roundMB.
    pose proof (Z.div_mod (Z.of_nat n + 524288) 1048576 ltac:(lia)) as Hdm.
    pose proof (Z.mod_pos_bound (Z.of_nat n + 524288) 1048576 ltac:(lia)) as Hm.
    lia.
  - intros text Hne Hnan.
    assert (getMaxFileSize (Some text) = None) as ->; [|done].
    unfold getMaxFileSize. by destruct text.
Qed.

Section AllowList.
Context {L : Locale}.

Lemma skipWhite_space (s : jsstring) : skipWhite (32%N :: s) = skipWhite s.
Proof. done. Qed.

Lemma split_join_comma (e : jsstring) (es : list jsstring) :
  (∀ x, x ∈ e :: es → COMMA ∉ x) →
  split COMMA (join (js ", ") (e :: es)) = e :: map (λ x, 32%N :: x) es.
Proof.
  revert e. induction es as [|e' es IH]; intros e Hall.
  - cbn [join map]. apply split_no_sep, Hall, list_elem_of_here.
  - rewrite join_cons by done.
    change (js ", ") with [COMMA; 32%N].
    change (e ++ [COMMA; 32%N] ++ join [COMMA; 32%N] (e' :: es))
      with (e ++ COMMA :: (32%N :: join [COMMA; 32%N] (e' :: es))).
    rewrite split_app, (split_no_sep COMMA e) by apply Hall, list_elem_of_here.
    rewrite split_cons_other by done.
    change [COMMA; 32%N] with (js ", ").
    rewrite IH by (intros x Hx; by apply Hall, list_elem_of_further).
    done.
Qed.

(** X21.  The allow-list read from the environment.  A list of
    extensions written out with [", "] between them, as the route does
    in its error message, is read back entry by entry, in lower case:
    the blank after each comma is trimmed away.  (The extensions must
    hold no comma and no white space at their ends, and the text must
    not be empty.) *)
Theorem allowed_extensions_from_environment (exts : list jsstring) :
  join (js ", ") exts ≠ [] →
  (∀ x, x ∈ exts → (COMMA ∉ x) ∧ trim x = x) →
  getAllowedExtensions (Some (join (js ", ") exts)) = map toLowerCase exts.
Proof.
  intros Hne Hall. unfold getAllowedExtensions.
  destruct (join (js ", ") exts) as [|c s] eqn:E; [done|]. rewrite <- E.
  destruct exts as [|e es]; [done|].
  rewrite split_join_comma by (intros x Hx; by apply Hall).
  cbn [map]. f_equal.
  - f_equal. apply Hall, list_elem_of_here.
  - rewrite map_map. apply map_ext_in. intros x Hx%list_elem_of_In.
    f_equal. unfold trim. rewrite skipWhite_space.
    apply Hall. by apply list_elem_of_further.
Qed.

End AllowList.

End UploadLimits.

(** ** The upload dialog and the upload route *)

Section DialogAndRoute.
Import JS Path FS Upload Limits Dialog.
Context {L : Locale}.
Variables (root : jsstring) (allowed : list jsstring) (cwd : jsstring).



End DialogAndRoute.

(** ** The download route *)

Section DownloadRoute.
Import JS Path Listing Download.
Context {L : Locale}.

(** X23.  The download route stays in the sandbox.  Whatever the
    [path] parameter, every file it looks at or reads lies at or below
    the root; and when it sends a file, that is the content of the
    requested path, which is not a directory, under its own name and
    with the size [stat] reported. *)
Theorem download_stays_inside
    (envRoot : option jsstring) (cwd : jsstring) (fs : FileFS)
    (pathParam : option jsstring) :
  let root := getStaticFilesRoot envRoot in
  let reply := GET root cwd fs pathParam in
  (∀ p, EvStat p ∈ reply.2 ∨ EvReadFile p ∈ reply.2 →
        key cwd root `prefix_of` key cwd p)
  ∧ (∀ content contentType fileName len,
       reply.1 = Attachment content contentType fileName len →
       ∃ requested stats,
         pathParam = Some requested
         ∧ let fullPath := join2 root (stripDotDots (normalize requested)) in
           key cwd root `prefix_of` key cwd fullPath
           ∧ stat (base fs) fullPath = Some stats
           ∧ isDirectory stats = false
           ∧ readFile fs fullPath = Some content
           ∧ len = st_size stats
           ∧ fileName = basename1 fullPath
           ∧ contentType = contentTypeOf fileName).
Proof.
  intros root reply. subst reply.
  assert (root ≠ []) as Hroot by (by apply orDefault_nonempty).
  unfold GET. destruct pathParam as [[|c requested]|].
  - split; [intros p [H|H]; by apply elem_of_nil in H|done].
  - set (req := c :: requested).
    pose proof (guard_decides cwd root Hroot req) as Hguard. cbn zeta in Hguard.
    set (fullPath := join2 root (stripDotDots (normalize req))) in *.
    destruct (access (base fs) root); cbn [negb].
    2:{ cbn [fst snd]. split; [|done]. intros p.
        rewrite !list_elem_of_singleton. by intros [?|?]. }
    destruct (startsWith (resolve cwd fullPath) (resolve cwd root)) eqn:Hin; cbn [negb].
    2:{ cbn [fst snd]. split; [|done]. intros p.
        rewrite !list_elem_of_singleton. by intros [?|?]. }
    assert (key cwd root `prefix_of` key cwd fullPath) as Hinside by by apply Hguard.
    assert (∀ (evs : list Event) p,
              evs ⊆ [EvAccess root; EvStat fullPath; EvReadFile fullPath] →
              EvStat p ∈ evs ∨ EvReadFile p ∈ evs →
              key cwd root `prefix_of` key cwd p) as Hevs.
    { intros evs p Hsub [H|H]; apply Hsub in H; rewrite !elem_of_cons in H;
        destruct H as [H|[H|[H|H]]]; try done; try (by apply elem_of_nil in H);
        by injection H as ->. }
    destruct (stat (base fs) fullPath) as [stats|] eqn:Hst.
    2:{ cbn [fst snd]. split; [|done]. intros p. apply Hevs.
        intros x. rewrite !elem_of_cons. tauto. }
    destruct (isDirectory stats) eqn:Hdir.
    { cbn [fst snd]. split; [|done]. intros p. apply Hevs.
        intros x. rewrite !elem_of_cons. tauto. }
    destruct (readFile fs fullPath) as [fileBuffer|] eqn:Hrd.
    2:{ cbn [fst snd]. split; [|done]. intros p. by apply Hevs. }
    cbn [fst snd]. split; [intros p; by apply Hevs|].
    intros content contentType fileName len [= <- <- <- <-].
    exists req, stats. done.
  - split; [intros p [H|H]; by apply elem_of_nil in H|done].
Qed.

End DownloadRoute.

(** ** Normalized paths *)

Section NormalForm.
Import JS Path.

Lemma foldl_climb k m :
  foldl (normStep true) (replicate m [DOT; DOT]) (replicate k [DOT; DOT])
  = replicate (k + m) [DOT; DOT].
Proof.
  revert m. induction k as [|k IH]; intros m; [done|].
  cbn [replicate foldl].
  assert (normStep true (replicate m [DOT; DOT]) [DOT; DOT]
          = replicate (S m) [DOT; DOT]) as ->.
  { by destruct m. }
  rewrite IH. by replace (k + S m)%nat with (S k + m)%nat by lia.
Qed.

(** Normalizing what is normalized changes nothing. *)
Lemma renorm_same b xs :
  foldl (normStep b) [] (reverse (foldl (normStep b) [] xs)) = foldl (normStep b) [] xs.
Proof.
  destruct b; [|apply renorm_false].
  destruct (foldl_true_climbing [] xs climbing_nil) as (regs & k & -> & Hregs).
  rewrite reverse_app, reverse_replicate, foldl_app.
  change (@nil jsstring) with (replicate 0 [DOT; DOT]) at 1.
  rewrite (foldl_climb k 0), Nat.add_0_r. by apply foldl_push.
Qed.

Lemma endsWithSlash_snoc (s : jsstring) : endsWithSlash (s ++ [SLASH]) = true.
Proof. unfold endsWithSlash. by rewrite last_snoc. Qed.

Lemma endsWithSlash_inv (s : jsstring) :
  endsWithSlash s = true → ∃ s', s = s' ++ [SLASH].
Proof.
  unfold endsWithSlash. destruct (last s) as [c|] eqn:E; [|done].
  intros ->%N.eqb_eq. apply last_Some in E as [s' ->]. by exists s'.
Qed.

Lemma normalize_idem p : normalize (normalize p) = normalize p.
Proof.
  destruct (decide (p = [])) as [->|Hp]; [done|].
  destruct (normalize_cases p Hp) as [[_ ->]|[Hne E]].
  { by destruct (isAbsolute p), (endsWithSlash p). }
  set (b := negb (isAbsolute p)) in *.
  set (segs := normSegs b (split SLASH p)) in *.
  set (N := normalize p) in *.
  assert (N ≠ []) as HN by apply normalize_nonempty.
  assert (isAbsolute N = isAbsolute p) as Habs by apply isAbsolute_normalize.
  assert (split SLASH (join [SLASH] segs) = segs) as Hsplit by by apply split_normSegs.
  assert (join [SLASH] segs ≠ []) as HJ.
  { intros EJ. apply Hne. apply join_nil_inv; [|done].
    apply Forall_forall. intros seg Hseg. by apply normSegs_segments in Hseg as [? _]. }
  assert (endsWithSlash (join [SLASH] segs) = false) as Hlast.
  { destruct (endsWithSlash (join [SLASH] segs)) eqn:El; [|done].
    apply endsWithSlash_inv in El as [s' Es'].
    rewrite Es', split_snoc_sep in Hsplit.
    assert ([] ∈ segs) as Hin by (rewrite <- Hsplit; set_solver).
    by apply normSegs_segments in Hin as [? _]. }
  assert (endsWithSlash N = endsWithSlash p) as Htrail.
  { rewrite E. destruct (endsWithSlash p).
    - by rewrite app_assoc, endsWithSlash_snoc.
    - rewrite app_nil_r. unfold endsWithSlash in *. rewrite last_app.
      destruct (last (join [SLASH] segs)) eqn:El; [done|].
      by apply last_None in El. }
  assert (normSegs b (split SLASH N) = segs) as Hsegs.
  { assert (foldl (normStep b) [] (split SLASH N) = foldl (normStep b) [] segs) as Hf.
    { rewrite E. clear E Habs Htrail.
      destruct (isAbsolute p), (endsWithSlash p); cbn [app];
        rewrite ?app_nil_r, ?split_cons_sep, ?split_snoc_sep, ?Hsplit.
      all: cbn [foldl]; rewrite ?normStep_empty, ?foldl_app; cbn [foldl];
        rewrite ?normStep_empty.
      all: done. }
    unfold normSegs at 1. rewrite Hf. unfold segs, normSegs. by rewrite renorm_same. }
  destruct (normalize_cases N HN) as [[Hnil _]|[_ ->]].
  - rewrite Habs in Hnil. fold b in Hnil. by rewrite Hsegs in Hnil.
  - rewrite Habs, Htrail. fold b. by rewrite Hsegs.
Qed.

Lemma normalize_join2 a c : normalize (join2 a c) = join2 a c.
Proof. unfold join2. destruct a, c; by rewrite ?normalize_idem. Qed.

(** A path that ends in a name does not end in a separator. *)
Lemma suffix_no_trailing q n :
  validName n → q = n ∨ (∃ parent, q = parent ++ SLASH :: n) →
  endsWithSlash q = false.
Proof.
  intros [[Hn _] Hslash] [->|[parent ->]].
  - by apply (endsWithSlash_child [] n).
  - change (parent ++ SLASH :: n) with (parent ++ [SLASH] ++ n).
    rewrite app_assoc. by apply endsWithSlash_child.
Qed.

End NormalForm.

Section ListedDownloads.
Import JS Path Listing Item Download.
Context {L : Locale}.

(** The path a request for the path of a listed entry is looked up
    under ends in the name of the entry. *)
Lemma followed_suffix root parent n :
  root ≠ [] → validName n → isAbsolute (parent ++ SLASH :: n) = true →
  let target := join2 root (stripDotDots (normalize (parent ++ SLASH :: n))) in
  target = n ∨ ∃ parent', target = parent' ++ SLASH :: n.
Proof.
  intros Hroot Hvalid Habs target. subst target. pose proof Hvalid as [Hreg Hslash].
  assert (n ≠ []) as Hn by (by destruct Hreg).
  set (p := parent ++ SLASH :: n) in *.
  assert (stripDotDots (normalize p) = normalize p) as ->.
  { pose proof (isAbsolute_normalize p) as Hnorm. rewrite Habs in Hnorm.
    rewrite stripDotDots_unfold.
    destruct (normalize p) as [|a [|b [|c rest]]]; try done.
    cbn in Hnorm. apply N.eqb_eq in Hnorm as ->. done. }
  assert (normalize p = n ∨ ∃ parent', normalize p = parent' ++ SLASH :: n) as Ht.
  { apply (normalize_last p (split SLASH parent)); [done| |].
    - unfold p. by rewrite split_app, (split_no_sep SLASH n).
    - unfold p. change (parent ++ SLASH :: n) with (parent ++ [SLASH] ++ n).
      rewrite app_assoc. by apply endsWithSlash_child. }
  destruct (split_last_segment _ n Hvalid Ht) as [pre Hpre].
  pose proof (normalize_nonempty p) as Hne.
  unfold join2. destruct root as [|r root]; [done|].
  destruct (normalize p) as [|c t] eqn:E; [done|]. rewrite <- E in *.
  apply (normalize_last _ (split SLASH (r :: root) ++ pre)); [done| |].
  - change ((r :: root) ++ [SLASH] ++ normalize p)
      with ((r :: root) ++ SLASH :: normalize p).
    by rewrite split_app, Hpre, app_assoc.
  - destruct Ht as [->|[parent' ->]].
    + rewrite app_assoc. by apply endsWithSlash_child.
    + change ((r :: root) ++ [SLASH] ++ parent' ++ SLASH :: n)
        with ((r :: root) ++ [SLASH] ++ parent' ++ [SLASH] ++ n).
      rewrite !app_assoc. by apply endsWithSlash_child.
Qed.

(** The file name a request for the path of a listed entry is served
    under. *)
Lemma lastComponent_followed root parent n :
  root ≠ [] → validName n → isAbsolute (parent ++ SLASH :: n) = true →
  lastComponent (join2 root (stripDotDots (normalize (parent ++ SLASH :: n)))) = n.
Proof.
  intros Hroot Hvalid Habs. apply lastComponent_last_segment; [done|].
  by apply followed_suffix.
Qed.

Lemma GET_served root cwd (fs : FileFS) requestedPath stats :
  requestedPath ≠ [] →
  let fullPath := join2 root (stripDotDots (normalize requestedPath)) in
  access (base fs) root = true →
  startsWith (resolve cwd fullPath) (resolve cwd root) = true →
  stat (base fs) fullPath = Some stats →
  (GET root cwd fs (Some requestedPath)).1 =
    if isDirectory stats then Json 400 (js "Cannot download directory")
    else match readFile fs fullPath with
         | Some content =>
             Attachment content (contentTypeOf (basename1 fullPath))
                        (basename1 fullPath) (st_size stats)
         | None => Json 404 (js "File not found")
         end.
Proof.
  intros Hne fullPath Hacc Hin Hst. unfold GET.
  destruct requestedPath as [|c r]; [done|].
  fold fullPath. rewrite Hacc, Hin, Hst. cbn [negb].
  destruct (isDirectory stats); [done|].
  by destruct (readFile fs fullPath).
Qed.

(** X24.  What the listing shows can be downloaded.  For a listed
    entry, the download route asked for the reported path passes its
    checks and reaches the entry itself: it refuses a directory, and
    otherwise sends the content of the file under the listed name and
    with the listed size (or reports that the file cannot be read).
    This holds for names without backslash on a file system on which
    two normalized paths without a separator at the end that resolve
    to the same place get the same answer from [stat], as they do
    where no symbolic link is in the way. *)
Theorem listed_entry_downloads
    (envRoot : option jsstring) (cwd : jsstring) (fs : FileFS) (q : Query)
    (item : FileItem) :
  let root := Listing.getStaticFilesRoot envRoot in
  let target := join2 root (stripDotDots (normalize (path item))) in
  item ∈ files (body (Listing.GET root cwd (base fs) q).1) →
  (∀ d es e, readdir (base fs) d = Some es → e ∈ es → validName (d_name e)) →
  BACKSLASH ∉ orDefault (q_path q) [SLASH] → BACKSLASH ∉ name item →
  (∀ p p', normalize p = p → normalize p' = p' →
           endsWithSlash p = false → endsWithSlash p' = false →
           key cwd p = key cwd p' → stat (base fs) p = stat (base fs) p') →
  ∃ stats,
    stat (base fs) target = Some stats
    ∧ size item = st_size stats
    ∧ (Download.GET root cwd fs (Some (path item))).1 =
        if isDirectory stats then Json 400 (js "Cannot download directory")
        else match readFile fs target with
             | Some content =>
                 Attachment content (contentTypeOf (name item)) (name item) (size item)
             | None => Json 404 (js "File not found")
             end.
Proof.
  intros root target Hin Hnames Hreq Hname Hstat.
  assert (root ≠ []) as Hroot by apply getStaticFilesRoot_nonempty.
  destruct (listed_path envRoot cwd (base fs) q item Hin Hnames Hreq Hname)
    as (Hvalid & Hguard & (stats & Hst & Hsize) & parent & Ep & Habs & _ & _ & Hkey).
  fold root in Hguard, Hst, Hkey. fold target in Hkey.
  apply listed_item in Hin as (entries & e & stats' & (Hacc & _) & _).
  set (fullPath := join2 root (stripDotDots (normalize (orDefault (q_path q) [SLASH]))))
    in *.
  assert (isAbsolute (path item) = true) as Hpabs.
  { rewrite Ep. by destruct parent. }
  assert (stat (base fs) target = Some stats) as Hst'.
  { rewrite <- Hst. apply Hstat.
    - apply normalize_join2.
    - apply normalize_join2.
    - apply (suffix_no_trailing _ (name item) Hvalid).
      unfold target. rewrite Ep. apply followed_suffix; try done. by rewrite <- Ep.
    - apply (suffix_no_trailing _ (name item) Hvalid). by apply join2_child_suffix.
    - rewrite Hkey. symmetry. apply key_child; [apply join2_nonempty|done]. }
  assert (startsWith (resolve cwd target) (resolve cwd root) = true) as Hin'.
  { apply (guard_decides cwd root Hroot). fold target. rewrite Hkey.
    apply (guard_decides cwd root Hroot) in Hguard. by apply prefix_app_r. }
  assert (basename1 target = name item) as Hbase.
  { unfold basename1, target. rewrite Ep. apply lastComponent_followed; try done.
    by rewrite <- Ep. }
  exists stats. split; [done|]. split; [done|].
  rewrite (GET_served root cwd fs (path item) stats); try done.
  - fold target. by rewrite Hbase, Hsize.
  - rewrite Ep. by destruct parent.
Qed.

End ListedDownloads.

(** ** The tag suggestion route *)

Section TagsRoute.
Import JS Path Listing Tags.

Lemma skipWhite_suffix (s : jsstring) : skipWhite s `suffix_of` s.
Proof.
  induction s as [|c s IH]; [done|]. cbn [skipWhite].
  destruct (isWhite c); [|done]. by apply suffix_cons_r.
Qed.

Lemma skipWhite_head (s : jsstring) c : head (skipWhite s) = Some c → isWhite c = false.
Proof.
  induction s as [|a s IH]; [done|]. cbn [skipWhite].
  destruct (isWhite a) eqn:E; [done|]. by intros [= <-].
Qed.

Lemma trim_chars (s : jsstring) c : c ∈ trim s → c ∈ s.
Proof.
  unfold trim. rewrite elem_of_reverse. intros Hc.
  destruct (skipWhite_suffix (reverse (skipWhite s))) as [k1 E1].
  assert (c ∈ reverse (skipWhite s)) as Hc'.
  { rewrite E1. apply elem_of_app. by right. }
  rewrite elem_of_reverse in Hc'.
  destruct (skipWhite_suffix s) as [k2 E2]. rewrite E2.
  apply elem_of_app. by right.
Qed.

(** A trimmed string neither begins nor ends with white space. *)
Lemma trim_ends (s : jsstring) c :
  head (trim s) = Some c ∨ last (trim s) = Some c → isWhite c = false.
Proof.
  unfold trim. rewrite head_reverse, last_reverse.
  set (a := skipWhite s). set (b := skipWhite (reverse a)).
  intros [H|H]; [|by apply skipWhite_head in H].
  destruct (skipWhite_suffix (reverse a)) as [k E]. fold b in E.
  assert (last (reverse a) = Some c) as Hl.
  { rewrite E, last_app, H. done. }
  rewrite last_reverse in Hl. by apply skipWhite_head in Hl.
Qed.

Lemma parseTags_elem text tag :
  tag ∈ parseTags text →
  tag ≠ [] ∧ (COMMA ∉ tag)
  ∧ ∀ c, head tag = Some c ∨ last tag = Some c → isWhite c = false.
Proof.
  unfold parseTags. rewrite list_elem_of_filter, list_elem_of_fmap.
  intros [Hne (seg & -> & Hseg)]. split; [done|]. split.
  - intros Hc%trim_chars. by apply split_segments in Hseg.
  - apply trim_ends.
Qed.

(** X25.  The tags read off the answer of the model.  No tag is
    empty, holds a comma, or begins or ends with white space.  And a
    list of such tags, written out with [", "] between them, is read
    back as it was. *)
Theorem tags_read_back (text : jsstring) :
  (∀ tag, tag ∈ parseTags text →
     tag ≠ [] ∧ (COMMA ∉ tag)
     ∧ ∀ c, head tag = Some c ∨ last tag = Some c → isWhite c = false)
  ∧ (∀ tags,
       (∀ tag, tag ∈ tags → tag ≠ [] ∧ (COMMA ∉ tag) ∧ trim tag = tag) →
       parseTags (join (js ", ") tags) = tags).
Proof.
  split; [apply parseTags_elem|].
  intros tags Hall. unfold parseTags.
  destruct tags as [|t ts]; [done|].
  rewrite split_join_comma by (intros x Hx; by apply Hall).
  assert (map trim (t :: map (λ x, 32%N :: x) ts) = t :: ts) as ->.
  { cbn [map]. f_equal; [apply Hall, list_elem_of_here|].
    rewrite map_map. rewrite <- (map_id ts) at 2.
    apply map_ext_in. intros x Hx%list_elem_of_In.
    unfold trim. rewrite skipWhite_space. apply Hall. by apply list_elem_of_further. }
  assert (Forall (λ tag : jsstring, tag ≠ []) (t :: ts)) as Hne.
  { apply Forall_forall. intros x Hx. by apply Hall. }
  clear Hall. induction Hne as [|x xs Hx _ IH]; [done|].
  by rewrite filter_cons, decide_True, IH.
Qed.

(** X26.  The tag route stays in the sandbox.  Every file it probes or
    reads lies at or below the root, what it sends to the model is the
    content of the requested file, and the tags it returns are never
    empty. *)
Theorem tags_route_stays_inside
    (envRoot : option jsstring) (cwd : jsstring) (access : jsstring → bool)
    (readFile : jsstring → option (list N)) (ask : list N → option Answer)
    (filePath : option jsstring) :
  let root := getStaticFilesRoot envRoot in
  let reply := POST root cwd access readFile ask filePath in
  (∀ p, EvAccess p ∈ reply.2 ∨ EvReadFile p ∈ reply.2 →
        key cwd root `prefix_of` key cwd p)
  ∧ (∀ content, EvAsk content ∈ reply.2 →
       ∃ requested,
         filePath = Some requested
         ∧ let fullPath := join2 root (stripDotDots (normalize requested)) in
           key cwd root `prefix_of` key cwd fullPath
           ∧ access fullPath = true
           ∧ readFile fullPath = Some content)
  ∧ (∀ tags tag, reply.1 = Suggested tags → tag ∈ tags → tag ≠ []).
Proof.
  intros root reply. subst reply.
  assert (root ≠ []) as Hroot by (by apply orDefault_nonempty).
  unfold POST. destruct filePath as [[|c requested]|].
  - cbn [fst snd]. split; [intros p [H|H]; by apply elem_of_nil in H|].
    split; [by intros ? ?%elem_of_nil|done].
  - set (req := c :: requested).
    pose proof (guard_decides cwd root Hroot req) as Hguard. cbn zeta in Hguard.
    set (fullPath := join2 root (stripDotDots (normalize req))) in *.
    destruct (startsWith (resolve cwd fullPath) (resolve cwd root)) eqn:Hin; cbn [negb].
    2:{ cbn [fst snd]. split; [intros p [H|H]; by apply elem_of_nil in H|].
        split; [by intros ? ?%elem_of_nil|done]. }
    assert (key cwd root `prefix_of` key cwd fullPath) as Hinside by by apply Hguard.
    assert (∀ (evs : list Event) p,
              (∀ ev, ev ∈ evs →
                 ev = EvAccess fullPath ∨ ev = EvReadFile fullPath ∨ ∃ x, ev = EvAsk x) →
              EvAccess p ∈ evs ∨ EvReadFile p ∈ evs →
              key cwd root `prefix_of` key cwd p) as Hevs.
    { intros evs p Hsub [H|H]; apply Hsub in H as [H|[H|[x H]]]; try done;
        by injection H as ->. }
    destruct (access fullPath) eqn:Hacc; cbn [negb].
    2:{ cbn [fst snd]. split; [|split; [|done]].
        - intros p. apply Hevs. intros ev. rewrite list_elem_of_singleton. auto.
        - intros content. by rewrite list_elem_of_singleton. }
    destruct (readFile fullPath) as [fileContent|] eqn:Hrd.
    2:{ cbn [fst snd]. split; [|split; [|done]].
        - intros p. apply Hevs. intros ev. rewrite !elem_of_cons, elem_of_nil. tauto.
        - intros content. rewrite !elem_of_cons, elem_of_nil.
          by intros [?|[?|?]]. }
    assert (∀ r : Response,
      (∀ tags tag, r = Suggested tags → tag ∈ tags → tag ≠ []) →
      let evs := [EvAccess fullPath; EvReadFile fullPath; EvAsk fileContent] in
      (∀ p, EvAccess p ∈ evs ∨ EvReadFile p ∈ evs → key cwd root `prefix_of` key cwd p)
      ∧ (∀ content, EvAsk content ∈ evs →
           ∃ requested0,
             Some req = Some requested0
             ∧ let fullPath0 := join2 root (stripDotDots (normalize requested0)) in
               key cwd root `prefix_of` key cwd fullPath0
               ∧ access fullPath0 = true
               ∧ readFile fullPath0 = Some content)
      ∧ (∀ tags tag, r = Suggested tags → tag ∈ tags → tag ≠ [])) as Hfinal.
    { intros r Hr evs. split; [|split; [|done]].
      - intros p. apply Hevs. intros ev. unfold evs.
        rewrite !elem_of_cons, elem_of_nil. intros [?|[?|[?|[]]]]; eauto.
      - intros content. unfold evs. rewrite !elem_of_cons, elem_of_nil.
        intros [?|[?|[[= ->]|[]]]]; try done. exists req. done. }
    destruct (ask fileContent) as [[st|text]|]; cbn [fst snd]; apply Hfinal; try done.
    intros tags tag [= <-] Htag. by apply parseTags_elem in Htag as [? _].
  - cbn [fst snd]. split; [intros p [H|H]; by apply elem_of_nil in H|].
    split; [by intros ? ?%elem_of_nil|done].
Qed.

End TagsRoute.

(** ** The properties at work on the example file systems *)

Section FurtherExamples.
Import JS Path Listing Order Item Explorer FS Demo.

#[local] Ltac compute_it := vm_compute; (reflexivity || discriminate || done).

#[local] Ltac not_in :=
  let H := fresh in
  intros H; apply list_elem_of_In in H; vm_compute in H;
  repeat (destruct H as [H|H]; [discriminate|]); exact H.

Lemma a_txt_listed :
  itemOf (js "/") (dirent "a.txt" KFile) fileStats
    ∈ files (body (GET (js "/data") (js "/") dataFS (query "/" "1" "20")).1).
Proof. apply list_elem_of_In. vm_compute. right. by left. Qed.

Lemma docs_listed :
  itemOf (js "/") (dirent "docs" KDirectory) dirStats
    ∈ files (body (GET (js "/data") (js "/") dataFS (query "/" "1" "20")).1).
Proof. apply list_elem_of_In. vm_compute. by left. Qed.

Lemma listing_entries_witness :
  let item := itemOf (js "/") (dirent "a.txt" KFile) fileStats in
  item ∈ files (body (GET (js "/data") (js "/") dataFS (query "/" "1" "20")).1)
  ∧ startsWith (name item) [DOT] = false.
Proof.
  intros item. split; [exact a_txt_listed|].
  exact (proj1 (listing_entries_from_directory (js "/data") (js "/") dataFS
                  (query "/" "1" "20") item a_txt_listed)).
Defined.

Lemma listing_sorted_witness :
  StronglySorted listedBefore
    (files (body (GET (js "/data") (js "/") dataFS (query "/" "1" "20")).1)).
Proof.
  exact (listing_page_sorted (LO := asciiLocaleOrder) (js "/data") (js "/") dataFS
           (query "/" "1" "20")).
Defined.

Lemma listing_path_witness :
  let item := itemOf (js "/") (dirent "a.txt" KFile) fileStats in
  path item = js "/a.txt"
  ∧ key (js "/") (join2 (js "/data") (stripDotDots (normalize (path item))))
    = key (js "/") (join2 (js "/data") (stripDotDots (normalize (js "/")))) ++ [js "a.txt"].
Proof.
  intros item. split; [reflexivity|].
  apply (listing_path_leads_back (Some (js "/data")) (js "/") dataFS
           (query "/" "1" "20") item a_txt_listed dataFS_names).
  - not_in.
  - not_in.
Defined.

Lemma listing_extension_witness :
  let item := itemOf (js "/") (dirent "a.txt" KFile) fileStats in
  extension item = Some (js "txt") ∧ type item = file.
Proof.
  intros item. split; [reflexivity|].
  exact (proj1 (listing_extension (js "/data") (js "/") dataFS (query "/" "1" "20")
                  item (js "txt") a_txt_listed dataFS_names eq_refl)).
Defined.

Lemma totalPages_witness :
  let reply k :=
    (GET (js "/data") (js "/") dataFS (fetchParams 2 pagination (js "/") k [])).1 in
  total (body (reply 1%nat)) = 3
  ∧ totalPages 3 2 = 2
  ∧ (files (body (reply 2%nat)) ≠ []
     ↔ Z.of_nat 2 <= totalPages (total (body (reply 1%nat))) (Z.of_nat 2)).
Proof.
  intros reply. split; [compute_it|]. split; [compute_it|].
  apply (totalPages_counts_pages (js "/data") (js "/") dataFS 2 pagination
           (js "/") [] 1 2); cbn; lia.
Defined.

Lemma parentPath_witness :
  (SLASH ∉ js "reports")
  ∧ parentPath (js "/docs" ++ SLASH :: js "reports") = orElse (js "/docs") [SLASH].
Proof.
  assert (SLASH ∉ js "reports") as H by not_in.
  split; [exact H|]. exact (parentPath_of_child (js "/docs") (js "reports") H).
Defined.

Lemma back_witness :
  let item := itemOf (js "/") (dirent "docs" KDirectory) dirStats in
  parentPath (path item) = js "/"
  ∧ key (js "/") (join2 (js "/data") (stripDotDots (normalize (parentPath (path item)))))
    = key (js "/") (join2 (js "/data") (stripDotDots (normalize (js "/")))).
Proof.
  intros item. split; [compute_it|].
  apply (back_returns_to_listing (Some (js "/data")) (js "/") dataFS
           (query "/" "1" "20") item docs_listed dataFS_names).
  - not_in.
  - not_in.
Defined.

Lemma click_witness :
  let st := {| selectedFiles := [js "/a.txt"]; lastSelectedIndex := None |} in
  let event := {| shiftKey := false; ctrlKey := true; metaKey := false |} in
  NoDup (selectedFiles st)
  ∧ NoDup (selectedFiles (handleFileSelect [] st (js "/b.txt") 1 event)).
Proof.
  intros st event.
  assert (NoDup (selectedFiles st)) as H by apply NoDup_singleton.
  split; [exact H|].
  exact (proj1 (click_changes_selection [] st (js "/b.txt") 1 event H)).
Defined.

Lemma a_txt_uploaded :
  ∃ t',
    Upload.uploadOne (js "/data") Upload.defaultAllowedExtensions 4 (js "/") 20 (js "/")
      dataTree (payload "a.txt" "new")
    = Some (Upload.stored (payload "a.txt" "new") (js "a_(1).txt"), t').
Proof.
  assert (fst <$> Upload.uploadOne (js "/data") Upload.defaultAllowedExtensions 4
                    (js "/") 20 (js "/") dataTree (payload "a.txt" "new")
          = Some (Upload.stored (payload "a.txt" "new") (js "a_(1).txt"))) as H
    by compute_it.
  destruct (Upload.uploadOne _ _ _ _ _ _ _ _) as [[r t']|]; [|discriminate H].
  injection H as ->. by exists t'.
Qed.

Lemma keeps_extension_witness :
  extname (js "a_(1).txt") = extname (Upload.safeName (js "a.txt")).
Proof.
  destruct a_txt_uploaded as [t' E].
  refine (upload_keeps_extension (js "/data") Upload.defaultAllowedExtensions 4 (js "/")
            20 (js "/") dataTree (payload "a.txt" "new") _ t' (js "a_(1).txt") E
            eq_refl _).
  compute_it.
Defined.

Lemma two_uploaded :
  ∃ rs t',
    Upload.uploadAll (js "/data") Upload.defaultAllowedExtensions 4 (js "/") 20 (js "/")
      dataTree [payload "a.txt" "new"; payload "a.txt" "more"] = Some (rs, t')
    ∧ Upload.savedAs <$> rs = [Some (js "a_(1).txt"); Some (js "a_(2).txt")].
Proof.
  assert (fst <$> Upload.uploadAll (js "/data") Upload.defaultAllowedExtensions 4
                    (js "/") 20 (js "/") dataTree
                    [payload "a.txt" "new"; payload "a.txt" "more"]
          = Some [Upload.stored (payload "a.txt" "new") (js "a_(1).txt");
                  Upload.stored (payload "a.txt" "more") (js "a_(2).txt")]) as H
    by compute_it.
  destruct (Upload.uploadAll _ _ _ _ _ _ _ _) as [[rs t']|]; [|discriminate H].
  injection H as ->. eexists _, t'. by split.
Qed.

Lemma batch_witness :
  ∃ rs t',
    Upload.uploadAll (js "/data") Upload.defaultAllowedExtensions 4 (js "/") 20 (js "/")
      dataTree [payload "a.txt" "new"; payload "a.txt" "more"] = Some (rs, t')
    ∧ extends dataTree t'.
Proof.
  destruct two_uploaded as (rs & t' & E & _).
  exists rs, t'. split; [exact E|].
  exact (proj1 (batch_stores_every_success (js "/data") Upload.defaultAllowedExtensions
                  4 (js "/") 20 (js "/") dataTree _ rs t' E)).
Defined.

Lemma rejected_batch_witness :
  Upload.uploadAll (js "/data") Upload.defaultAllowedExtensions 4 (js "/") 0 (js "/")
    dataTree [payload "big.txt" "123456"; payload "run.exe" "x"]
  = Some ([Upload.rejected (payload "big.txt" "123456") Upload.FileTooLarge;
           Upload.rejected (payload "run.exe" "x") Upload.DisallowedType], dataTree).
Proof.
  apply (rejected_batch_changes_nothing (js "/data") Upload.defaultAllowedExtensions 4
           (js "/") 0 (js "/") dataTree
           [payload "big.txt" "123456"; payload "run.exe" "x"]).
  intros f Hf. apply list_elem_of_In in Hf.
  destruct Hf as [<-|[<-|[]]].
  - left. compute_it.
  - right. not_in.
Defined.

Lemma upload_inside_witness :
  ([DOT; DOT] ∉ split SLASH (js "/"))
  ∧ key (js "/") (js "/data") `prefix_of` key (js "/") (join2 (js "/data") (js "/")).
Proof.
  assert ([DOT; DOT] ∉ split SLASH (js "/")) as H by not_in.
  split; [exact H|].
  destruct a_txt_uploaded as [t' E].
  exact (proj1 (upload_without_dotdot_stays_inside (Some (js "/data"))
                  Upload.defaultAllowedExtensions 4 (js "/") 20 (js "/") dataTree
                  (payload "a.txt" "new") _ t' H E)).
Defined.

Lemma archive_inside_witness :
  let e := {| Archive.e_name := js "fileA";
              Archive.e_source := [js "data"; js "fileA"];
              Archive.e_data := js "A" |} in
  e ∈ (Archive.addFilesToArchive (js "/data") (js "/") dataTree [js "/fileA"]).1
  ∧ key (js "/") (js "/data") `prefix_of` Archive.e_source e.
Proof.
  intros e.
  assert (e ∈ (Archive.addFilesToArchive (js "/data") (js "/") dataTree [js "/fileA"]).1)
    as Hin by (apply list_elem_of_In; vm_compute; by left).
  split; [exact Hin|].
  apply (archive_without_dotdot_stays_inside (Some (js "/data")) (js "/") dataTree
           [js "/fileA"] e); [|exact Hin].
  intros p ->%list_elem_of_singleton. not_in.
Defined.

Lemma size_limit_witness :
  Z.of_nat 10 <= maxExact
  ∧ Limits.getMaxFileSize (Some (numberToString 10 ++ js "MB")) = Some 10
  ∧ Limits.maxFileSize (Limits.GET [] (Limits.getMaxFileSize (Some (js "ten")))) = None.
Proof.
  assert (Z.of_nat 10 <= maxExact) as Hsmall by (by vm_compute).
  split; [exact Hsmall|].
  destruct (size_limit_from_environment 10 (js "MB") [] Hsmall)
    as (Hread & _ & _ & _ & _ & Hnan).
  { intros c [= <-]. reflexivity. }
  split; [exact Hread|].
  destruct (Hnan (js "ten")) as (_ & Hnull & _); [done|reflexivity|exact Hnull].
Defined.

Lemma allowed_extensions_witness :
  join (js ", ") [js "txt"; js "Md"] = js "txt, Md"
  ∧ Limits.getAllowedExtensions (Some (join (js ", ") [js "txt"; js "Md"]))
    = map toLowerCase [js "txt"; js "Md"].
Proof.
  split; [reflexivity|].
  apply (allowed_extensions_from_environment [js "txt"; js "Md"]); [compute_it|].
  intros x Hx. apply list_elem_of_In in Hx.
  destruct Hx as [<-|[<-|[]]]; (split; [not_in|reflexivity]).
Defined.


Lemma keyedFS_names d es e :
  readdir keyedFS d = Some es → e ∈ es → validName (d_name e).
Proof.
  simpl. destruct (bool_decide _); [|done].
  intros [= <-] ->%list_elem_of_singleton.
  split; [by repeat split|]. not_in.
Qed.

Lemma keyed_a_txt_listed :
  itemOf (js "/") (dirent "a.txt" KFile) fileStats
    ∈ files (body (GET (js "/data") (js "/") keyedFS (query "/" "1" "20")).1).
Proof. apply list_elem_of_In. vm_compute. by left. Qed.

Lemma download_witness :
  (Download.GET (js "/data") (js "/") keyedFiles (Some (js "/a.txt"))).1
  = Download.Attachment (js "abc") (js "text/plain") (js "a.txt") 3.
Proof.
  destruct (listed_entry_downloads (Some (js "/data")) (js "/") keyedFiles
              (query "/" "1" "20") (itemOf (js "/") (dirent "a.txt" KFile) fileStats)
              keyed_a_txt_listed keyedFS_names) as (stats & Hst & _ & Hget).
  - not_in.
  - not_in.
  - intros p p' _ _ Hp Hp' Hkey. cbn [Download.base keyedFiles stat keyedFS].
    by rewrite Hkey, Hp, Hp'.
  - assert (stats = fileStats) as -> by (vm_compute in Hst; by injection Hst as <-).
    exact Hget.
Defined.

End FurtherExamples.

(** ** Scrolling through a folder *)

Section InfiniteScroll.
Import JS Path Listing Order Explorer.
Context {L : Locale}.
Variables (root cwd : jsstring) (fs : ReadFS) (pageLimit : nat) (searchTerm : jsstring).

(** A fetch in scrolling mode on a folder that can be listed. *)
Lemma fetchFiles_scrolling (dir : jsstring) (entries : list Dirent) (st : View)
    (p : nat) (append : bool) :
  lists root cwd fs (orElse dir [SLASH]) entries →
  let safePath := stripDotDots (normalize (orElse dir [SLASH])) in
  let all := sort (visitEntries fs (join2 root safePath) safePath searchTerm entries).1 in
  let page := take 10 (drop (p * 10) all) in
  fetchFiles root cwd fs pageLimit infinite searchTerm st dir (S p) append =
    {| s_files := if append then s_files st ++ page else page;
       s_currentPage := s_currentPage st;
       s_totalPages := totalPages (Z.of_nat (length all)) 10;
       s_hasMore := bool_decide (S p * 10 < length all)%nat;
       s_error := None |}.
Proof.
  intros Hl safePath all page. unfold fetchFiles, GET.
  destruct (fetch_parsed pageLimit infinite dir (S p) searchTerm) as (-> & -> & -> & ->).
  cbn [pageSize]. change (Z.of_nat 10 =? 0) with false. cbv iota.
  rewrite (handle_lists _ _ _ _ _ _ _ _ Hl).
  cbn [fst status body]. change ((200 <=? 200) && (200 <=? 299)) with true. cbn [negb].
  fold safePath. fold all.
  assert (files (paginate all (Z.max 1 (Z.of_nat (S p))) (Z.min (Z.of_nat 10) 100)) = page)
    as ->.
  { rewrite paginate_files by lia. unfold page.
    replace (Z.to_nat (Z.min (Z.of_nat 10) 100)) with 10%nat by lia.
    by replace (Z.to_nat (Z.max 1 (Z.of_nat (S p)) - 1)) with p by lia. }
  cbn [paginate total hasMore]. f_equal.
  destruct (Z.ltb_spec ((Z.max 1 (Z.of_nat (S p)) - 1) * Z.min (Z.of_nat 10) 100
                        + Z.min (Z.of_nat 10) 100) (Z.of_nat (length all))).
  - rewrite bool_decide_eq_true_2; [done|lia].
  - rewrite bool_decide_eq_false_2; [done|lia].
Qed.

(** X27.  Scrolling shows the whole folder.  In scrolling mode, on a
    folder that can be listed, after opening the folder and any number
    of presses on "load more" the explorer shows the first entries of
    the sorted listing, ten for every page fetched, without error;
    every press fetches one more page as long as entries remain; and
    once no more is announced, what is shown is the whole listing. *)
Theorem scrolling_shows_all (dir : jsstring) (entries : list Dirent) (st : View)
    (n : nat) :
  lists root cwd fs (orElse dir [SLASH]) entries →
  let safePath := stripDotDots (normalize (orElse dir [SLASH])) in
  let all := sort (visitEntries fs (join2 root safePath) safePath searchTerm entries).1 in
  let press v := handleLoadMore root cwd fs pageLimit infinite searchTerm v dir in
  let shown :=
    Nat.iter n press (openFolder root cwd fs pageLimit infinite searchTerm st dir) in
  s_error shown = None
  ∧ (1 <= s_currentPage shown <= S n)%nat
  ∧ s_files shown = take (s_currentPage shown * 10) all
  ∧ s_hasMore shown = bool_decide (s_currentPage shown * 10 < length all)%nat
  ∧ ((n * 10 < length all)%nat → s_currentPage shown = S n)
  ∧ (s_hasMore shown = false → s_files shown = all).
Proof.
  intros Hl safePath all press shown.
  assert (s_error shown = None
          ∧ (1 <= s_currentPage shown <= S n)%nat
          ∧ s_files shown = take (s_currentPage shown * 10) all
          ∧ s_hasMore shown = bool_decide (s_currentPage shown * 10 < length all)%nat
          ∧ ((n * 10 < length all)%nat → s_currentPage shown = S n)) as H.
  { subst shown. induction n as [|n IH].
    - change (Nat.iter 0 press ?x) with x. unfold openFolder.
      rewrite (fetchFiles_scrolling dir entries _ 0 false Hl).
      fold safePath. fold all.
      cbn [s_error s_currentPage s_files s_hasMore]. repeat split; try done; lia.
    - rewrite !Nat.iter_succ. destruct IH as (He & Hp & Hf & Hm & Hprog).
      set (v := Nat.iter n press _) in *. unfold press, handleLoadMore.
      cbv zeta. destruct (s_hasMore v) eqn:Hmore.
      + rewrite (fetchFiles_scrolling dir entries _ (s_currentPage v) true Hl).
        fold safePath. fold all.
        cbn [s_error s_currentPage s_files s_hasMore].
        symmetry in Hm. apply bool_decide_eq_true in Hm.
        split; [done|]. split; [lia|]. split.
        * rewrite Hf. change (S (s_currentPage v) * 10)%nat
            with (10 + s_currentPage v * 10)%nat.
          by rewrite (Nat.add_comm 10), take_add_drop.
        * split; [done|]. intros Hlen. rewrite Hprog; [done|lia].
      + symmetry in Hm. apply bool_decide_eq_false in Hm.
        split; [done|]. split; [lia|]. split; [done|]. split.
        * rewrite bool_decide_eq_false_2; [done|lia].
        * intros Hlen. destruct (decide (n * 10 < length all)%nat) as [Hl'|Hl'].
          -- specialize (Hprog Hl'). lia.
          -- lia. }
  destruct H as (He & Hp & Hf & Hm & Hprog).
  repeat split; try done; try lia.
  intros Hmore. rewrite Hm in Hmore. apply bool_decide_eq_false in Hmore.
  rewrite Hf. apply take_ge. lia.
Qed.

End InfiniteScroll.

(** ** The demo files *)

Section DemoFilesFacts.
Import JS Path FS DemoFiles.
Variable cwd : jsstring.
Implicit Types (t : tree) (k : list jsstring).

Lemma writeMissing_extends t files : extends t (writeMissing cwd t files).
Proof.
  revert t. induction files as [|[p c] files IH]; intros t; cbn [writeMissing];
    [apply extends_refl|].
  destruct (accessNode t (key cwd p)) eqn:Hacc; [apply IH|].
  destruct (writeFile t (key cwd p) c) as [t'|] eqn:Hw; [|apply extends_refl].
  eapply extends_trans; [|apply IH].
  apply writeFile_some in Hw as (Hk & Hreach & ->).
  apply extends_insert_fresh.
  apply accessNode_false in Hacc. unfold statNode in Hacc.
  rewrite Hreach in Hacc. by destruct (key cwd p).
Qed.

Lemma writeMissing_again t files :
  writeMissing cwd (writeMissing cwd t files) files = writeMissing cwd t files.
Proof.
  revert t. induction files as [|[p c] files IH]; intros t; [done|].
  cbn [writeMissing].
  destruct (accessNode t (key cwd p)) eqn:Hacc.
  - rewrite (extends_accessNode _ _ _ (writeMissing_extends t files) Hacc). apply IH.
  - destruct (writeFile t (key cwd p) c) as [t'|] eqn:Hw.
    + rewrite (extends_accessNode _ _ _ (writeMissing_extends t' files)
                 (writeFile_access _ _ _ _ Hw Hacc)).
      apply IH.
    + by rewrite Hacc, Hw.
Qed.

(** With their directories in place, the files of the list are all
    there afterwards: as they were, or with the content given. *)
Lemma writeMissing_present t (files : list (jsstring * list N)) p c :
  (∀ q x, (q, x) ∈ files →
     ∃ parent nm, key cwd q = parent ++ [nm] ∧ statNode t parent = Some Dir) →
  NoDup (map (λ f, key cwd f.1) files) →
  (p, c) ∈ files →
  statNode (writeMissing cwd t files) (key cwd p)
  = Some (match t !! key cwd p with Some n => n | None => File c end).
Proof.
  revert t. induction files as [|[p0 c0] files IH]; intros t Hparents Hnd Hin;
    [by apply elem_of_nil in Hin|].
  cbn [map fst] in Hnd. apply NoDup_cons in Hnd as [Hfresh Hnd].
  destruct (Hparents p0 c0 ltac:(apply list_elem_of_here)) as (parent & nm & Ek & Hdir).
  assert (key cwd p0 ≠ []) as Hne by (rewrite Ek; by destruct parent).
  cbn [writeMissing].
  destruct (accessNode t (key cwd p0)) eqn:Hacc.
  - apply elem_of_cons in Hin as [[= -> ->]|Hin].
    + apply accessNode_true in Hacc as [n Hn].
      rewrite (statNode_key _ _ _ Hne Hn).
      by apply (extends_statNode _ _ _ _ (writeMissing_extends t files)).
    + apply IH; [|done|done]. intros q x Hq. apply (Hparents q x).
      by apply list_elem_of_further.
  - rewrite Ek in Hacc.
    destruct (writeFile_missing t parent nm c0 Hdir Hacc) as [Hnone Hw].
    rewrite <- Ek in *. rewrite Hw.
    set (t' := <[key cwd p0 := File c0]> t).
    assert (extends t t') as Hext by by apply extends_insert_fresh.
    apply elem_of_cons in Hin as [[= -> ->]|Hin].
    + rewrite Hnone.
      apply (extends_statNode _ _ _ _ (writeMissing_extends t' files)).
      pose proof (writeFile_access _ _ _ _ Hw Hacc) as Hacc'. fold t' in Hacc'.
      apply accessNode_true in Hacc' as [n Hn]. rewrite Hn. f_equal.
      apply (statNode_key _ _ _ Hne) in Hn. unfold t' in Hn.
      rewrite lookup_insert_eq in Hn. by injection Hn as <-.
    + rewrite IH; [|..|done|done].
      * f_equal. unfold t'. rewrite lookup_insert_ne; [done|].
        intros E. apply Hfresh. rewrite E.
        apply (list_elem_of_fmap_2 (λ f, key cwd f.1) files (p, c) Hin).
      * intros q x Hq.
        destruct (Hparents q x ltac:(by apply list_elem_of_further))
          as (parent' & nm' & Eq & Hdir').
        exists parent', nm'. split; [done|]. by apply (extends_statNode t).
Qed.

Lemma literal_name (nm : string) :
  bool_decide (js nm ≠ [] ∧ js nm ≠ [DOT] ∧ js nm ≠ [DOT; DOT] ∧ SLASH ∉ js nm) = true →
  validName (js nm).
Proof. intros (? & ? & ? & ?)%bool_decide_eq_true. by repeat split. Qed.

(** Where the directories and the files are, seen from the demo
    directory. *)
Lemma demo_keys :
  let kd := key cwd demoDir in
  kd ≠ []
  ∧ key cwd imagesDir = kd ++ [js "images"]
  ∧ key cwd docsDir = kd ++ [js "documents"]
  ∧ map (λ f : jsstring * list N, key cwd f.1) demoFiles =
      [kd ++ [js "readme.txt"]; kd ++ [js "sample.json"];
       kd ++ [js "documents"; js "guide.md"]; kd ++ [js "documents"; js "config.xml"]].
Proof.
  intros kd.
  assert (demoDir ≠ []) as Hdemo by apply join2_nonempty.
  assert (docsDir ≠ []) as Hdocs by apply join2_nonempty.
  assert (key cwd docsDir = kd ++ [js "documents"]) as Edocs
    by (apply key_child; [done|by apply literal_name]).
  split.
  { unfold kd, demoDir. rewrite key_child; [|done|by apply literal_name].
    by destruct (key cwd publicDir). }
  split; [apply key_child; [done|by apply literal_name]|]. split; [done|].
  unfold demoFiles. cbn [map fst].
  rewrite !key_child, Edocs by (done || by apply literal_name).
  by rewrite <- !app_assoc.
Qed.

(** X28.  The demo files are created where they are missing and never
    overwritten.  Running [ensureDemoFiles] leaves every node of the
    tree as it was, and running it again changes nothing more.  When
    its two directories can be created, both are there afterwards,
    and each of the four demo files is there: as it was when the tree
    held something at its place, with the demo content otherwise. *)
Theorem demo_files_created_once (t : tree) :
  let t' := ensureDemoFiles cwd t in
  extends t t'
  ∧ ensureDemoFiles cwd t' = t'
  ∧ (is_Some (mkdirRecursive t (key cwd imagesDir)) →
     is_Some (mkdirRecursive t (key cwd docsDir)) →
     statNode t' (key cwd imagesDir) = Some Dir
     ∧ statNode t' (key cwd docsDir) = Some Dir
     ∧ ∀ p content, (p, content) ∈ demoFiles →
         statNode t' (key cwd p)
         = Some (match t !! key cwd p with Some n => n | None => File content end)).
Proof.
  intros t'. subst t'. unfold ensureDemoFiles.
  destruct demo_keys as (Hkd & Eimg & Edoc & Ekeys).
  set (kd := key cwd demoDir) in *.
  destruct (mkdirRecursive t kd) as [t1|] eqn:E1.
  2:{ split; [apply extends_refl|]. split; [by rewrite E1|].
      intros Himg _. rewrite Eimg in Himg.
      apply mkdirFrom_creatable_prefix in Himg. unfold mkdirRecursive in E1.
      rewrite E1 in Himg. by destruct Himg. }
  pose proof (mkdirFrom_extends _ _ _ _ E1) as X1.
  destruct (mkdirRecursive t1 (key cwd imagesDir)) as [t2|] eqn:E2.
  2:{ split; [done|]. split.
      - by rewrite (mkdirRecursive_again _ _ _ _ E1 (extends_refl t1)), E2.
      - intros Himg _. exfalso.
        apply (mkdirFrom_creatable t t1 [] (key cwd imagesDir)) in Himg.
        + unfold mkdirRecursive in E2. rewrite E2 in Himg. by destruct Himg.
        + intros k d. apply (mkdirFrom_no_new_files _ _ _ _ _ _ E1). }
  pose proof (mkdirFrom_extends _ _ _ _ E2) as X2.
  destruct (mkdirRecursive t2 (key cwd docsDir)) as [t3|] eqn:E3.
  2:{ split; [by eapply extends_trans|]. split.
      - by rewrite (mkdirRecursive_again _ _ _ _ E1 X2),
                   (mkdirRecursive_again _ _ _ _ E2 (extends_refl t2)), E3.
      - intros _ Hdoc. exfalso.
        apply (mkdirFrom_creatable t t2 [] (key cwd docsDir)) in Hdoc.
        + unfold mkdirRecursive in E3. rewrite E3 in Hdoc. by destruct Hdoc.
        + intros k d Hk. apply (mkdirFrom_no_new_files _ _ _ _ _ _ E1).
          by apply (mkdirFrom_no_new_files _ _ _ _ _ _ E2). }
  pose proof (mkdirFrom_extends _ _ _ _ E3) as X3.
  pose proof (writeMissing_extends t3 demoFiles) as X4.
  set (t4 := writeMissing cwd t3 demoFiles) in *.
  assert (extends t t3) as X03 by (eapply extends_trans; [|done]; by eapply extends_trans).
  split; [by eapply extends_trans|]. split.
  { rewrite (mkdirRecursive_again _ _ _ _ E1
               (extends_trans _ _ _ X2 (extends_trans _ _ _ X3 X4))),
            (mkdirRecursive_again _ _ _ _ E2 (extends_trans _ _ _ X3 X4)),
            (mkdirRecursive_again _ _ _ _ E3 X4).
    apply writeMissing_again. }
  intros _ _.
  assert (statNode t3 kd = Some Dir) as Hd1.
  { apply (extends_statNode t1); [by eapply extends_trans|].
    rewrite <- (take_ge kd (length kd)) by lia.
    by apply (mkdirRecursive_prefix t). }
  assert (statNode t3 (key cwd imagesDir) = Some Dir) as Hd2.
  { apply (extends_statNode t2); [done|].
    rewrite <- (take_ge (key cwd imagesDir) (length (key cwd imagesDir))) by lia.
    by apply (mkdirRecursive_prefix t1). }
  assert (statNode t3 (key cwd docsDir) = Some Dir) as Hd3.
  { rewrite <- (take_ge (key cwd docsDir) (length (key cwd docsDir))) by lia.
    by apply (mkdirRecursive_prefix t2). }
  split; [by apply (extends_statNode t3)|]. split; [by apply (extends_statNode t3)|].
  intros p content Hin.
  assert (key cwd p ∈ map (λ f : jsstring * list N, key cwd f.1) demoFiles) as Hk
    by apply (list_elem_of_fmap_2 (λ f : jsstring * list N, key cwd f.1) _ _ Hin).
  assert (t3 !! key cwd p = t !! key cwd p) as Hsame.
  { assert (∀ x, x = js "images" ∨ x = js "documents" →
                 ¬ key cwd p `prefix_of` kd ++ [x]) as Hnot.
    { intros x Hx Hpre. rewrite Ekeys, !elem_of_cons, elem_of_nil in Hk.
      destruct Hk as [Hk|[Hk|[Hk|[Hk|[]]]]]; rewrite Hk in Hpre;
        apply prefix_length_eq in Hpre;
        try (rewrite !length_app; cbn [length]; lia);
        apply app_inv_head in Hpre;
        destruct Hx as [-> | ->]; apply (f_equal (map (length))) in Hpre;
        vm_compute in Hpre; discriminate. }
    assert (¬ key cwd p `prefix_of` kd) as Hnot0.
    { intros Hpre. apply (Hnot (js "images")); [by left|].
      by apply prefix_app_r. }
    rewrite (mkdirFrom_elsewhere _ [] _ _ _ E3)
      by (rewrite Edoc; apply Hnot; by right).
    rewrite (mkdirFrom_elsewhere _ [] _ _ _ E2)
      by (rewrite Eimg; apply Hnot; by left).
    by rewrite (mkdirFrom_elsewhere _ [] _ _ _ E1). }
  rewrite <- Hsame. apply writeMissing_present; [| |done].
  - intros q x Hq.
    assert (key cwd q ∈ map (λ f : jsstring * list N, key cwd f.1) demoFiles) as Hq'
      by apply (list_elem_of_fmap_2 (λ f : jsstring * list N, key cwd f.1) _ _ Hq).
    rewrite Ekeys, !elem_of_cons, elem_of_nil in Hq'.
    destruct Hq' as [Hq'|[Hq'|[Hq'|[Hq'|[]]]]]; rewrite Hq'.
    + by exists kd, (js "readme.txt").
    + by exists kd, (js "sample.json").
    + exists (kd ++ [js "documents"]), (js "guide.md").
      split; [by rewrite <- app_assoc|by rewrite <- Edoc].
    + exists (kd ++ [js "documents"]), (js "config.xml").
      split; [by rewrite <- app_assoc|by rewrite <- Edoc].
  - rewrite Ekeys.
    change [kd ++ [js "readme.txt"]; kd ++ [js "sample.json"];
            kd ++ [js "documents"; js "guide.md"];
            kd ++ [js "documents"; js "config.xml"]]
      with ((kd ++.) <$> [[js "readme.txt"]; [js "sample.json"];
                          [js "documents"; js "guide.md"];
                          [js "documents"; js "config.xml"]]).
    apply NoDup_fmap_2; [apply _|].
    apply (bool_decide_unpack _). by vm_compute.
Qed.

End DemoFilesFacts.

(** ** Logging in and out *)

Section Authentication.
Import JS Auth.

Lemma middleware_served (pathname : jsstring) (cookies : jar) :
  startsWith pathname (js "/login") = false →
  middleware pathname cookies = Next ↔ is_Some (cookies !! AUTH_TOKEN).
Proof.
  intros Hp. unfold middleware. rewrite Hp.
  destruct (decide (is_Some (cookies !! AUTH_TOKEN))) as [H|H].
  - by rewrite bool_decide_eq_true_2.
  - rewrite bool_decide_eq_false_2 by done. cbn [negb]. split; [discriminate|done].
Qed.

(** The token after one action. *)
Lemma act_token (cookies : jar) (a : Action) :
  is_Some (act cookies a !! AUTH_TOKEN) ↔
  match a with
  | Login u p =>
      (u = Some (js "admin") ∧ p = Some (js "password")) ∨ is_Some (cookies !! AUTH_TOKEN)
  | Logout => False
  end.
Proof.
  destruct a as [u p|]; unfold act, login, logout; cbn [snd].
  - destruct (decide (u = Some (js "admin"))) as [Hu|Hu];
      [rewrite (bool_decide_eq_true_2 _ Hu)|rewrite (bool_decide_eq_false_2 _ Hu)];
      cbn [andb snd]; [|tauto].
    destruct (decide (p = Some (js "password"))) as [Hq|Hq];
      [rewrite (bool_decide_eq_true_2 _ Hq)|rewrite (bool_decide_eq_false_2 _ Hq)];
      cbn [snd]; [|tauto].
    rewrite lookup_insert_eq. split; [by left|by eexists].
  - rewrite lookup_delete_eq. split; [by intros [? ?]|done].
Qed.

(** A token at the end was there at the start or comes from a login
    with the accepted credentials. *)
Lemma token_origin (actions : list Action) (cookies : jar) :
  is_Some (foldl act cookies actions !! AUTH_TOKEN) →
  is_Some (cookies !! AUTH_TOKEN)
  ∨ ∃ u p, Login u p ∈ actions ∧ u = Some (js "admin") ∧ p = Some (js "password").
Proof.
  revert cookies. induction actions as [|a actions IH]; intros cookies; cbn [foldl].
  - by left.
  - intros [H|(u & p & Hin & Hg)]%IH.
    + apply act_token in H. destruct a as [u p|]; [|done].
      destruct H as [H|H]; [|by left].
      right. exists u, p. split; [apply list_elem_of_here|done].
    + right. exists u, p. split; [by apply list_elem_of_further|done].
Qed.

(** A token stays until a logout. *)
Lemma token_kept (actions : list Action) (cookies : jar) :
  is_Some (cookies !! AUTH_TOKEN) → Logout ∉ actions →
  is_Some (foldl act cookies actions !! AUTH_TOKEN).
Proof.
  revert cookies. induction actions as [|a actions IH]; intros cookies H Hno; cbn [foldl].
  - done.
  - apply IH.
    + apply act_token. destruct a; [by right|].
      destruct Hno. apply list_elem_of_here.
    + intros Hin. destruct Hno. by apply list_elem_of_further.
Qed.

(** X29.  Pages are served after a login with the accepted
    credentials, and only then.  A browser keeps the cookies the login
    and logout routes set, and asks for a page outside [/login] after
    a series of logins and logouts.  If it had no token at the start,
    or logged out on the way, the middleware lets the request through
    only when a login with [admin] and [password] has come since; and
    after such a login the request is let through as long as no logout
    follows. *)
Theorem pages_need_login (cookies : jar) (actions : list Action) (pathname : jsstring) :
  startsWith pathname (js "/login") = false →
  let granted u p := u = Some (js "admin") ∧ p = Some (js "password") in
  let served := middleware pathname (foldl act cookies actions) = Next in
  (cookies !! AUTH_TOKEN = None → served →
     ∃ u p, Login u p ∈ actions ∧ granted u p)
  ∧ (∀ before after, actions = before ++ Logout :: after → served →
       ∃ u p, Login u p ∈ after ∧ granted u p)
  ∧ (∀ before after u p, actions = before ++ Login u p :: after →
       granted u p → Logout ∉ after → served)
  ∧ (¬ served → middleware pathname (foldl act cookies actions) = Redirect (js "/login")).
Proof.
  intros Hp granted served. subst served. split; [|split; [|split]].
  - intros Hnone [H|H]%(middleware_served _ _ Hp)%token_origin; [|done].
    rewrite Hnone in H. by destruct H.
  - intros before after -> H%(middleware_served _ _ Hp).
    rewrite foldl_app in H. cbn [foldl] in H.
    apply token_origin in H as [H|H]; [|done].
    by apply (act_token _ Logout) in H.
  - intros before after u p -> Hg Hno. apply (middleware_served _ _ Hp).
    rewrite foldl_app. cbn [foldl]. apply token_kept; [|done].
    apply act_token. by left.
  - unfold middleware. rewrite Hp.
    by destruct (negb (bool_decide (is_Some (foldl act cookies actions !! AUTH_TOKEN)))).
Qed.

End Authentication.

(** ** Further examples *)

Section ScrollingAndDemoExamples.
Import JS Path FS Listing Order Explorer DemoFiles Auth Demo.

Lemma scrolling_witness :
  let st := {| s_files := []; s_currentPage := 1; s_totalPages := 1;
               s_hasMore := false; s_error := None |} in
  let press v := handleLoadMore (js "/data") (js "/") dataFS 20 infinite [] v (js "/") in
  let shown :=
    Nat.iter 2 press (openFolder (js "/data") (js "/") dataFS 20 infinite [] st (js "/")) in
  lists (js "/data") (js "/") dataFS (orElse (js "/") [SLASH]) dataDir
  ∧ s_error shown = None
  ∧ s_currentPage shown = 1%nat
  ∧ map name (s_files shown) = [js "docs"; js "a.txt"; js "b.txt"].
Proof.
  intros st press shown. split; [exact dataFS_lists|].
  destruct (scrolling_shows_all (L := asciiLocale) (js "/data") (js "/") dataFS 20 []
              (js "/") dataDir st 2 dataFS_lists) as (He & _ & _ & Hm & _ & Hall).
  fold press in He, Hm, Hall. fold shown in He, Hm, Hall.
  split; [exact He|]. split; [by vm_compute|].
  rewrite Hall; [by vm_compute|]. rewrite Hm. by vm_compute.
Defined.

Lemma demo_files_witness :
  let cwd := js "/app" in
  let t' := ensureDemoFiles cwd ∅ in
  is_Some (mkdirRecursive ∅ (key cwd imagesDir))
  ∧ is_Some (mkdirRecursive ∅ (key cwd docsDir))
  ∧ ∀ p content, (p, content) ∈ demoFiles → statNode t' (key cwd p) = Some (File content).
Proof.
  intros cwd t'.
  assert (is_Some (mkdirRecursive ∅ (key cwd imagesDir))) as H1
    by (apply (bool_decide_unpack _); vm_compute; reflexivity).
  assert (is_Some (mkdirRecursive ∅ (key cwd docsDir))) as H2
    by (apply (bool_decide_unpack _); vm_compute; reflexivity).
  split; [exact H1|]. split; [exact H2|].
  destruct (demo_files_created_once cwd ∅) as (_ & _ & H).
  destruct (H H1 H2) as (_ & _ & Hf).
  intros p content Hin. subst t'. rewrite (Hf p content Hin). by rewrite lookup_empty.
Defined.

Lemma login_witness :
  let actions := [Logout; Login (Some (js "admin")) (Some (js "password")); Login None None] in
  startsWith (js "/") (js "/login") = false
  ∧ middleware (js "/") (foldl act ∅ actions) = Next.
Proof.
  intros actions. split; [reflexivity|].
  destruct (pages_need_login ∅ actions (js "/") eq_refl) as (_ & _ & H & _).
  apply (H [Logout] [Login None None] _ _ eq_refl); [by split|].
  intros Hin. apply list_elem_of_singleton in Hin. discriminate Hin.
Defined.

Lemma listing_reply_witness :
  let q := query "/" "3" "2" in
  parseInt (orDefault (q_page q) (js "1")) = Some 3
  ∧ 3 <= maxExact
  ∧ page (body (GET (js "/data") (js "/") dataFS q).1) = 3.
Proof.
  intros q.
  assert (parseInt (orDefault (q_page q) (js "1")) = Some 3) as Hasked by reflexivity.
  assert (3 <= maxExact) as Hsmall by (by vm_compute).
  split; [exact Hasked|]. split; [exact Hsmall|].
  destruct (listing_reply_shape (js "/data") (js "/") dataFS q) as (_ & _ & _ & _ & Hpage).
  exact (Hpage 3 Hasked Hsmall).
Defined.

Lemma archive_content_witness :
  let full := join2 (js "/data") (js "/a.txt/") in
  statNode dataTree (key (js "/") full) = Some (File (js "old"))
  ∧ endsWithSlash full = true
  ∧ full ∈ (Archive.addFilesToArchive (js "/data") (js "/") dataTree
              [js "/fileA"; js "/a.txt/"]).2
  ∧ (Archive.addPath (js "/data") (js "/") dataTree (js "/a.txt/")).1 = [].
Proof.
  intros full.
  assert (statNode dataTree (key (js "/") full) = Some (File (js "old"))) as Hfile
    by (by vm_compute).
  assert (endsWithSlash full = true) as Hslash by (by vm_compute).
  split; [exact Hfile|]. split; [exact Hslash|].
  destruct (archive_content (js "/data") (js "/") dataTree [js "/fileA"; js "/a.txt/"])
    as (_ & _ & Htrail).
  apply (Htrail (js "/a.txt/") (js "old")); [|exact Hfile|exact Hslash].
  apply list_elem_of_further, list_elem_of_here.
Defined.

End ScrollingAndDemoExamples.
